(** * ResumeRAG: the text-relevance core

    A shallow embedding of the scoring code of the three Express routers
    (search [/api/ask], jobs [/api/jobs/:id/match], resumes
    [/api/resumes/:id]) and the properties of their results.

    Conventions of the embedding
    - A JavaScript string is a [string] whose characters are the code
      units U+0000..U+00FF (the Latin-1 range).
    - A JavaScript number is a [number]: NaN, an infinity, or a finite
      value kept as an exact rational.  [binary64] rounds a value to the
      nearest double, a tie going to the even one.  The job scores, which
      are a quotient, a product and a quotient again, and the numbers
      that [parseInt] reads are doubles.  The similarity of the search
      router is one quotient of two set sizes and is kept exact; of a
      difference in a comparator only the sign is used, and it is kept
      exact as well.  The sign of zero is not represented.
    - A [Set] of strings is a [gset string]; arrays are lists.
    - [console.error] appends to a log, the database is an explicit
      state, and the outcome of each database call is an input.

    The later modules embed the rest of the resumes router (upload,
    list, delete), the idempotency middleware, the auth and admin routers
    and the applications router.  There an id of a URL or of a body is an
    integer, and what bcrypt, jsonwebtoken and the AUTOINCREMENT of SQLite
    produce is an input. *)

From Stdlib Require Import ZArith QArith Qround Qpower Lqa Lia Ascii String Sorted.
From stdpp Require Import base gmap sets list strings.
Close Scope Q_scope.

(** ** JavaScript numbers *)

Inductive number : Type :=
  | NaN
  | PosInf
  | NegInf
  | Fin (q : Q).

Definition of_Z (z : Z) : number := Fin (inject_Z z).
Definition of_nat (n : nat) : number := of_Z (Z.of_nat n).

Definition Qpos_b (q : Q) : bool := (0 <? Qnum q)%Z.
Definition Qneg_b (q : Q) : bool := (Qnum q <? 0)%Z.
Definition Qzero_b (q : Q) : bool := (Qnum q =? 0)%Z.

(** [x / y] *)
Definition num_div (x y : number) : number :=
  match x, y with
  | NaN, _ | _, NaN => NaN
  | Fin a, Fin b =>
      if Qzero_b b then
        (if Qzero_b a then NaN else if Qpos_b a then PosInf else NegInf)
      else Fin (a / b)%Q
  | Fin _, _ => Fin 0%Q
  | PosInf, Fin b => if Qneg_b b then NegInf else PosInf
  | NegInf, Fin b => if Qneg_b b then PosInf else NegInf
  | _, _ => NaN
  end.

(** [x * y] *)
Definition num_mul (x y : number) : number :=
  let inf_times (pos : bool) (b : Q) :=
    if Qzero_b b then NaN
    else if Bool.eqb pos (Qpos_b b) then PosInf else NegInf in
  match x, y with
  | NaN, _ | _, NaN => NaN
  | Fin a, Fin b => Fin (a * b)%Q
  | PosInf, Fin b | Fin b, PosInf => inf_times true b
  | NegInf, Fin b | Fin b, NegInf => inf_times false b
  | PosInf, PosInf | NegInf, NegInf => PosInf
  | _, _ => NegInf
  end.

(** [x - y] *)
Definition num_sub (x y : number) : number :=
  match x, y with
  | NaN, _ | _, NaN => NaN
  | Fin a, Fin b => Fin (a - b)%Q
  | PosInf, PosInf | NegInf, NegInf => NaN
  | PosInf, _ | _, NegInf => PosInf
  | NegInf, _ | _, PosInf => NegInf
  end.

(** [x > y]: false as soon as one side is NaN *)
Definition num_gt (x y : number) : bool :=
  match x, y with
  | NaN, _ | _, NaN => false
  | Fin a, Fin b => negb (Qle_bool a b)
  | PosInf, PosInf | NegInf, _ => false
  | PosInf, _ => true
  | Fin _, NegInf => true
  | Fin _, PosInf => false
  end.

(** [x === y] on numbers: NaN is not equal to itself *)
Definition num_strict_eq (x y : number) : bool :=
  match x, y with
  | Fin a, Fin b => Qeq_bool a b
  | PosInf, PosInf | NegInf, NegInf => true
  | _, _ => false
  end.

(** [Math.round]: the nearest integer, a tie going up *)
Definition Math_round (x : number) : number :=
  match x with
  | Fin q => Fin (inject_Z (Qfloor (q + (1 # 2))%Q))
  | _ => x
  end.

(** [Math.min] of two arguments *)
Definition Math_min (x y : number) : number :=
  match x, y with
  | NaN, _ | _, NaN => NaN
  | _, _ => if num_gt x y then y else x
  end.

(** ** Binary64 *)

Module Binary64.

Local Open Scope Q_scope.

(** [floor (log2 q)] for a positive [q] *)
Definition exponent (q : Q) : Z :=
  let e := (Z.log2 (Qnum q) - Z.log2 (Z.pos (Qden q)))%Z in
  if Qle_bool (2 ^ e) q then e else (e - 1)%Z.

(** The nearest integer, a tie going to the even one *)
Definition nearest_even (t : Q) : Z :=
  let f := Qfloor t in
  match Qcompare (t - inject_Z f) (1 # 2) with
  | Lt => f
  | Gt => (f + 1)%Z
  | Eq => if Z.even f then f else (f + 1)%Z
  end.

(** The exponent of the last place of the doubles around a positive [q]:
    53 bits, and no exponent below that of the subnormal numbers *)
Definition last_place (q : Q) : Z := (Z.max (exponent q) (-1022) - 52)%Z.

(** The double nearest to a positive [q], in units of the last place *)
Definition significand (q : Q) : Z := nearest_even (q / 2 ^ last_place q).

(** Round to nearest, ties to even; beyond the largest double the result
    is an infinity *)
Definition round_positive (q : Q) : number :=
  let r := inject_Z (significand q) * 2 ^ last_place q in
  if Qle_bool (2 ^ 1024) r then PosInf else Fin (Qred r).

Definition negate (x : number) : number :=
  match x with
  | NaN => NaN
  | PosInf => NegInf
  | NegInf => PosInf
  | Fin q => Fin (Qred (- q))
  end.

Definition round (q : Q) : number :=
  match Qnum q with
  | Z0 => Fin 0
  | Zpos _ => round_positive q
  | Zneg _ => negate (round_positive (- q))
  end.

End Binary64.

(** The value of an arithmetic operation as binary64 holds it *)
Definition binary64 (x : number) : number :=
  match x with
  | Fin q => Binary64.round q
  | _ => x
  end.



(** The value of a decimal literal of the source *)
Definition literal (q : Q) : number := binary64 (Fin q).

(** ** The text of a number: [Number::toString]

    At or beyond 1e21 the text is in exponent notation, [d.ddde+N], over
    the shortest digits that read back as the same double. *)

Module NumberToString.

(** The number of decimal digits of a positive integer *)
Fixpoint digits_loop (fuel : nat) (a : Z) : Z :=
  match fuel with
  | O => 1
  | S fuel => if (a <? 10)%Z then 1 else (1 + digits_loop fuel (a / 10))%Z
  end.

Definition digits (a : Z) : Z := digits_loop (Z.to_nat (Z.log2 a)) a.

(** Does the decimal [c] denote the double [v]? *)
Definition reads_back (v c : Z) : bool :=
  match binary64 (of_Z c) with
  | Fin r => Qeq_bool r (inject_Z v)
  | _ => false
  end.

(** The decimal of the fewest digits, [k] or more, that denotes the
    double [v] of [n] digits; of two such decimals the closer one, and
    the even one when they are equally close *)
Fixpoint shortest_loop (fuel : nat) (k : Z) (v n : Z) : Z :=
  match fuel with
  | O => v
  | S fuel =>
      let unit := (10 ^ (n - k))%Z in
      let lo := (v / unit * unit)%Z in
      let hi := (lo + unit)%Z in
      match reads_back v lo, reads_back v hi with
      | true, true =>
          if (v - lo <? hi - v)%Z then lo
          else if (hi - v <? v - lo)%Z then hi
          else if Z.even (v / unit) then lo else hi
      | true, false => lo
      | false, true => hi
      | false, false => shortest_loop fuel (k + 1) v n
      end
  end.

(** The first digit of the text of the double [v], an integer of 1e21 or
    more *)
Definition first_digit (v : Z) : Z :=
  let shortest := shortest_loop 17 1 v (digits v) in
  (shortest / 10 ^ (digits shortest - 1))%Z.

End NumberToString.

(** [ToIntegerOrInfinity] clamped to an index of an array of length [len],
    as [Array.prototype.slice] does for its [end] argument *)
Definition relative_index (len : Z) (e : number) : Z :=
  match e with
  | NaN => 0
  | NegInf => 0
  | PosInf => len
  | Fin q =>
      let rel := Z.quot (Qnum q) (Z.pos (Qden q)) in
      if (rel <? 0)%Z then Z.max (len + rel) 0 else Z.min rel len
  end.

(** ** Arrays *)

(** [arr.slice(0, e)] *)
Definition slice0 {A} (arr : list A) (e : number) : list A :=
  take (Z.to_nat (relative_index (Z.of_nat (length arr)) e)) arr.

(** [arr.sort(cmp)]: the sort is stable, an element moves behind another
    only when the comparator is positive, and a NaN comparison counts as
    zero. *)
Fixpoint sort_insert {A} (cmp : A → A → number) (x : A) (sorted : list A) : list A :=
  match sorted with
  | [] => [x]
  | y :: rest =>
      if num_gt (cmp x y) (of_Z 0) then y :: sort_insert cmp x rest
      else x :: sorted
  end.

Definition sort {A} (cmp : A → A → number) (arr : list A) : list A :=
  foldr (sort_insert cmp) [] arr.

(** ** Strings *)

Definition code (c : ascii) : nat := nat_of_ascii c.

Definition in_range (lo hi : nat) (c : ascii) : bool :=
  (lo <=? code c)%nat && (code c <=? hi)%nat.

Definition is_upper (c : ascii) : bool := in_range 65 90 c.
Definition is_lower (c : ascii) : bool := in_range 97 122 c.
Definition is_digit (c : ascii) : bool := in_range 48 57 c.

(** [toLowerCase] of one Latin-1 code unit: A-Z, and U+00C0..U+00DE but
    for the multiplication sign U+00D7 *)
Definition lower_char (c : ascii) : ascii :=
  if is_upper c || (in_range 192 222 c && negb (code c =? 215)%nat)
  then ascii_of_nat (code c + 32) else c.

Fixpoint toLowerCase (s : string) : string :=
  match s with
  | EmptyString => EmptyString
  | String c s' => String (lower_char c) (toLowerCase s')
  end.

(** [s.split(sep)] for a separator of one character *)
Fixpoint split_cons (sep : ascii) (s : string) : string * list string :=
  match s with
  | EmptyString => (EmptyString, [])
  | String c s' =>
      let '(w, ws) := split_cons sep s' in
      if Ascii.eqb c sep then (EmptyString, w :: ws) else (String c w, ws)
  end.

Definition split (sep : ascii) (s : string) : list string :=
  let '(w, ws) := split_cons sep s in w :: ws.

(** [s.split(/[c1c2..]+/)]: every maximal run of separator characters is
    one cut *)
Fixpoint split_runs_cons (is_sep : ascii → bool) (s : string) : string * list string :=
  match s with
  | EmptyString => (EmptyString, [])
  | String c s' =>
      let '(w, ws) := split_runs_cons is_sep s' in
      if is_sep c then
        match s' with
        | String c' _ => if is_sep c' then (w, ws) else (EmptyString, w :: ws)
        | EmptyString => (EmptyString, w :: ws)
        end
      else (String c w, ws)
  end.

Definition split_runs (is_sep : ascii → bool) (s : string) : list string :=
  let '(w, ws) := split_runs_cons is_sep s in w :: ws.

(** White space of [trim] among the Latin-1 code units: TAB, LF, VT, FF,
    CR, SPACE and NBSP *)
Definition is_space (c : ascii) : bool :=
  in_range 9 13 c || (code c =? 32)%nat || (code c =? 160)%nat.

Fixpoint trimStart (s : string) : string :=
  match s with
  | String c s' => if is_space c then trimStart s' else s
  | EmptyString => EmptyString
  end.

Fixpoint trimEnd (s : string) : string :=
  match s with
  | EmptyString => EmptyString
  | String c s' =>
      match trimEnd s' with
      | EmptyString => if is_space c then EmptyString else String c EmptyString
      | t => String c t
      end
  end.

Definition trim (s : string) : string := trimEnd (trimStart s).

(** [s.includes(sub)] *)
Fixpoint includes (s sub : string) : bool :=
  String.prefix sub s ||
  match s with
  | EmptyString => false
  | String _ s' => includes s' sub
  end.


Open Scope string_scope.

(** ** What the handlers share *)

(** A numeric field of a request body: absent (the destructuring default
    applies), an integer written in the JSON text, or a value whose text
    has no integer at its beginning, such as null or "abc". *)
Inductive body_number : Type :=
  | Absent
  | Integral (z : Z)
  | NotNumeric.

Definition or_default (d : Z) (v : body_number) : body_number :=
  match v with
  | Absent => Integral d
  | _ => v
  end.

(** [parseInt(v)]: the integer at the beginning of the text of [v].  A
    number is first the double that [JSON.parse] made of it; below 1e21
    its text holds all its digits, from there on only the first digit
    stands before the point, and the text of an infinity has none. *)
Definition parseInt (v : body_number) : number :=
  match v with
  | Integral z =>
      match binary64 (of_Z z) with
      | Fin q =>
          let n := Qfloor q in
          if (Z.abs n <? 10 ^ 21)%Z then of_Z n
          else of_Z (Z.sgn n * NumberToString.first_digit (Z.abs n))
      | _ => NaN
      end
  | _ => NaN
  end.

(** The authenticated caller, [req.user] *)
Record user : Type := { userId : Z; role : string }.

(** The outcome of one database call *)
Inductive db_outcome : Type :=
  | DbOk
  | DbError (message : string).

(** The object that the upload stores in the column [parsed_data] *)
Record parsed_info : Type := {
  pd_filename : string;
  pd_content : string;
  pd_wordCount : nat;
  pd_extractedAt : string
}.

(** A row of [resumes r JOIN users u], with the columns that the
    handlers read.  [parsed_data] is the object that the text of the
    column denotes, [None] when the column is NULL or empty;
    [embeddings] is the text of the column, [None] when it is NULL. *)
Record resume_row : Type := {
  id : Z;
  user_id : Z;
  original_name : string;
  content : string;
  uploader_name : string;
  created_at : string;
  parsed_data : option parsed_info;
  embeddings : option string
}.

Record job_row : Type := {
  job_id : Z;
  title : string;
  description : string;
  requirements : string
}.

(** An error envelope, [{ error: { code, field?, message } }] *)
Record error_body : Type := {
  err_code : string;
  err_field : option string;
  err_message : string
}.

(** ** The search router *)

Module Search.

Inductive relevance_tier : Type := high | medium | low.

Record search_result : Type := {
  resume_id : Z;
  filename : string;
  uploader : string;
  similarity_score : number;
  snippets : list string;
  relevance : relevance_tier
}.

(** The tables the router touches *)
Record database : Type := {
  resumes : list resume_row;
  search_queries : list (string * list search_result)
}.

Inductive response : Type :=
  | Json (query : string) (results : list search_result) (total_found : nat)
  | Failure (status : nat) (error : error_body).

Definition stopWords : gset string :=
  list_to_set ["the"; "a"; "an"; "and"; "or"; "but"; "in"; "on"; "at"; "to";
               "for"; "of"; "with"; "by"].

Definition keep_token (token : string) : bool :=
  bool_decide (2 < String.length token) && negb (bool_decide (token ∈ stopWords)).

Definition is_sentence_end (c : ascii) : bool :=
  (code c =? 46)%nat || (code c =? 33)%nat || (code c =? 63)%nat.

Definition word_hits (sentenceWords : list string) (word : string) : bool :=
  existsb (λ sw, includes sw word || includes word sw) sentenceWords.

Definition extractSnippets (text query : string) (k : number) : list string :=
  let sentences :=
    filter (λ s, 10 < String.length (trim s)) (split_runs is_sentence_end text) in
  let queryWords :=
    filter (λ w, 2 < String.length w) (split " " (toLowerCase query)) in
  let scoredSentences :=
    map (λ sentence,
           let sentenceWords := split " " (toLowerCase sentence) in
           let matches := length (filter (λ word, word_hits sentenceWords word) queryWords) in
           let score := num_div (of_nat matches) (of_nat (length queryWords)) in
           (trim sentence, score))
        sentences in
  filter (λ s, 0 < String.length s)
    (map fst (slice0 (sort (λ a b, num_sub (snd b) (snd a)) scoredSentences) k)).

Section WithTokenizer.

(** [new natural.WordTokenizer().tokenize], from the npm package
    [natural] *)
Variable tokenize : string → list string.

Definition filtered_tokens (text : string) : list string :=
  filter (λ token, keep_token token) (tokenize (toLowerCase text)).

Definition calculateSimilarity (text1 text2 : string) : number :=
  let filtered1 := filtered_tokens text1 in
  let filtered2 := filtered_tokens text2 in
  let set1 : gset string := list_to_set filtered1 in
  let set2 : gset string := list_to_set filtered2 in
  let intersection : gset string :=
    list_to_set (filter (λ x, x ∈ set2) (elements set1)) in
  let union : gset string := list_to_set (elements set1 ++ elements set2) in
  num_div (of_nat (size intersection)) (of_nat (size union)).

Definition score_resume (query : string) (resume : resume_row) : search_result :=
  let similarity := calculateSimilarity (content resume) query in
  let snippets := extractSnippets (content resume) query (of_Z 2) in
  {| resume_id := id resume;
     filename := original_name resume;
     uploader := uploader_name resume;
     similarity_score := similarity;
     snippets := snippets;
     relevance :=
       if num_gt similarity (Fin (1 # 10)) then high
       else if num_gt similarity (Fin (5 # 100)) then medium
       else low |}.

Definition rank (query : string) (kNum : number) (rows : list resume_row)
  : list search_result :=
  slice0
    (sort (λ a b, num_sub (similarity_score b) (similarity_score a))
       (filter (λ result, num_gt (similarity_score result) (Fin (1 # 100)))
          (map (score_resume query) rows)))
    kNum.

(** The rows of [db.all(resumeQuery, params)]: a caller of role user
    sees their own resumes only. *)
Definition visible_resumes (u : user) (db : database) : list resume_row :=
  if bool_decide (role u = "user")
  then filter (λ r, user_id r = userId u) (resumes db)
  else resumes db.

(** [router.post('/')].  [read] and [write] are the outcomes of the
    [db.all] and of the [db.run] of this request; the result is the
    response, the database afterwards and what was logged. *)
Definition post_ask (u : user) (query : string) (k : body_number)
    (db : database) (read write : db_outcome)
  : response * database * list string :=
  if bool_decide (query = "") then
    (Failure 400 {| err_code := "FIELD_REQUIRED"; err_field := Some "query";
                    err_message := "Query is required" |}, db, [])
  else
    let kNum := Math_min (parseInt (or_default 3 k)) (of_Z 10) in
    match read with
    | DbError e =>
        (Failure 500 {| err_code := "INTERNAL_ERROR"; err_field := None;
                        err_message := "Failed to search resumes" |},
         db, ["Database error: " +:+ e])
    | DbOk =>
        let results := rank query kNum (visible_resumes u db) in
        let '(db', log) :=
          match write with
          | DbOk =>
              ({| resumes := resumes db;
                  search_queries := search_queries db ++ [(query, results)] |}, [])
          | DbError e => (db, ["Failed to cache query: " +:+ e])
          end in
        (Json query results (length results), db', log)
    end.

End WithTokenizer.

Definition is_alnum (c : ascii) : bool := is_upper c || is_lower c || is_digit c.

(** Modelled from the spec: the tokenizer of the npm package [natural]
    is not part of the repository.  "Split on a word-tokenization boundary
    (non-alphanumeric runs are separators)"; empty pieces are not tokens. *)
Definition tokenize (text : string) : list string :=
  filter (λ t, t ≠ "") (split_runs (λ c, negb (is_alnum c)) text).

End Search.

(** ** The jobs router: matching resumes to a job *)

Module Jobs.

Inductive recommendation_tier : Type := strong | moderate | weak.

Record match_result : Type := {
  resume_id : Z;
  filename : string;
  uploader : string;
  match_score : number;
  evidence : list string;
  missing_requirements : list string;
  recommendation : recommendation_tier
}.

(** A row of the table [job_matches] *)
Record job_match_row : Type := {
  jm_job_id : Z;
  jm_resume_id : Z;
  jm_match_score : number;
  jm_evidence : list string;
  jm_missing_requirements : list string
}.

Record database : Type := {
  jobs : list job_row;
  resumes : list resume_row;
  job_matches : list job_match_row
}.

Inductive response : Type :=
  | Json (job_id : Z) (job_title : string) (matches : list match_result)
         (total_matches : nat)
  | Failure (status : nat) (error : error_body).

Definition jobText (job : job_row) : string :=
  toLowerCase (title job +:+ " " +:+ description job +:+ " " +:+ requirements job).

Definition keywords (text : string) : list string :=
  filter (λ w, 3 < String.length w) (split " " text).

Definition jobKeywords (job : job_row) : list string := keywords (jobText job).

Definition resumeKeywords (resume : resume_row) : list string :=
  keywords (toLowerCase (content resume)).

(** [resumeKeywords.some(rk => rk.includes(keyword) || keyword.includes(rk))] *)
Definition keyword_found (resumeKeywords : list string) (keyword : string) : bool :=
  existsb (λ resumeKeyword,
             includes resumeKeyword keyword || includes keyword resumeKeyword)
          resumeKeywords.

Definition matchingKeywords (job : job_row) (resume : resume_row) : list string :=
  filter (λ keyword, keyword_found (resumeKeywords resume) keyword) (jobKeywords job).

(** [matchingKeywords.length / jobKeywords.length], a double *)
Definition matchScore (job : job_row) (resume : resume_row) : number :=
  binary64 (num_div (of_nat (length (matchingKeywords job resume)))
                    (of_nat (length (jobKeywords job)))).

Definition match_resume (job : job_row) (resume : resume_row) : match_result :=
  let score := matchScore job resume in
  {| resume_id := id resume;
     filename := original_name resume;
     uploader := uploader_name resume;
     match_score :=
       binary64 (num_div (Math_round (binary64 (num_mul score (of_Z 100))))
                         (of_Z 100));
     evidence := slice0 (matchingKeywords job resume) (of_Z 5);
     missing_requirements :=
       slice0 (filter (λ keyword, negb (keyword_found (resumeKeywords resume) keyword))
                 (jobKeywords job))
              (of_Z 5);
     recommendation :=
       if num_gt score (literal (3 # 10)) then strong
       else if num_gt score (literal (1 # 10)) then moderate
       else weak |}.

Definition rank (job : job_row) (topN : number) (rows : list resume_row)
  : list match_result :=
  slice0
    (sort (λ a b, num_sub (match_score b) (match_score a))
       (filter (λ m, num_gt (match_score m) (of_Z 0))
          (map (match_resume job) rows)))
    topN.

(** The [INSERT OR REPLACE INTO job_matches] of each match, one promise
    per match; [writes i] is the outcome of the i-th.  The rows of the
    writes that succeed are stored, and [Promise.all] rejects with the
    error of a failed one. *)
Fixpoint store_matches (job : Z) (matches : list match_result) (i : nat)
    (writes : nat → db_outcome) : list job_match_row * option string :=
  match matches with
  | [] => ([], None)
  | m :: rest =>
      let '(rows, err) := store_matches job rest (S i) writes in
      match writes i with
      | DbOk =>
          ({| jm_job_id := job; jm_resume_id := resume_id m;
              jm_match_score := match_score m; jm_evidence := evidence m;
              jm_missing_requirements := missing_requirements m |} :: rows, err)
      | DbError e => (rows, Some e)
      end
  end.

(** [router.post('/:id/match')].  [read_job] and [read_resumes] are the
    outcomes of the [db.get] and the [db.all]. *)
Definition post_match (u : user) (job : Z) (top_n : body_number)
    (db : database) (read_job read_resumes : db_outcome)
    (writes : nat → db_outcome)
  : response * database * list string :=
  if negb (bool_decide (role u = "recruiter") || bool_decide (role u = "admin")) then
    (Failure 403 {| err_code := "FORBIDDEN"; err_field := None;
                    err_message := "Only recruiters and admins can match resumes to jobs" |},
     db, [])
  else
    let topN := Math_min (parseInt (or_default 5 top_n)) (of_Z 20) in
    match read_job with
    | DbError e =>
        (Failure 500 {| err_code := "INTERNAL_ERROR"; err_field := None;
                        err_message := "Failed to fetch job" |},
         db, ["Database error: " +:+ e])
    | DbOk =>
        match List.find (λ j, (job_id j =? job)%Z) (jobs db) with
        | None =>
            (Failure 404 {| err_code := "NOT_FOUND"; err_field := None;
                            err_message := "Job not found" |}, db, [])
        | Some j =>
            match read_resumes with
            | DbError e =>
                (Failure 500 {| err_code := "INTERNAL_ERROR"; err_field := None;
                                err_message := "Failed to fetch resumes" |},
                 db, ["Database error: " +:+ e])
            | DbOk =>
                let matches := rank j topN (resumes db) in
                let '(rows, err) := store_matches job matches 0 writes in
                let db' := {| jobs := jobs db; resumes := resumes db;
                              job_matches := job_matches db ++ rows |} in
                let log := match err with
                           | Some e => ["Failed to store matches: " +:+ e]
                           | None => []
                           end in
                (Json job (title j) matches (length matches), db', log)
            end
        end
    end.

End Jobs.

(** ** Regular expressions

    The fragment the source uses: a sequence of literals, of greedy
    quantified character classes and of word-boundary assertions, matched
    by backtracking from the longest repetition down. *)

Module RegExp.

Inductive item : Type :=
  | WordBoundary
  | Char (c : ascii)
  | Class (cls : ascii → bool) (lo : nat) (hi : option nat).

Definition regexp : Type := list item.

Definition is_word (c : ascii) : bool :=
  is_upper c || is_lower c || is_digit c || (code c =? 95)%nat.

Definition word_at (c : option ascii) : bool :=
  match c with
  | Some c => is_word c
  | None => false
  end.

(** [\b] holds between [prev] and [next] (None at either end of the
    text) *)
Definition at_boundary (prev next : option ascii) : bool :=
  xorb (word_at prev) (word_at next).

(** The character before the position reached after reading [read] *)
Definition last_of (prev : option ascii) (read : list ascii) : option ascii :=
  match last read with
  | Some c => Some c
  | None => prev
  end.

Fixpoint run (cls : ascii → bool) (s : list ascii) : nat :=
  match s with
  | c :: s' => if cls c then S (run cls s') else 0
  | [] => 0
  end.

Definition capped (hi : option nat) (n : nat) : nat :=
  match hi with
  | Some h => n `min` h
  | None => n
  end.

(** Try the lengths [lo + count], ..., [lo], the longest first *)
Fixpoint try_down (f : nat → option nat) (lo count : nat) : option nat :=
  match f (lo + count) with
  | Some r => Some r
  | None =>
      match count with
      | 0 => None
      | S count' => try_down f lo count'
      end
  end.

(** The length of the match of [re] at the head of [s], [prev] being the
    character before it *)
Fixpoint match_items (re : regexp) (prev : option ascii) (s : list ascii)
  : option nat :=
  match re with
  | [] => Some 0
  | WordBoundary :: re' =>
      if at_boundary prev (head s) then match_items re' prev s else None
  | Char c :: re' =>
      match s with
      | d :: s' =>
          if Ascii.eqb c d then S <$> match_items re' (Some d) s' else None
      | [] => None
      end
  | Class cls lo hi :: re' =>
      let longest := capped hi (run cls s) in
      if (longest <? lo)%nat then None
      else
        try_down
          (λ n, (λ r, n + r) <$> match_items re' (last_of prev (take n s)) (drop n s))
          lo (longest - lo)
  end.

(** [re.test(s)], scanning from the character after [prev] *)
Fixpoint test_from (re : regexp) (prev : option ascii) (s : list ascii) : bool :=
  match match_items re prev s with
  | Some _ => true
  | None =>
      match s with
      | c :: s' => test_from re (Some c) s'
      | [] => false
      end
  end.

Definition test (re : regexp) (s : string) : bool :=
  test_from re None (list_ascii_of_string s).

(** [s.replace(re, by)] for a global [re] and a replacement without [$]:
    the matches are taken from left to right, each search resuming where
    the last match ended (one character further after an empty match). *)
Fixpoint replace_from (fuel : nat) (re : regexp) (by_ : list ascii)
    (prev : option ascii) (s : list ascii) : list ascii :=
  match fuel, s with
  | _, [] =>
      match match_items re prev [] with
      | Some _ => by_
      | None => []
      end
  | 0, _ => s
  | S fuel', c :: s' =>
      match match_items re prev s with
      | Some (S n) =>
          by_ ++ replace_from fuel' re by_ (last_of (Some c) (take n s')) (drop n s')
      | Some 0 => by_ ++ c :: replace_from fuel' re by_ (Some c) s'
      | None => c :: replace_from fuel' re by_ (Some c) s'
      end
  end.

Definition replace (re : regexp) (by_ : string) (s : string) : string :=
  let l := list_ascii_of_string s in
  string_of_list_ascii
    (replace_from (length l) re (list_ascii_of_string by_) None l).

Definition one_of (chars : string) (c : ascii) : bool :=
  existsb (Ascii.eqb c) (list_ascii_of_string chars).

End RegExp.

(** ** The resumes router: reading one resume *)

Module Resumes.

Import RegExp.

(** The body of the response.  [rb_parsedData] is
    [JSON.parse(row.parsed_data || '{}')], [None] standing for the empty
    object, and [rb_embeddings] is the value that the text denotes,
    [None] standing for null. *)
Record resume_body : Type := {
  rb_id : Z;
  rb_filename : string;
  rb_content : string;
  rb_uploader : string;
  rb_uploadedAt : string;
  rb_parsedData : option parsed_info;
  rb_embeddings : option string
}.

Record database : Type := { resumes : list resume_row }.

Inductive response : Type :=
  | Json (body : resume_body)
  | Failure (status : nat) (error : error_body).

(** [/\b[A-Za-z0-9._%+-]+@[A-Za-z0-9.-]+\.[A-Z|a-z]{2,}\b/g] *)
Definition email_local (c : ascii) : bool :=
  is_upper c || is_lower c || is_digit c || one_of "._%+-" c.
Definition email_domain (c : ascii) : bool :=
  is_upper c || is_lower c || is_digit c || one_of ".-" c.
Definition email_tld (c : ascii) : bool :=
  is_upper c || one_of "|" c || is_lower c.

Definition email_pattern : regexp :=
  [ WordBoundary; Class email_local 1 None; Char "@"; Class email_domain 1 None;
    Char "."; Class email_tld 2 None; WordBoundary ].

(** [/\b\d{3}[-.]?\d{3}[-.]?\d{4}\b/g] *)
Definition phone_pattern : regexp :=
  [ WordBoundary; Class is_digit 3 (Some 3); Class (one_of "-.") 0 (Some 1);
    Class is_digit 3 (Some 3); Class (one_of "-.") 0 (Some 1);
    Class is_digit 4 (Some 4); WordBoundary ].

Definition redact (content : string) : string :=
  let content := replace email_pattern "[EMAIL REDACTED]" content in
  replace phone_pattern "[PHONE REDACTED]" content.

(** The row of [db.get(query, params)]: the resume of that id, which for
    a caller of role user must be their own *)
Definition find_resume (u : user) (resume : Z) (db : database) : option resume_row :=
  List.find
    (λ r, (id r =? resume)%Z &&
          (negb (bool_decide (role u = "user")) || (user_id r =? userId u)%Z))
    (resumes db).

(** [router.get('/:id')] *)
Definition get_resume (u : user) (resume : Z) (db : database) (read : db_outcome)
  : response * database * list string :=
  match read with
  | DbError e =>
      (Failure 500 {| err_code := "INTERNAL_ERROR"; err_field := None;
                      err_message := "Failed to fetch resume" |},
       db, ["Database error: " +:+ e])
  | DbOk =>
      match find_resume u resume db with
      | None =>
          (Failure 404 {| err_code := "NOT_FOUND"; err_field := None;
                          err_message := "Resume not found" |}, db, [])
      | Some row =>
          let content :=
            if bool_decide (role u ≠ "recruiter") && bool_decide (role u ≠ "admin")
            then redact (content row)
            else content row in
          (Json {| rb_id := id row; rb_filename := original_name row;
                   rb_content := content; rb_uploader := uploader_name row;
                   rb_uploadedAt := created_at row;
                   rb_parsedData := parsed_data row;
                   rb_embeddings := embeddings row |},
           db, [])
      end
  end.

End Resumes.

(** ** Sample data *)

Module Sample.

Definition recruiter : user := {| userId := 1; role := "recruiter" |}.
Definition candidate : user := {| userId := 2; role := "user" |}.

(** What the upload of a file [name] of text [text] stores in
    [parsed_data] *)
Definition parsed_of (name text : string) : parsed_info :=
  {| pd_filename := name; pd_content := String.substring 0 1000 text;
     pd_wordCount := length (split " " text);
     pd_extractedAt := "2024-05-01T09:00:00.000Z" |}.

Definition resume (i : Z) (text : string) : resume_row :=
  {| id := i; user_id := 2; original_name := "cv.txt"; content := text;
     uploader_name := "Jane"; created_at := "2024-05-01 09:00:00";
     parsed_data := Some (parsed_of "cv.txt" text); embeddings := None |}.

(** [n] resumes with the same text, of ids [n], ..., 1 *)
Fixpoint resumes_of (n : nat) (text : string) : list resume_row :=
  match n with
  | 0 => []
  | S n' => resume (Z.of_nat n) text :: resumes_of n' text
  end.

Definition search_db (n : nat) : Search.database :=
  {| Search.resumes := resumes_of n "Experienced Python developer";
     Search.search_queries := [] |}.

(** A job of three keywords *)
Definition job3 : job_row :=
  {| job_id := 1; title := "Python"; description := "Kotlin";
     requirements := "Golang" |}.

(** A job of 33 keywords, ten of them "python" *)
Definition job33 : job_row :=
  {| job_id := 1;
     title := "python";
     description :=
       "python python python python python python python python python "
       +:+ "cloud cloud cloud cloud cloud cloud cloud cloud cloud cloud cloud";
     requirements :=
       "cloud cloud cloud cloud cloud cloud cloud cloud cloud cloud cloud cloud" |}.

(** [n] times the word [w], each followed by a space *)
Fixpoint words (n : nat) (w : string) : string :=
  match n with
  | 0 => ""
  | S n' => w +:+ " " +:+ words n' w
  end.

(** A job of [p + c] keywords, [p] of them "python" *)
Definition job_of (p c : nat) : job_row :=
  {| job_id := 1; title := "Job"; description := words p "python";
     requirements := words c "cloud" |}.

Definition jobs_db (job : job_row) (n : nat) : Jobs.database :=
  {| Jobs.jobs := [job];
     Jobs.resumes := resumes_of n "Experienced Python developer";
     Jobs.job_matches := [] |}.

Definition resumes_db : Resumes.database :=
  {| Resumes.resumes :=
       [resume 1 "Contact me at jane@example.com or 555-123-4567"] |}.

(** A resume whose address and number run into a digit *)
Definition glued_db : Resumes.database :=
  {| Resumes.resumes :=
       [resume 1 "Reach jane@example.com1 or 15551234567, else bob@example.org"] |}.

End Sample.

(** ** The resumes router: uploading *)

Module Upload.

Section WithNode.

(** [path.extname], from Node *)
Variable extname : string → string.

Definition allowedTypes : list string := [".pdf"; ".docx"; ".doc"; ".txt"].

(** The [fileFilter] of multer: does it accept the file? *)
Definition fileFilter (originalname : string) : bool :=
  bool_decide (toLowerCase (extname originalname) ∈ allowedTypes).

(** The branches of the [switch] of [parseFileContent] *)
Inductive parser : Type := PdfParse | Mammoth | ReadUtf8.

(** The branch [parseFileContent] takes, [None] being the default branch
    that throws 'Unsupported file type' *)
Definition parser_of (originalName : string) : option parser :=
  let ext := toLowerCase (extname originalName) in
  if String.eqb ext ".pdf" then Some PdfParse
  else if String.eqb ext ".docx" then Some Mammoth
  else if String.eqb ext ".doc" then Some ReadUtf8
  else if String.eqb ext ".txt" then Some ReadUtf8
  else None.

End WithNode.

(** [wordCount: content.split(' ').length] *)
Definition wordCount (content : string) : nat := length (split " " content).

(** A value of the object [termFreq] while the tokens are counted: a
    number of occurrences, or a string that is no number *)
Inductive tf_value : Type :=
  | Count (n : nat)
  | Text.

(** The properties an object literal inherits from [Object.prototype]
    that are functions.  Reading one of them from [{}] gives a function,
    which is truthy, and adding 1 to it gives a string. *)
Definition prototype_functions : list string :=
  ["constructor"; "hasOwnProperty"; "isPrototypeOf"; "propertyIsEnumerable";
   "toLocaleString"; "toString"; "valueOf"; "__defineGetter__";
   "__defineSetter__"; "__lookupGetter__"; "__lookupSetter__"].

(** [termFreq[token] = (termFreq[token] || 0) + 1].  Assigning a string
    to [__proto__] is ignored by its setter. *)
Definition count_token (termFreq : gmap string tf_value) (token : string)
  : gmap string tf_value :=
  if String.eqb token "__proto__" then termFreq
  else
    match termFreq !! token with
    | Some (Count n) => <[token := Count (S n)]> termFreq
    | Some Text => <[token := Text]> termFreq
    | None =>
        if bool_decide (token ∈ prototype_functions)
        then <[token := Text]> termFreq
        else <[token := Count 1]> termFreq
    end.

(** [termFreq[term] / totalTokens] *)
Definition normalize (totalTokens : nat) (v : tf_value) : number :=
  match v with
  | Count n => num_div (of_nat n) (of_nat totalTokens)
  | Text => NaN
  end.

Section WithTokenizer.

Variable tokenize : string → list string.

(** [generateEmbeddings], before [JSON.stringify] *)
Definition generateEmbeddings (text : string) : gmap string number :=
  let filteredTokens := Search.filtered_tokens tokenize text in
  let termFreq := foldl count_token ∅ filteredTokens in
  let totalTokens := length filteredTokens in
  normalize totalTokens <$> termFreq.

End WithTokenizer.

End Upload.

(** ** SQLite *)

Module Sqlite.

(** [LIMIT limit OFFSET offset] on the rows of a query: a negative limit
    is no limit and a negative offset is no offset *)
Definition limit_offset {A : Type} (limit offset : Z) (rows : list A) : list A :=
  let rest := drop (Z.to_nat offset) rows in
  if (limit <? 0)%Z then rest else take (Z.to_nat limit) rest.

(** [LIKE] ignores the case of the letters A-Z only *)
Definition fold_case (c : ascii) : ascii :=
  if is_upper c then ascii_of_nat (code c + 32) else c.

(** [text LIKE pattern] without ESCAPE: [%] stands for any characters,
    [_] for one character *)
Fixpoint like (pattern text : string) : bool :=
  match pattern with
  | EmptyString =>
      match text with
      | EmptyString => true
      | String _ _ => false
      end
  | String p pattern' =>
      if Ascii.eqb p "%" then
        (fix any (text : string) : bool :=
           like pattern' text ||
           match text with
           | EmptyString => false
           | String _ text' => any text'
           end) text
      else
        match text with
        | EmptyString => false
        | String c text' =>
            (Ascii.eqb p "_" || Ascii.eqb (fold_case p) (fold_case c))
            && like pattern' text'
        end
  end.

End Sqlite.

(** ** The resumes router: listing and deleting *)

Module ResumeStore.

(** A row of the table [resumes] *)
Record resume_record : Type := {
  r_id : Z;
  r_user_id : Z;
  r_original_name : string;
  r_content : string
}.

(** The table [resumes], in the order [ORDER BY r.created_at DESC] lists
    it, and the names of the table [users] by id *)
Record database : Type := {
  resumes : list resume_record;
  users : gmap Z string
}.

(** An item of the list; [uploadedAt] and [parsedData] are left out *)
Record item : Type := {
  item_id : Z;
  item_filename : string;
  item_uploader : string
}.

Inductive list_response : Type :=
  | Listed (items : list item) (next_offset : option Z) (total : Z)
  | ListFailure (status : nat) (error : error_body).

(** The WHERE clause that the handler puts together.  In
    [content LIKE ? OR original_name LIKE ? AND user_id = ?] the AND binds
    tighter than the OR. *)
Definition where_clause (u : user) (q : string) (r : resume_record) : bool :=
  let pattern := "%" +:+ q +:+ "%" in
  let own := (r_user_id r =? userId u)%Z in
  match q, String.eqb (role u) "user" with
  | EmptyString, false => true
  | EmptyString, true => own
  | String _ _, false =>
      Sqlite.like pattern (r_content r) || Sqlite.like pattern (r_original_name r)
  | String _ _, true =>
      Sqlite.like pattern (r_content r)
      || (Sqlite.like pattern (r_original_name r) && own)
  end.

(** [FROM resumes r JOIN users u ON r.user_id = u.id], for one resume *)
Definition joined (db : database) (r : resume_record) : list item :=
  match users db !! r_user_id r with
  | Some name =>
      [{| item_id := r_id r; item_filename := r_original_name r;
          item_uploader := name |}]
  | None => []
  end.

(** [router.get('/')]; [limit] and [offset] are absent, or the integers
    that [parseInt] reads from the query *)
Definition get_resumes (u : user) (limit offset : option Z) (q : string)
    (db : database) (read count : db_outcome) : list_response * list string :=
  let limitNum := default 10%Z limit in
  let offsetNum := default 0%Z offset in
  match read with
  | DbError e =>
      (ListFailure 500 {| err_code := "INTERNAL_ERROR"; err_field := None;
                          err_message := "Failed to fetch resumes" |},
       ["Database error: " +:+ e])
  | DbOk =>
      let rows :=
        Sqlite.limit_offset limitNum offsetNum
          (flat_map (joined db) (filter (λ r, where_clause u q r = true) (resumes db))) in
      match count with
      | DbError e =>
          (ListFailure 500 {| err_code := "INTERNAL_ERROR"; err_field := None;
                              err_message := "Failed to get resume count" |},
           ["Count error: " +:+ e])
      | DbOk =>
          let total :=
            Z.of_nat (length (filter (λ r, where_clause u q r = true) (resumes db))) in
          let nextOffset :=
            if (offsetNum + limitNum <? total)%Z
            then Some (offsetNum + limitNum)%Z else None in
          (Listed rows nextOffset total, [])
      end
  end.

Inductive delete_response : Type :=
  | Deleted (message : string) (id : Z)
  | DeleteFailure (status : nat) (error : error_body).

(** The row of [db.get(query, params)] in [router.delete('/:id')] *)
Definition find_resume (u : user) (resume : Z) (db : database) : option resume_record :=
  List.find
    (λ r, (r_id r =? resume)%Z &&
          (negb (String.eqb (role u) "user") || (r_user_id r =? userId u)%Z))
    (resumes db).

(** [router.delete('/:id')]; [unlink] is the outcome of removing the
    file *)
Definition delete_resume (u : user) (resume : Z) (db : database)
    (read unlink write : db_outcome)
  : delete_response * database * list string :=
  match read with
  | DbError e =>
      (DeleteFailure 500 {| err_code := "INTERNAL_ERROR"; err_field := None;
                            err_message := "Failed to fetch resume" |},
       db, ["Database error: " +:+ e])
  | DbOk =>
      match find_resume u resume db with
      | None =>
          (DeleteFailure 404 {| err_code := "NOT_FOUND"; err_field := None;
                                err_message := "Resume not found" |}, db, [])
      | Some row =>
          let file_log :=
            match unlink with
            | DbOk => []
            | DbError e => ["File deletion error: " +:+ e]
            end in
          match write with
          | DbError e =>
              (DeleteFailure 500 {| err_code := "INTERNAL_ERROR"; err_field := None;
                                    err_message := "Failed to delete resume" |},
               db, (file_log ++ ["Database error: " +:+ e])%list)
          | DbOk =>
              (Deleted "Resume deleted successfully" resume,
               {| resumes := filter (λ r, r_id r ≠ resume) (resumes db);
                  users := users db |},
               file_log)
          end
      end
  end.

End ResumeStore.

(** ** The idempotency middleware *)

Module Idempotency.

Section WithHandler.

(** What the handlers work on, and the values they send with [res.json] *)
Context {app_state json : Type}.

(** The [data] of a stored response: the value handed to [res.json], or
    the text of that value, which is what [res.send] is handed *)
Inductive payload : Type :=
  | Value (v : json)
  | BodyText (v : json).

Record cached : Type := { status : nat; data : payload }.

(** The table [idempotency_keys]; [key] is its primary key *)
Definition table : Type := gmap string cached.

(** The rest of the route: the status and the value it sends, its effect
    and what it logs *)
Definition handler : Type := app_state → nat * json * app_state * list string.

(** The error of an insert under a key that is already there *)
Definition unique_violation : string :=
  "SQLITE_CONSTRAINT: UNIQUE constraint failed: idempotency_keys.key".

(** One [INSERT INTO idempotency_keys] *)
Definition store (key : string) (c : cached) (outcome : db_outcome) (keys : table)
  : table * list string :=
  match outcome with
  | DbError e => (keys, ["Failed to store idempotency key: " +:+ e])
  | DbOk =>
      match keys !! key with
      | Some _ =>
          (keys, ["Failed to store idempotency key: " +:+ unique_violation])
      | None => (<[key := c]> keys, [])
      end
  end.

(** The overridden [res.json].  It stores the value and calls the
    original [res.json], which serializes the value and calls [this.send]
    with the text: the overridden [res.send] runs as well and stores the
    text, under the same key.  The two inserts run in the order they are
    issued. *)
Definition respond (key : string) (st : nat) (v : json)
    (store_json store_send : db_outcome) (keys : table) : table * list string :=
  let '(keys, log1) := store key {| status := st; data := Value v |} store_json keys in
  let '(keys, log2) := store key {| status := st; data := BodyText v |} store_send keys in
  (keys, (log1 ++ log2)%list).

(** [checkIdempotency], followed by the rest of the route *)
Definition checkIdempotency (idempotencyKey : option string)
    (lookup store_json store_send : db_outcome) (next : handler)
    (keys : table) (s : app_state)
  : (nat * payload) * table * app_state * list string :=
  let unkeyed (log0 : list string) :=
    let '(st, v, s', log) := next s in
    ((st, Value v), keys, s', (log0 ++ log)%list) in
  match idempotencyKey with
  | None => unkeyed []
  | Some EmptyString => unkeyed []
  | Some key =>
      match lookup with
      | DbError e => unkeyed ["Idempotency check error: " +:+ e]
      | DbOk =>
          match keys !! key with
          | Some c =>
              ((if (status c =? 0)%nat then 200 else status c, data c), keys, s, [])
          | None =>
              let '(st, v, s', log) := next s in
              let '(keys', log') := respond key st v store_json store_send keys in
              ((st, Value v), keys', s', (log ++ log')%list)
          end
      end
  end.

End WithHandler.

Arguments payload : clear implicits.
Arguments cached : clear implicits.
Arguments table : clear implicits.

End Idempotency.

(** ** Accounts: the auth router and the admin router *)

Module Accounts.

(** A row of the table [users] *)
Record account : Type := {
  a_id : Z;
  a_email : string;
  a_password : string;
  a_name : string;
  a_role : string
}.

(** The table [users] *)
Definition database : Type := list account.

(** The payload of a token, which [authenticateToken] makes [req.user] *)
Record claims : Type := {
  c_userId : Z;
  c_email : string;
  c_role : string
}.

Definition caller (c : claims) : user := {| userId := c_userId c; role := c_role c |}.

(** The [user] of a response *)
Record profile : Type := {
  p_id : Z;
  p_email : string;
  p_name : string;
  p_role : string
}.

Inductive response : Type :=
  | Session (status : nat) (who : profile) (token : string)
  | Created (status : nat) (who : profile) (message : string)
  | Done (id : option Z) (message : string)
  | Failure (status : nat) (error : error_body).

Definition roles : list string := ["user"; "recruiter"; "admin"].

(** [!v] for a field of the body that is absent or a string *)
Definition missing (v : option string) : bool :=
  match v with
  | None => true
  | Some EmptyString => true
  | Some (String _ _) => false
  end.

Definition failure (status : nat) (code : string) (field : option string)
    (message : string) : response :=
  Failure status {| err_code := code; err_field := field; err_message := message |}.

(** [SELECT ... FROM users WHERE email = ?] *)
Definition by_email (email : string) (db : database) : option account :=
  List.find (λ a, String.eqb (a_email a) email) db.

(** [SELECT * FROM users WHERE id = ?] *)
Definition by_id (id : Z) (db : database) : option account :=
  List.find (λ a, (a_id a =? id)%Z) db.

Section WithCrypto.

(** [bcrypt.compareSync], and [jwt.verify] with the secret of the server
    at the time of the request *)
Variable compareSync : string → string → bool.
Variable verify : string → option claims.

(** [router.post('/register')].  [hashedPassword] is what
    [bcrypt.hashSync(password, 10)] returns, [lastID] the id the insert
    assigns, and [token] what [jwt.sign] returns for the claims of the new
    account. *)
Definition register (email password name role : option string) (db : database)
    (read write : db_outcome) (hashedPassword : string) (lastID : Z)
    (token : claims → string) : response * database :=
  let role := default "user" role in
  if missing email || missing password || missing name then
    (failure 400 "FIELD_REQUIRED"
       (Some (if missing email then "email"
              else if missing password then "password" else "name"))
       ((if missing email then "Email"
         else if missing password then "Password" else "Name") +:+ " is required"),
     db)
  else if negb (bool_decide (role ∈ roles)) then
    (failure 400 "INVALID_ROLE" None "Role must be user, recruiter, or admin", db)
  else
    let email := default "" email in
    let password := default "" password in
    let name := default "" name in
    match read with
    | DbError _ => (failure 500 "INTERNAL_ERROR" None "Database error", db)
    | DbOk =>
        match by_email email db with
        | Some _ =>
            (failure 409 "USER_EXISTS" None "User with this email already exists", db)
        | None =>
            match write with
            | DbError _ => (failure 500 "INTERNAL_ERROR" None "Failed to create user", db)
            | DbOk =>
                (Session 201
                   {| p_id := lastID; p_email := email; p_name := name; p_role := role |}
                   (token {| c_userId := lastID; c_email := email; c_role := role |}),
                 (db ++ [{| a_id := lastID; a_email := email;
                            a_password := hashedPassword;
                            a_name := name; a_role := role |}])%list)
            end
        end
    end.

(** [router.post('/login')] *)
Definition login (email password : option string) (db : database) (read : db_outcome)
    (token : claims → string) : response :=
  if missing email || missing password then
    failure 400 "FIELD_REQUIRED"
      (Some (if missing email then "email" else "password"))
      ((if missing email then "Email" else "Password") +:+ " is required")
  else
    let email := default "" email in
    let password := default "" password in
    match read with
    | DbError _ => failure 500 "INTERNAL_ERROR" None "Database error"
    | DbOk =>
        match by_email email db with
        | None => failure 401 "INVALID_CREDENTIALS" None "Invalid email or password"
        | Some a =>
            if negb (compareSync password (a_password a)) then
              failure 401 "INVALID_CREDENTIALS" None "Invalid email or password"
            else
              Session 200
                {| p_id := a_id a; p_email := a_email a; p_name := a_name a;
                   p_role := a_role a |}
                (token {| c_userId := a_id a; c_email := a_email a; c_role := a_role a |})
        end
    end.

(** [authenticateToken]: the claims handed to the route, or the response
    that ends the request *)
Definition authenticateToken (authorization : option string) : response + claims :=
  let token :=
    match authorization with
    | None => None
    | Some EmptyString => None
    | Some authHeader => split " " authHeader !! 1
    end in
  match token with
  | None => inl (failure 401 "UNAUTHORIZED" None "Access token required")
  | Some EmptyString => inl (failure 401 "UNAUTHORIZED" None "Access token required")
  | Some token =>
      match verify token with
      | None => inl (failure 403 "INVALID_TOKEN" None "Invalid or expired token")
      | Some c => inr c
      end
  end.

(** [requireAdmin]: the response that ends the request, if any *)
Definition requireAdmin (u : user) : option response :=
  if negb (String.eqb (role u) "admin")
  then Some (failure 403 "FORBIDDEN" None "Admin access required")
  else None.

(** [router.post('/users')] of the admin router, behind [requireAdmin] *)
Definition create_user (u : user) (name email password role : option string)
    (db : database) (read write : db_outcome) (hashedPassword : string) (lastID : Z)
  : response * database * list string :=
  match requireAdmin u with
  | Some forbidden => (forbidden, db, [])
  | None =>
      let role := default "user" role in
      if missing name || missing email || missing password then
        (failure 400 "FIELD_REQUIRED"
           (Some (if missing name then "name"
                  else if missing email then "email" else "password"))
           ((if missing name then "Name"
             else if missing email then "Email" else "Password") +:+ " is required"),
         db, [])
      else if negb (bool_decide (role ∈ roles)) then
        (failure 400 "INVALID_ROLE" None "Role must be user, recruiter, or admin", db, [])
      else
        let email := default "" email in
        let password := default "" password in
        let name := default "" name in
        match read with
        | DbError e =>
            (failure 500 "INTERNAL_ERROR" None "Database error", db,
             ["Database error: " +:+ e])
        | DbOk =>
            match by_email email db with
            | Some _ => (failure 409 "EMAIL_EXISTS" None "Email already exists", db, [])
            | None =>
                match write with
                | DbError e =>
                    (failure 500 "INTERNAL_ERROR" None "Failed to create user", db,
                     ["Database error: " +:+ e])
                | DbOk =>
                    (Created 201
                       {| p_id := lastID; p_email := email; p_name := name;
                          p_role := role |}
                       "User created successfully",
                     (db ++ [{| a_id := lastID; a_email := email;
                                a_password := hashedPassword;
                                a_name := name; a_role := role |}])%list,
                     [])
                end
            end
        end
  end.

(** [UPDATE users SET ... WHERE id = ?] with the updates of
    [updateUser] *)
Definition apply_updates (id : Z) (name email role : option string) (a : account)
  : account :=
  if (a_id a =? id)%Z then
    {| a_id := a_id a;
       a_email := if missing email then a_email a else default "" email;
       a_password := a_password a;
       a_name := if missing name then a_name a else default "" name;
       a_role := if negb (missing role) && bool_decide (default "" role ∈ roles)
                 then default "" role else a_role a |}
  else a.

(** [router.patch('/users/:id')], behind [requireAdmin] *)
Definition update_user (u : user) (id : Z) (name email role : option string)
    (db : database) (read read_email write : db_outcome)
  : response * database * list string :=
  match requireAdmin u with
  | Some forbidden => (forbidden, db, [])
  | None =>
      match read with
      | DbError e =>
          (failure 500 "INTERNAL_ERROR" None "Database error", db,
           ["Database error: " +:+ e])
      | DbOk =>
          match by_id id db with
          | None => (failure 404 "NOT_FOUND" None "User not found", db, [])
          | Some found =>
              let updateUser :=
                if missing name && missing email
                   && negb (negb (missing role) && bool_decide (default "" role ∈ roles))
                then (failure 400 "NO_UPDATES" None "No valid updates provided", db, [])
                else
                  match write with
                  | DbError e =>
                      (failure 500 "INTERNAL_ERROR" None "Failed to update user", db,
                       ["Database error: " +:+ e])
                  | DbOk =>
                      (Done (Some id) "User updated successfully",
                       map (apply_updates id name email role) db, [])
                  end in
              if negb (missing email) && negb (String.eqb (default "" email) (a_email found))
              then
                match read_email with
                | DbError e =>
                    (failure 500 "INTERNAL_ERROR" None "Database error", db,
                     ["Database error: " +:+ e])
                | DbOk =>
                    match List.find
                            (λ a, String.eqb (a_email a) (default "" email)
                                  && negb (a_id a =? id)%Z) db with
                    | Some _ =>
                        (failure 409 "EMAIL_EXISTS" None "Email already exists", db, [])
                    | None => updateUser
                    end
                end
              else updateUser
          end
      end
  end.

(** [router.delete('/users/:id')], behind [requireAdmin], for an [id]
    that is an integer numeral *)
Definition delete_user (u : user) (id : Z) (db : database) (read write : db_outcome)
  : response * database * list string :=
  match requireAdmin u with
  | Some forbidden => (forbidden, db, [])
  | None =>
      if (id =? userId u)%Z then
        (failure 400 "CANNOT_DELETE_SELF" None "Cannot delete your own account", db, [])
      else
        match read with
        | DbError e =>
            (failure 500 "INTERNAL_ERROR" None "Database error", db,
             ["Database error: " +:+ e])
        | DbOk =>
            match by_id id db with
            | None => (failure 404 "NOT_FOUND" None "User not found", db, [])
            | Some _ =>
                match write with
                | DbError e =>
                    (failure 500 "INTERNAL_ERROR" None "Failed to delete user", db,
                     ["Database error: " +:+ e])
                | DbOk =>
                    (Done None "User deleted successfully",
                     filter (λ a, a_id a ≠ id) db, [])
                end
            end
        end
  end.

End WithCrypto.

End Accounts.

(** ** The applications router *)

Module Applications.

(** A row of the table [applications] *)
Record application : Type := {
  app_id : Z;
  app_job_id : Z;
  app_user_id : Z;
  app_resume_id : Z;
  app_cover_letter : string;
  app_status : string;
  app_notes : option string
}.

(** A row of the table [jobs]: its id and who created it *)
Record job_record : Type := { j_id : Z; j_created_by : Z }.

(** A row of the table [resumes]: its id and who uploaded it *)
Record resume_record : Type := { r_id : Z; r_user_id : Z }.

Record database : Type := {
  resumes : list resume_record;
  jobs : list job_record;
  applications : list application
}.

Inductive response : Type :=
  | Applied (id job_id resume_id : Z) (status : string)
  | Updated (id : Z) (status notes : string)
  | Failure (status : nat) (error : error_body).

Definition failure (status : nat) (code : string) (field : option string)
    (message : string) : response :=
  Failure status {| err_code := code; err_field := field; err_message := message |}.

Definition statuses : list string := ["pending"; "reviewing"; "accepted"; "rejected"].

(** [!v] for a field of the body that is absent or an integer *)
Definition missing (v : option Z) : bool :=
  match v with
  | None => true
  | Some z => (z =? 0)%Z
  end.

(** [router.post('/')]; [lastID] is the id the insert assigns *)
Definition post_apply (u : user) (job_id resume_id : option Z)
    (cover_letter : option string) (db : database)
    (read_resume read_job read_existing write : db_outcome) (lastID : Z)
  : response * database :=
  if missing job_id || missing resume_id then
    (failure 400 "FIELD_REQUIRED"
       (Some (if missing job_id then "job_id" else "resume_id"))
       ((if missing job_id then "Job ID" else "Resume ID") +:+ " is required"),
     db)
  else
    let job := default 0%Z job_id in
    let resume := default 0%Z resume_id in
    match read_resume with
    | DbError _ => (failure 500 "INTERNAL_ERROR" None "Database error", db)
    | DbOk =>
        match List.find (λ r, (r_id r =? resume)%Z && (r_user_id r =? userId u)%Z)
                (resumes db) with
        | None =>
            (failure 404 "NOT_FOUND" None
               "Resume not found or you do not own this resume", db)
        | Some _ =>
            match read_job with
            | DbError _ => (failure 500 "INTERNAL_ERROR" None "Database error", db)
            | DbOk =>
                match List.find (λ j, (j_id j =? job)%Z) (jobs db) with
                | None => (failure 404 "NOT_FOUND" None "Job not found", db)
                | Some _ =>
                    match read_existing with
                    | DbError _ =>
                        (failure 500 "INTERNAL_ERROR" None "Database error", db)
                    | DbOk =>
                        match List.find
                                (λ a, (app_job_id a =? job)%Z
                                      && (app_user_id a =? userId u)%Z)
                                (applications db) with
                        | Some _ =>
                            (failure 409 "ALREADY_APPLIED" None
                               "You have already applied for this job", db)
                        | None =>
                            match write with
                            | DbError _ =>
                                (failure 500 "INTERNAL_ERROR" None
                                   "Failed to create application", db)
                            | DbOk =>
                                (Applied lastID job resume "pending",
                                 {| resumes := resumes db; jobs := jobs db;
                                    applications :=
                                      (applications db ++
                                       [{| app_id := lastID; app_job_id := job;
                                           app_user_id := userId u;
                                           app_resume_id := resume;
                                           app_cover_letter := default "" cover_letter;
                                           app_status := "pending";
                                           app_notes := None |}])%list |})
                            end
                        end
                    end
                end
            end
        end
    end.

(** The row of [applications a JOIN jobs j ON a.job_id = j.id] that the
    status update looks for; a recruiter only finds the applications for
    the jobs they created *)
Definition find_application (u : user) (id : Z) (db : database) : option application :=
  List.find
    (λ a, (app_id a =? id)%Z &&
          existsb (λ j, (j_id j =? app_job_id a)%Z &&
                        (negb (String.eqb (role u) "recruiter")
                         || (j_created_by j =? userId u)%Z))
                  (jobs db))
    (applications db).

(** [UPDATE applications SET status = ?, notes = ? WHERE id = ?] *)
Definition set_status (id : Z) (status notes : string) (a : application) : application :=
  if (app_id a =? id)%Z then
    {| app_id := app_id a; app_job_id := app_job_id a; app_user_id := app_user_id a;
       app_resume_id := app_resume_id a; app_cover_letter := app_cover_letter a;
       app_status := status; app_notes := Some notes |}
  else a.

(** [router.patch('/:id/status')] *)
Definition patch_status (u : user) (id : Z) (status notes : option string)
    (db : database) (read write : db_outcome) : response * database * list string :=
  if negb (bool_decide (role u ∈ ["recruiter"; "admin"])) then
    (failure 403 "FORBIDDEN" None
       "Only recruiters and admins can update application status", db, [])
  else
    match status with
    | None =>
        (failure 400 "INVALID_STATUS" None
           "Status must be pending, reviewing, accepted, or rejected", db, [])
    | Some status =>
        if negb (bool_decide (status ∈ statuses)) then
          (failure 400 "INVALID_STATUS" None
             "Status must be pending, reviewing, accepted, or rejected", db, [])
        else
          match read with
          | DbError _ => (failure 500 "INTERNAL_ERROR" None "Database error", db, [])
          | DbOk =>
              match find_application u id db with
              | None =>
                  (failure 404 "NOT_FOUND" None
                     "Application not found or you do not have permission to update it",
                   db, [])
              | Some _ =>
                  match write with
                  | DbError e =>
                      (failure 500 "INTERNAL_ERROR" None
                         "Failed to update application status", db,
                       ["Database error: " +:+ e])
                  | DbOk =>
                      let notes := default "" notes in
                      (Updated id status notes,
                       {| resumes := resumes db; jobs := jobs db;
                          applications :=
                            map (set_status id status notes) (applications db) |},
                       [])
                  end
              end
          end
    end.

End Applications.

(** ** More sample data *)

Module Cases.

Definition alice_cv : resume_row :=
  {| id := 1; user_id := 2; original_name := "alice.txt";
     content := "Java engineer. Learning Python on weekends and evenings.";
     uploader_name := "Alice"; created_at := "2024-05-01 09:00:00";
     parsed_data := None; embeddings := None |}.

Definition bob_cv : resume_row :=
  {| id := 2; user_id := 3; original_name := "bob.txt";
     content := "Experienced Python developer. Contact bob@example.org today!";
     uploader_name := "Bob"; created_at := "2024-05-02 09:00:00";
     parsed_data := None; embeddings := None |}.

Definition search_db : Search.database :=
  {| Search.resumes := [alice_cv; bob_cv]; Search.search_queries := [] |}.

Definition jobs_db : Jobs.database :=
  {| Jobs.jobs :=
       [{| job_id := 7; title := "Python developer";
           description := "Experienced engineer wanted";
           requirements := "Python Java Docker" |}];
     Jobs.resumes := [alice_cv; bob_cv];
     Jobs.job_matches := [] |}.

Definition alice : user := {| userId := 2; role := "user" |}.

Definition store_db : ResumeStore.database :=
  {| ResumeStore.resumes :=
       [{| ResumeStore.r_id := 2; ResumeStore.r_user_id := 3;
           ResumeStore.r_original_name := "bob.txt";
           ResumeStore.r_content := "Experienced Python developer." |};
        {| ResumeStore.r_id := 1; ResumeStore.r_user_id := 2;
           ResumeStore.r_original_name := "alice.txt";
           ResumeStore.r_content := "Java engineer." |}];
     ResumeStore.users := {[ 2%Z := "Alice"; 3%Z := "Bob" ]} |}.

(** Two routes, over a counter of the rows they have created *)
Definition create_route : nat → nat * string * nat * list string :=
  λ n, (201, "created", S n, []).

Definition other_route : nat → nat * string * nat * list string :=
  λ n, (200, "other", n + 10, ["ran"]).

Definition root : Accounts.account :=
  {| Accounts.a_id := 1; Accounts.a_email := "admin@example.org";
     Accounts.a_password := "$2a$10$root"; Accounts.a_name := "Root";
     Accounts.a_role := "admin" |}.

Definition eve_claims : Accounts.claims :=
  {| Accounts.c_userId := 2; Accounts.c_email := "eve@example.org";
     Accounts.c_role := "admin" |}.

Definition hiring_db : Applications.database :=
  {| Applications.resumes := [{| Applications.r_id := 1; Applications.r_user_id := 2 |}];
     Applications.jobs := [{| Applications.j_id := 7; Applications.j_created_by := 5 |}];
     Applications.applications :=
       [{| Applications.app_id := 1; Applications.app_job_id := 7;
           Applications.app_user_id := 3; Applications.app_resume_id := 2;
           Applications.app_cover_letter := ""; Applications.app_status := "pending";
           Applications.app_notes := None |}] |}.

End Cases.

(** ** Vocabulary of the properties *)

(** The relevance floor of the search handler *)
Definition above_floor (x : number) : Prop := num_gt x (Fin (1 # 100)) = true.

(** A finite number of the interval [0,1] *)
Definition in_unit_interval (x : number) : Prop :=
  ∃ q, x = Fin q ∧ (0 <= q <= 1)%Q.

(** [Math.round(x * 100) / 100], as binary64 computes it *)
Definition two_decimals (x : number) : number :=
  binary64 (num_div (Math_round (binary64 (num_mul x (of_Z 100)))) (of_Z 100)).

(** [100 * m / n] rounded to the nearest integer, a tie going up, and
    whether [100 * m / n] is such a tie *)
Definition percent_half_up (m n : Z) : Z := ((200 * m + n) / (2 * n))%Z.
Definition percent_tie (m n : Z) : bool := ((200 * m + n) mod (2 * n) =? 0)%Z.

(** A string that does not begin with white space *)
Definition starts_clean (s : string) : Prop :=
  match s with
  | String c _ => is_space c = false
  | EmptyString => True
  end.

(** What it means for a regular expression to match: [Matches re prev m
    rest] says that [re] can consume exactly [m] when [prev] is the
    character before [m] and [rest] is the text after it. *)
Definition within (hi : option nat) (n : nat) : Prop :=
  match hi with
  | Some h => n <= h
  | None => True
  end.

Fixpoint Matches (re : RegExp.regexp) (prev : option ascii) (m rest : list ascii)
  : Prop :=
  match re with
  | [] => m = []
  | RegExp.WordBoundary :: re' =>
      RegExp.at_boundary prev (head (m ++ rest)%list) = true ∧ Matches re' prev m rest
  | RegExp.Char c :: re' =>
      ∃ m', m = c :: m' ∧ Matches re' (Some c) m' rest
  | RegExp.Class cls lo hi :: re' =>
      ∃ u m', m = (u ++ m')%list ∧ Forall (λ c, cls c = true) u ∧
              lo <= length u ∧ within hi (length u) ∧
              Matches re' (RegExp.last_of prev u) m' rest
  end.

(** [re] matches nowhere in [s], [prev] being the character before [s] *)
Definition NoMatch (re : RegExp.regexp) (prev : option ascii) (s : list ascii) : Prop :=
  ∀ a b, s = (a ++ b)%list → RegExp.match_items re (RegExp.last_of prev a) b = None.

Definition boundary_free (re : RegExp.regexp) : Prop :=
  Forall (λ it, it ≠ RegExp.WordBoundary) re.

(** The characters an item can consume *)
Definition accepts (it : RegExp.item) (c : ascii) : bool :=
  match it with
  | RegExp.WordBoundary => false
  | RegExp.Char d => Ascii.eqb d c
  | RegExp.Class cls _ _ => cls c
  end.

Definition alphabet (re : RegExp.regexp) (c : ascii) : bool :=
  existsb (λ it, accepts it c) re.

(** The patterns of the source without their two assertions *)
Definition email_core : RegExp.regexp :=
  [ RegExp.Class Resumes.email_local 1 None; RegExp.Char "@";
    RegExp.Class Resumes.email_domain 1 None; RegExp.Char ".";
    RegExp.Class Resumes.email_tld 2 None ].

Definition phone_core : RegExp.regexp :=
  [ RegExp.Class is_digit 3 (Some 3); RegExp.Class (RegExp.one_of "-.") 0 (Some 1);
    RegExp.Class is_digit 3 (Some 3); RegExp.Class (RegExp.one_of "-.") 0 (Some 1);
    RegExp.Class is_digit 4 (Some 4) ].

(** The two replacement texts *)
Definition email_by : list ascii := list_ascii_of_string "[EMAIL REDACTED]".
Definition phone_by : list ascii := list_ascii_of_string "[PHONE REDACTED]".

(** The row of [job_matches] that stores a match *)
Definition stored_match (job : Z) (m : Jobs.match_result) : Jobs.job_match_row :=
  {| Jobs.jm_job_id := job; Jobs.jm_resume_id := Jobs.resume_id m;
     Jobs.jm_match_score := Jobs.match_score m; Jobs.jm_evidence := Jobs.evidence m;
     Jobs.jm_missing_requirements := Jobs.missing_requirements m |}.

(** [x] occurs in [s] *)
Definition occurs_in (x s : string) : Prop := ∃ pre post, s = pre +:+ x +:+ post.

(** [s] begins with a separator *)
Definition begins_with (is_sep : ascii → bool) (s : string) : bool :=
  match s with
  | String c _ => is_sep c
  | EmptyString => false
  end.

(** The number of characters [c] in [s] *)
Fixpoint count_char (c : ascii) (s : string) : nat :=
  match s with
  | EmptyString => 0
  | String d s' => (if Ascii.eqb d c then 1 else 0) + count_char c s'
  end.

(** The number of occurrences of [t] in [l] *)
Definition occurrences (t : string) (l : list string) : nat :=
  length (filter (λ x, x = t) l).

(** [it] is the item that lists the resume [r] *)
Definition lists (db : ResumeStore.database) (it : ResumeStore.item)
    (r : ResumeStore.resume_record) : Prop :=
  ResumeStore.item_id it = ResumeStore.r_id r ∧
  ResumeStore.item_filename it = ResumeStore.r_original_name r ∧
  ResumeStore.users db !! ResumeStore.r_user_id r = Some (ResumeStore.item_uploader it).

(** The table [users] as its schema wants it: [id] is the primary key,
    [email] is UNIQUE, and [role] passes the CHECK *)
Definition well_formed_users (db : Accounts.database) : Prop :=
  NoDup (map Accounts.a_id db) ∧
  NoDup (map Accounts.a_email db) ∧
  Forall (λ a, Accounts.a_role a ∈ Accounts.roles) db.

(** The table [applications] as the router keeps it: ids are unique, no
    user has two applications for one job, and every status passes the
    CHECK of the schema *)
Definition well_formed_applications (db : Applications.database) : Prop :=
  NoDup (map Applications.app_id (Applications.applications db)) ∧
  NoDup (map (λ a, (Applications.app_job_id a, Applications.app_user_id a))
           (Applications.applications db)) ∧
  Forall (λ a, Applications.app_status a ∈ Applications.statuses)
    (Applications.applications db).

(** The job of the application [a] was created by [u] *)
Definition for_job_of (db : Applications.database) (u : user)
    (a : Applications.application) : Prop :=
  ∃ j, j ∈ Applications.jobs db ∧
       Applications.j_id j = Applications.app_job_id a ∧
       Applications.j_created_by j = userId u.

(** * Properties *)

(** ** Numbers *)

Lemma Qzero_b_inject (z : Z) : Qzero_b (inject_Z z) = (z =? 0)%Z.
Proof. reflexivity. Qed.

Lemma Qpos_b_inject (z : Z) : Qpos_b (inject_Z z) = (0 <? z)%Z.
Proof. reflexivity. Qed.

(** The quotient of two lengths: 0/0 is NaN, n/0 is infinite, and
    otherwise the exact ratio. *)
Lemma num_div_lengths (n d : nat) :
  num_div (of_nat n) (of_nat d) =
    match d, n with
    | 0, 0 => NaN
    | 0, S _ => PosInf
    | S _, _ => Fin (inject_Z (Z.of_nat n) / inject_Z (Z.of_nat d))
    end.
Proof.
  unfold of_nat, of_Z, num_div.
  rewrite !Qzero_b_inject, Qpos_b_inject.
  destruct d as [|d], n as [|n]; reflexivity.
Qed.

Lemma num_gt_Fin (a b : Q) : num_gt (Fin a) (Fin b) = true ↔ (b < a)%Q.
Proof.
  simpl. rewrite negb_true_iff, <- not_true_iff_false, Qle_bool_iff.
  split; [apply Qnot_le_lt | apply Qlt_not_le].
Qed.

Lemma num_gt_Fin_false (a b : Q) : num_gt (Fin a) (Fin b) = false ↔ (a <= b)%Q.
Proof. simpl. rewrite negb_false_iff. apply Qle_bool_iff. Qed.

Lemma num_gt_bound_proper (x : number) (b b' : Q) :
  (b == b')%Q → num_gt x (Fin b) = num_gt x (Fin b').
Proof.
  intros E. destruct x as [| | |a]; try done.
  apply eq_true_iff_eq. rewrite !num_gt_Fin. by rewrite E.
Qed.

(** A number that exceeds a finite one is finite or [PosInf]. *)
Lemma num_gt_Fin_inv (x : number) (b : Q) :
  num_gt x (Fin b) = true → x = PosInf ∨ ∃ a, x = Fin a ∧ (b < a)%Q.
Proof.
  destruct x as [| | |a]; try discriminate; [by left|].
  intros H. right. exists a. split; [done|]. by apply num_gt_Fin.
Qed.

Lemma ratio_in_unit (n d : nat) :
  n <= d → 0 < d →
  (0 <= inject_Z (Z.of_nat n) / inject_Z (Z.of_nat d) <= 1)%Q.
Proof.
  intros Hle Hd.
  assert (Hd' : (0 < inject_Z (Z.of_nat d))%Q).
  { rewrite <- (Zlt_Qlt 0). lia. }
  assert (Hn' : (0 <= inject_Z (Z.of_nat n))%Q).
  { rewrite <- (Zle_Qle 0). lia. }
  assert (Hnd : (inject_Z (Z.of_nat n) <= inject_Z (Z.of_nat d))%Q).
  { rewrite <- Zle_Qle. lia. }
  split.
  - apply Qle_shift_div_l; [done|]. lra.
  - apply Qle_shift_div_r; [done|]. lra.
Qed.

(** ** Binary64 *)

Section Binary64Facts.

Import Binary64.
Local Open Scope Q_scope.

Lemma pow2_pos (e : Z) : 0 < 2 ^ e.
Proof. by apply Qpower_0_lt. Qed.

Lemma pow2_plus (a b : Z) : 2 ^ (a + b) == 2 ^ a * 2 ^ b.
Proof. by apply Qpower_plus. Qed.

Lemma pow2_succ (a : Z) : 2 ^ (a + 1) == 2 * 2 ^ a.
Proof. rewrite pow2_plus. change (2 ^ 1) with 2. ring. Qed.

Lemma pow2_le (a b : Z) : (a <= b)%Z → 2 ^ a <= 2 ^ b.
Proof. intros H. apply Qpower_le_compat_l; [done|]. by compute. Qed.

Lemma pow2_lt (a b : Z) : (a < b)%Z → 2 ^ a < 2 ^ b.
Proof. intros H. apply Qpower_lt_compat_l; [done|]. by compute. Qed.

Lemma pow2_inject (a : Z) : (0 <= a)%Z → inject_Z (2 ^ a) == 2 ^ a.
Proof. intros H. by rewrite Zpower_Qpower. Qed.

(** [exponent q] is the binary exponent of [q] *)
Lemma exponent_spec (q : Q) :
  0 < q → 2 ^ exponent q <= q ∧ q < 2 ^ (exponent q + 1).
Proof.
  intros Hq. destruct q as [a b]. unfold exponent. cbn [Qnum Qden].
  assert (Ha : (0 < a)%Z) by (unfold Qlt in Hq; simpl in Hq; lia).
  pose proof (Z.log2_spec a Ha) as [Ha1 Ha2].
  pose proof (Z.log2_spec (Z.pos b) ltac:(lia)) as [Hb1 Hb2].
  pose proof (Z.log2_nonneg a) as Hla. pose proof (Z.log2_nonneg (Z.pos b)) as Hlb.
  set (la := Z.log2 a) in *. set (lb := Z.log2 (Z.pos b)) in *.
  assert (Hq' : a # b == inject_Z a / inject_Z (Z.pos b)) by apply Qmake_Qdiv.
  assert (HA1 : 2 ^ la <= inject_Z a).
  { rewrite <- pow2_inject by done. by rewrite <- Zle_Qle. }
  assert (HA2 : inject_Z a < 2 * 2 ^ la).
  { rewrite <- pow2_succ, <- pow2_inject by lia. rewrite <- Zlt_Qlt.
    by rewrite <- Z.add_1_r in Ha2. }
  assert (HB1 : 2 ^ lb <= inject_Z (Z.pos b)).
  { rewrite <- pow2_inject by done. by rewrite <- Zle_Qle. }
  assert (HB2 : inject_Z (Z.pos b) < 2 * 2 ^ lb).
  { rewrite <- pow2_succ, <- pow2_inject by lia. rewrite <- Zlt_Qlt.
    by rewrite <- Z.add_1_r in Hb2. }
  assert (Hb : 0 < inject_Z (Z.pos b)) by (rewrite <- (Zlt_Qlt 0); lia).
  pose proof (pow2_pos la) as Hpa. pose proof (pow2_pos lb) as Hpb.
  assert (He : 2 ^ (la - lb) * 2 ^ lb == 2 ^ la).
  { rewrite <- pow2_plus. by replace (la - lb + lb)%Z with la by lia. }
  pose proof (pow2_pos (la - lb)) as Hpe.
  set (E := 2 ^ (la - lb)) in *. set (A := 2 ^ la) in *. set (B := 2 ^ lb) in *.
  set (x := inject_Z a) in *. set (y := inject_Z (Z.pos b)) in *.
  assert (Hlow : E / 2 < a # b).
  { rewrite Hq'. apply Qlt_shift_div_l; [done|].
    assert (E * y < E * (2 * B)) by (apply Qmult_lt_l; done).
    unfold Qdiv. change (/ 2) with (1 # 2). nra. }
  assert (Hhigh : a # b < 2 * E).
  { rewrite Hq'. apply Qlt_shift_div_r; [done|].
    assert (E * B <= E * y) by (apply Qmult_le_l; done). nra. }
  destruct (Qle_bool E (a # b)) eqn:Ele.
  - apply Qle_bool_iff in Ele. split; [done|]. subst E. by rewrite pow2_succ.
  - assert (Hlt : a # b < E).
    { apply Qnot_le_lt. intros Hle. apply Qle_bool_iff in Hle. congruence. }
    replace (la - lb - 1 + 1)%Z with (la - lb)%Z by lia. fold E.
    split; [|done].
    assert (Hh : 2 ^ (la - lb - 1) * 2 == E).
    { subst E. rewrite Qmult_comm, <- pow2_succ.
      by replace (la - lb - 1 + 1)%Z with (la - lb)%Z by lia. }
    pose proof (pow2_pos (la - lb - 1)). set (H2 := 2 ^ (la - lb - 1)) in *.
    unfold Qdiv in Hlow. change (/ 2) with (1 # 2) in Hlow.
    apply Qlt_le_weak. lra.
Qed.

Lemma floor_bounds (t : Q) :
  inject_Z (Qfloor t) <= t ∧ t < inject_Z (Qfloor t) + 1.
Proof.
  split; [apply Qfloor_le|].
  pose proof (Qlt_floor t) as H. by rewrite inject_Z_plus in H.
Qed.

Lemma nearest_even_cases (t : Q) :
  let f := Qfloor t in
  (nearest_even t = f ∧ t - inject_Z f <= 1 # 2) ∨
  (nearest_even t = (f + 1)%Z ∧ 1 # 2 <= t - inject_Z f).
Proof.
  cbv zeta. unfold nearest_even.
  destruct (Qcompare (t - inject_Z (Qfloor t)) (1 # 2)) eqn:E.
  - apply Qeq_alt in E. destruct (Z.even (Qfloor t)); [left|right]; split; try done; lra.
  - apply Qlt_alt in E. left. split; [done|lra].
  - apply Qgt_alt in E. right. split; [done|lra].
Qed.

(** The nearest integer is at most one half away *)
Lemma nearest_even_bounds (t : Q) :
  inject_Z (nearest_even t) - (1 # 2) <= t ∧ t <= inject_Z (nearest_even t) + (1 # 2).
Proof.
  pose proof (floor_bounds t) as [H1 H2].
  destruct (nearest_even_cases t) as [[-> H]|[-> H]]; rewrite ?inject_Z_plus;
    change (inject_Z 1) with 1; split; lra.
Qed.

Lemma nearest_even_mono (t t' : Q) :
  t <= t' → (nearest_even t <= nearest_even t')%Z.
Proof.
  intros Hle.
  pose proof (Qfloor_resp_le _ _ Hle) as Hf.
  pose proof (floor_bounds t) as [H1 H2]. pose proof (floor_bounds t') as [H1' H2'].
  destruct (Z.eq_dec (Qfloor t) (Qfloor t')) as [Heq|Hne].
  - unfold nearest_even. rewrite <- Heq.
    destruct (Qcompare (t - inject_Z (Qfloor t)) (1 # 2)) eqn:E;
      destruct (Qcompare (t' - inject_Z (Qfloor t)) (1 # 2)) eqn:E';
      repeat match goal with
             | H : Qcompare _ _ = Eq |- _ => apply Qeq_alt in H
             | H : Qcompare _ _ = Lt |- _ => apply Qlt_alt in H
             | H : Qcompare _ _ = Gt |- _ => apply Qgt_alt in H
             end;
      destruct (Z.even (Qfloor t)); try lia; exfalso; lra.
  - destruct (nearest_even_cases t) as [[-> _]|[-> _]];
      destruct (nearest_even_cases t') as [[-> _]|[-> _]]; lia.
Qed.

Lemma nearest_even_Z (t : Q) (z : Z) : t == inject_Z z → nearest_even t = z.
Proof.
  intros H.
  assert (Hf : Qfloor t = z) by (rewrite (Qfloor_comp _ _ H); apply Qfloor_Z).
  destruct (nearest_even_cases t) as [[-> _]|[_ Hge]]; [done|].
  rewrite Hf in Hge. exfalso. lra.
Qed.

Lemma nearest_even_le (t : Q) (z : Z) : t <= inject_Z z → (nearest_even t <= z)%Z.
Proof.
  intros H. rewrite <- (nearest_even_Z (inject_Z z) z) by reflexivity.
  by apply nearest_even_mono.
Qed.

Lemma nearest_even_ge (t : Q) (z : Z) : inject_Z z <= t → (z <= nearest_even t)%Z.
Proof.
  intros H. rewrite <- (nearest_even_Z (inject_Z z) z) at 1 by reflexivity.
  by apply nearest_even_mono.
Qed.


Lemma exponent_mono (q1 q2 : Q) :
  0 < q1 → q1 <= q2 → (exponent q1 <= exponent q2)%Z.
Proof.
  intros H1 Hle.
  destruct (exponent_spec q1 H1) as [Ha _].
  destruct (exponent_spec q2 ltac:(lra)) as [_ Hb].
  destruct (Z_le_gt_dec (exponent q1) (exponent q2)) as [|Hgt]; [done|].
  exfalso. pose proof (pow2_le (exponent q2 + 1) (exponent q1) ltac:(lia)). lra.
Qed.

Section Positive.

Variable q : Q.
Hypothesis Hq : 0 < q.

Let P : Q := 2 ^ last_place q.
Let v : Q := inject_Z (significand q) * P.

Lemma last_place_unit : 0 < P.
Proof. apply pow2_pos. Qed.

Lemma scaled_lt : q / P < inject_Z (2 ^ 53).
Proof.
  pose proof last_place_unit as HP.
  apply Qlt_shift_div_r; [done|].
  destruct (exponent_spec q Hq) as [_ Hhi].
  eapply Qlt_le_trans; [exact Hhi|].
  rewrite pow2_inject by lia. subst P. rewrite <- pow2_plus.
  apply pow2_le. unfold last_place. lia.
Qed.

Lemma scaled_ge : (-1022 <= exponent q)%Z → inject_Z (2 ^ 52) <= q / P.
Proof.
  intros He. pose proof last_place_unit as HP.
  apply Qle_shift_div_l; [done|].
  destruct (exponent_spec q Hq) as [Hlo _].
  eapply Qle_trans; [|exact Hlo].
  rewrite pow2_inject by lia. subst P. rewrite <- pow2_plus.
  apply pow2_le. unfold last_place. lia.
Qed.

Lemma significand_range : (0 <= significand q <= 2 ^ 53)%Z.
Proof.
  pose proof last_place_unit as HP. unfold significand. fold P. split.
  - apply nearest_even_ge. change (inject_Z 0) with 0.
    apply Qle_shift_div_l; [done|]. lra.
  - apply nearest_even_le, Qlt_le_weak, scaled_lt.
Qed.

Lemma significand_normal : (-1022 <= exponent q)%Z → (2 ^ 52 <= significand q)%Z.
Proof. intros He. unfold significand. fold P. by apply nearest_even_ge, scaled_ge. Qed.

(** The rounded value is at most half a unit of the last place away *)
Lemma rounded_near : v - P / 2 <= q ∧ q <= v + P / 2.
Proof.
  pose proof last_place_unit as HP.
  pose proof (nearest_even_bounds (q / P)) as [H1 H2].
  assert (Hq' : q == q / P * P) by (field; lra).
  subst v. change (significand q) with (nearest_even (q / P)).
  set (n := inject_Z (nearest_even (q / P))) in *. set (t := q / P) in *.
  assert (Ha : (n - (1 # 2)) * P <= t * P) by (apply Qmult_le_compat_r; lra).
  assert (Hb : t * P <= (n + (1 # 2)) * P) by (apply Qmult_le_compat_r; lra).
  unfold Qdiv. change (/ 2) with (1 # 2). split; nra.
Qed.

Lemma rounded_nonneg : 0 <= v.
Proof.
  pose proof last_place_unit. pose proof significand_range as [H0 _].
  rewrite Zle_Qle in H0. subst v. change (inject_Z 0) with 0 in H0. nra.
Qed.

Lemma rounded_le_binade : v <= 2 ^ (Z.max (exponent q) (-1022) + 1).
Proof.
  pose proof last_place_unit as HP. pose proof significand_range as [_ H1].
  rewrite Zle_Qle in H1. rewrite pow2_inject in H1 by lia.
  replace (Z.max (exponent q) (-1022) + 1)%Z with (53 + last_place q)%Z
    by (unfold last_place; lia).
  rewrite pow2_plus. fold P. subst v. nra.
Qed.

Lemma rounded_ge_binade : (-1022 <= exponent q)%Z → 2 ^ exponent q <= v.
Proof.
  intros He. pose proof last_place_unit as HP. pose proof (significand_normal He) as H1.
  rewrite Zle_Qle in H1. rewrite pow2_inject in H1 by lia.
  replace (exponent q) with (52 + last_place q)%Z at 1 by (unfold last_place; lia).
  rewrite pow2_plus. fold P. subst v. nra.
Qed.

Lemma round_positive_cases :
  (round_positive q = PosInf ∧ 2 ^ 1024 <= v) ∨
  (∃ r, round_positive q = Fin r ∧ r == v ∧ v < 2 ^ 1024).
Proof.
  unfold round_positive. cbv zeta. fold P. fold v.
  destruct (Qle_bool (2 ^ 1024) v) eqn:E.
  - left. split; [done|]. by apply Qle_bool_iff.
  - right. eexists. split; [done|]. split; [apply Qred_correct|].
    apply Qnot_le_lt. intros H. apply Qle_bool_iff in H. congruence.
Qed.

End Positive.

Lemma rounded_mono (q1 q2 : Q) :
  0 < q1 → q1 <= q2 →
  inject_Z (significand q1) * 2 ^ last_place q1
    <= inject_Z (significand q2) * 2 ^ last_place q2.
Proof.
  intros H1 Hle. assert (H2 : 0 < q2) by lra.
  pose proof (exponent_mono q1 q2 H1 Hle) as He.
  destruct (Z.eq_dec (last_place q1) (last_place q2)) as [Heq|Hne].
  - unfold significand. rewrite Heq.
    pose proof (pow2_pos (last_place q2)) as HP. set (P := 2 ^ last_place q2) in *.
    assert (Ht : q1 / P <= q2 / P).
    { apply Qle_shift_div_l; [done|]. assert (q1 / P * P == q1) by (field; lra). lra. }
    apply nearest_even_mono in Ht. rewrite Zle_Qle in Ht.
    set (n1 := inject_Z (nearest_even (q1 / P))) in *.
    set (n2 := inject_Z (nearest_even (q2 / P))) in *. nra.
  - assert (Hlt : (Z.max (exponent q1) (-1022) < exponent q2)%Z)
      by (unfold last_place in Hne; lia).
    eapply Qle_trans; [apply (rounded_le_binade q1 H1)|].
    eapply Qle_trans; [|apply (rounded_ge_binade q2 H2); lia].
    apply pow2_le. lia.
Qed.

(** Rounding keeps the order of the numbers that are not negative *)
Lemma round_mono (q1 q2 r2 : Q) :
  0 <= q1 → q1 <= q2 → round q2 = Fin r2 →
  ∃ r1, round q1 = Fin r1 ∧ 0 <= r1 ∧ r1 <= r2.
Proof.
  intros H1 Hle Hr2.
  assert (Hpos : ∀ q, 0 < q → round q = round_positive q).
  { intros [a b] Hq. unfold round. cbn [Qnum].
    unfold Qlt in Hq. simpl in Hq. destruct a; try lia. done. }
  assert (Hzero : ∀ q, q == 0 → round q = Fin 0).
  { intros [a b] Hq. unfold round. cbn [Qnum].
    unfold Qeq in Hq. simpl in Hq. destruct a; try lia. done. }
  assert (H2 : 0 <= r2).
  { destruct (Qlt_le_dec 0 q2) as [Hq2|Hq2].
    - rewrite (Hpos _ Hq2) in Hr2.
      destruct (round_positive_cases q2) as [[E _]|(r & E & Hr & _)]; [congruence|].
      rewrite E in Hr2. injection Hr2 as <-. rewrite Hr. by apply rounded_nonneg.
    - rewrite Hzero in Hr2 by lra. injection Hr2 as <-. lra. }
  destruct (Qlt_le_dec 0 q1) as [Hq1|Hq1].
  - assert (Hq2 : 0 < q2) by lra.
    rewrite (Hpos _ Hq1). rewrite (Hpos _ Hq2) in Hr2.
    pose proof (rounded_mono q1 q2 Hq1 Hle) as Hm.
    destruct (round_positive_cases q2) as [[E _]|(r & E & Hr & Hfin)]; [congruence|].
    rewrite E in Hr2. injection Hr2 as <-.
    destruct (round_positive_cases q1) as [[_ Hinf]|(r1 & E1 & Hr1 & _)]; [lra|].
    exists r1. split; [done|]. rewrite Hr1, Hr. split; [by apply rounded_nonneg|done].
  - exists 0. split; [apply Hzero; lra|]. split; [lra|done].
Qed.

(** Up to [2 ^ (k + 1)] a rounding moves a number by [2 ^ (k - 53)] at
    most *)
Lemma round_error (q : Q) (k : Z) :
  0 <= q → q < 2 ^ (k + 1) → (-1022 <= k < 1023)%Z →
  ∃ r, round q = Fin r ∧ r - 2 ^ (k - 53) <= q ∧ q <= r + 2 ^ (k - 53).
Proof.
  intros H0 Hk Hrange.
  pose proof (pow2_pos (k - 53)) as Hu.
  destruct (Qlt_le_dec 0 q) as [Hq|Hq].
  - assert (E : round q = round_positive q).
    { destruct q as [a b]. unfold round. cbn [Qnum].
      unfold Qlt in Hq. simpl in Hq. destruct a; try lia. done. }
    rewrite E.
    assert (He : (exponent q <= k)%Z).
    { destruct (exponent_spec q Hq) as [Hlo _].
      destruct (Z_le_gt_dec (exponent q) k) as [|Hgt]; [done|].
      exfalso. pose proof (pow2_le (k + 1) (exponent q) ltac:(lia)). lra. }
    pose proof (rounded_near q) as [Hn1 Hn2].
    pose proof (rounded_le_binade q Hq) as Hb.
    assert (HP : 2 ^ last_place q / 2 <= 2 ^ (k - 53)).
    { assert (Hh : 2 ^ (k - 53) * 2 == 2 ^ (k - 52)).
      { rewrite Qmult_comm, <- pow2_succ. by replace (k - 53 + 1)%Z with (k - 52)%Z by lia. }
      pose proof (pow2_le (last_place q) (k - 52) ltac:(unfold last_place; lia)).
      unfold Qdiv. change (/ 2) with (1 # 2). lra. }
    destruct (round_positive_cases q) as [[_ Hinf]|(r & Er & Hr & _)].
    + exfalso.
      pose proof (pow2_le (Z.max (exponent q) (-1022) + 1) 1023 ltac:(lia)).
      pose proof (pow2_lt 1023 1024 ltac:(lia)). lra.
    + exists r. split; [done|]. rewrite Hr. split; lra.
  - exists 0. split; [|split; lra].
    destruct q as [a b]. unfold round. cbn [Qnum].
    unfold Qle in *. simpl in *. destruct a; try lia. done.
Qed.


Lemma Qred_inject_Z (z : Z) : Qred (inject_Z z) = inject_Z z.
Proof.
  unfold Qred, inject_Z.
  pose proof (Z.ggcd_gcd z 1) as Hg.
  pose proof (Z.ggcd_correct_divisors z 1) as Hd.
  destruct (Z.ggcd z 1) as [g [aa bb]]. simpl in *.
  rewrite Z.gcd_1_r in Hg. subst g. destruct Hd as [Ha Hb].
  rewrite Z.mul_1_l in Ha, Hb. subst. reflexivity.
Qed.

Lemma round_of_positive (q : Q) : 0 < q → round q = round_positive q.
Proof.
  destruct q as [a b]. intros Hq. unfold round. cbn [Qnum].
  unfold Qlt in Hq. simpl in Hq. destruct a; try lia. done.
Qed.

Lemma round_of_negative (q : Q) : q < 0 → round q = negate (round_positive (- q)).
Proof.
  destruct q as [a b]. intros Hq. unfold round. cbn [Qnum].
  unfold Qlt in Hq. simpl in Hq. destruct a; try lia. done.
Qed.

(** The integers below [2 ^ 53] are doubles *)
Lemma round_positive_integer (z : Z) :
  (0 < z < 2 ^ 53)%Z → round_positive (inject_Z z) = Fin (inject_Z z).
Proof.
  intros Hz. set (q := inject_Z z).
  assert (Hq : 0 < q) by (subst q; rewrite <- (Zlt_Qlt 0); lia).
  destruct (exponent_spec q Hq) as [Hlo Hhi].
  assert (Hz1 : 1 <= q) by (subst q; rewrite <- (Zle_Qle 1); lia).
  assert (Hz2 : q < 2 ^ 53).
  { subst q. rewrite <- pow2_inject by lia. rewrite <- Zlt_Qlt. lia. }
  assert (He : (0 <= exponent q <= 52)%Z).
  { split.
    - destruct (Z_le_gt_dec 0 (exponent q)) as [|Hneg]; [done|]. exfalso.
      pose proof (pow2_le (exponent q + 1) 0 ltac:(lia)) as H.
      change (2 ^ 0) with 1 in H. lra.
    - destruct (Z_le_gt_dec (exponent q) 52) as [|Hbig]; [done|]. exfalso.
      pose proof (pow2_le 53 (exponent q) ltac:(lia)). lra. }
  assert (Hp : last_place q = (exponent q - 52)%Z) by (unfold last_place; lia).
  set (s := (52 - exponent q)%Z).
  assert (Hunit : 2 ^ last_place q * inject_Z (2 ^ s) == 1).
  { rewrite pow2_inject by (subst s; lia). rewrite <- pow2_plus, Hp.
    by replace (exponent q - 52 + s)%Z with 0%Z by (subst s; lia). }
  pose proof (pow2_pos (last_place q)) as HP.
  assert (Ht : q / 2 ^ last_place q == inject_Z (z * 2 ^ s)).
  { rewrite inject_Z_mult. fold q. set (P := 2 ^ last_place q) in *.
    set (S := inject_Z (2 ^ s)) in *. field_simplify_eq; [|lra]. nra. }
  assert (Hv : inject_Z (significand q) * 2 ^ last_place q == q).
  { unfold significand. rewrite (nearest_even_Z _ _ Ht), inject_Z_mult. fold q.
    set (P := 2 ^ last_place q) in *. set (S := inject_Z (2 ^ s)) in *. nra. }
  unfold round_positive. cbv zeta.
  destruct (Qle_bool (2 ^ 1024) _) eqn:E.
  - apply Qle_bool_iff in E. rewrite Hv in E.
    pose proof (pow2_lt 53 1024 ltac:(lia)). lra.
  - f_equal. rewrite (Qred_complete _ _ Hv). apply Qred_inject_Z.
Qed.

Lemma round_integer (z : Z) :
  (Z.abs z < 2 ^ 53)%Z → round (inject_Z z) = Fin (inject_Z z).
Proof.
  intros Hz. destruct (Z.lt_total z 0) as [Hneg|[->|Hpos]].
  - rewrite round_of_negative by (rewrite <- (Zlt_Qlt _ 0); lia).
    change (- inject_Z z) with (inject_Z (- z)).
    rewrite round_positive_integer by lia. cbn [negate].
    change (- inject_Z (- z)) with (inject_Z (- - z)).
    by rewrite Z.opp_involutive, Qred_inject_Z.
  - reflexivity.
  - rewrite round_of_positive by (rewrite <- (Zlt_Qlt 0); lia).
    apply round_positive_integer. lia.
Qed.

(** A double that is not negative comes from a number that is not
    negative *)
Lemma round_nonneg (q r : Q) : 0 <= q → round q = Fin r → 0 <= r.
Proof.
  intros Hq Hr.
  destruct (round_mono q q r Hq ltac:(lra) Hr) as (r1 & E & H0 & _).
  congruence.
Qed.

End Binary64Facts.

Section ParseIntFacts.

Local Open Scope Z_scope.

Lemma shortest_loop_nonneg (fuel : nat) (k v n : Z) :
  0 <= v → 0 <= NumberToString.shortest_loop fuel k v n.
Proof.
  intros Hv. revert k. induction fuel as [|fuel IH]; intros k; cbn [NumberToString.shortest_loop].
  - done.
  - cbv zeta.
    assert (Hu : 0 <= 10 ^ (n - k)) by (apply Z.pow_nonneg; lia).
    assert (Hlo : 0 <= v / 10 ^ (n - k) * 10 ^ (n - k)).
    { destruct (Z.eq_dec (10 ^ (n - k)) 0) as [->|Hne]; [lia|].
      apply Z.mul_nonneg_nonneg; [|done]. apply Z.div_pos; lia. }
    repeat match goal with |- context [if ?b then _ else _] => destruct b end;
      try apply IH; lia.
Qed.

Lemma first_digit_nonneg (v : Z) : 0 <= v → 0 <= NumberToString.first_digit v.
Proof.
  intros Hv. unfold NumberToString.first_digit. cbv zeta.
  pose proof (shortest_loop_nonneg 17 1 v (NumberToString.digits v) Hv) as Hs.
  set (c := NumberToString.shortest_loop 17 1 v (NumberToString.digits v)) in *.
  assert (Hu : 0 <= 10 ^ (NumberToString.digits c - 1)) by (apply Z.pow_nonneg; lia).
  destruct (Z.eq_dec (10 ^ (NumberToString.digits c - 1)) 0) as [->|Hne].
  - by rewrite Z.div_0_r.
  - apply Z.div_pos; lia.
Qed.

(** Below [2 ^ 53] in magnitude [parseInt] returns the integer itself *)
Lemma parseInt_safe (z : Z) : Z.abs z < 2 ^ 53 → parseInt (Integral z) = of_Z z.
Proof.
  intros Hz. unfold parseInt, binary64, of_Z.
  rewrite round_integer by done. cbv zeta. rewrite Qfloor_Z.
  destruct (Z.ltb_spec (Z.abs z) (10 ^ 21)); [done|]. lia.
Qed.

(** Of a number that is not negative [parseInt] returns NaN or an
    integer that is not negative *)
Lemma parseInt_nonneg (z : Z) :
  0 <= z →
  parseInt (Integral z) = NaN ∨ ∃ z', parseInt (Integral z) = of_Z z' ∧ 0 <= z'.
Proof.
  intros Hz. unfold parseInt, binary64, of_Z.
  destruct (Binary64.round (inject_Z z)) as [| | |q] eqn:E; try (by left).
  right. cbv zeta.
  assert (Hq : (0 <= q)%Q).
  { eapply round_nonneg; [|exact E]. rewrite <- (Zle_Qle 0). done. }
  assert (Hn : 0 <= Qfloor q).
  { rewrite <- (Qfloor_Z 0). by apply Qfloor_resp_le. }
  destruct (Z.abs (Qfloor q) <? 10 ^ 21); eexists; (split; [reflexivity|]); [done|].
  apply Z.mul_nonneg_nonneg; [lia|]. apply first_digit_nonneg. lia.
Qed.

End ParseIntFacts.

(** ** Arrays *)

Section ArrayFacts.

Context {A : Type}.
Implicit Types (arr : list A) (cmp : A → A → number).

Lemma map_fmap {B} (f : A → B) arr : map f arr = f <$> arr.
Proof. induction arr as [|x arr IH]; [done|]. simpl. by rewrite IH. Qed.

Lemma sort_insert_perm cmp x arr : sort_insert cmp x arr ≡ₚ x :: arr.
Proof.
  induction arr as [|y arr IH]; simpl; [done|].
  destruct (num_gt (cmp x y) (of_Z 0)); [|done].
  rewrite IH. apply Permutation_swap.
Qed.

(** Sorting rearranges the array and nothing else. *)
Lemma sort_perm cmp arr : sort cmp arr ≡ₚ arr.
Proof.
  unfold sort. induction arr as [|x arr IH]; simpl; [done|].
  by rewrite sort_insert_perm, IH.
Qed.

Lemma sort_length cmp arr : length (sort cmp arr) = length arr.
Proof. by rewrite sort_perm. Qed.

Lemma slice0_subseteq arr e : slice0 arr e ⊆ arr.
Proof. apply subseteq_take. Qed.

Lemma slice0_length_le arr e : length (slice0 arr e) <= length arr.
Proof. unfold slice0. rewrite length_take. lia. Qed.

Lemma relative_index_nonneg (len z : Z) :
  (0 <= z)%Z → relative_index len (of_Z z) = Z.min z len.
Proof.
  intros Hz. unfold relative_index, of_Z, inject_Z. simpl.
  rewrite Z.quot_1_r. destruct (Z.ltb_spec z 0); [lia|done].
Qed.

Lemma relative_index_neg (len z : Z) :
  (z < 0)%Z → relative_index len (of_Z z) = Z.max (len + z) 0.
Proof.
  intros Hz. unfold relative_index, of_Z, inject_Z. simpl.
  rewrite Z.quot_1_r. destruct (Z.ltb_spec z 0); [done|lia].
Qed.

(** [slice(0, z)] keeps at most [z] elements when [z] is not negative *)
Lemma slice0_length_nonneg arr (z : Z) :
  (0 <= z)%Z → (Z.of_nat (length (slice0 arr (of_Z z))) <= z)%Z.
Proof.
  intros Hz. unfold slice0. rewrite relative_index_nonneg, length_take by done. lia.
Qed.

Lemma slice0_length_of_nat arr (k : nat) : length (slice0 arr (of_nat k)) <= k.
Proof. pose proof (slice0_length_nonneg arr (Z.of_nat k)). unfold of_nat. lia. Qed.

(** and all but the last [-z] when [z] is negative *)
Lemma slice0_length_neg arr (z : Z) :
  (z < 0)%Z →
  Z.of_nat (length (slice0 arr (of_Z z))) = Z.max (Z.of_nat (length arr) + z) 0.
Proof.
  intros Hz. unfold slice0. rewrite relative_index_neg, length_take by done. lia.
Qed.

Lemma slice0_NaN arr : slice0 arr NaN = [].
Proof. reflexivity. Qed.

Lemma length_filter_map {B} (f : A → B) (P : B → Prop) `{!∀ y, Decision (P y)} arr :
  length (filter P (map f arr)) = length (filter (λ x, P (f x)) arr).
Proof.
  induction arr as [|x arr IH]; [done|]. simpl.
  rewrite !filter_cons. destruct (decide (P (f x))); simpl; by rewrite IH.
Qed.

End ArrayFacts.

Lemma Math_min_of_Z (a b : Z) : Math_min (of_Z a) (of_Z b) = of_Z (Z.min a b).
Proof.
  unfold Math_min, of_Z.
  destruct (num_gt (Fin (inject_Z a)) (Fin (inject_Z b))) eqn:E.
  - apply num_gt_Fin in E. rewrite <- Zlt_Qlt in E. f_equal. f_equal. lia.
  - apply num_gt_Fin_false in E. rewrite <- Zle_Qle in E. f_equal. f_equal. lia.
Qed.


(** What the cap [Math.min(parseInt(z), cap)] lets [slice] keep, for an
    integer [z] that is not negative *)
Lemma capped_slice_length {B : Type} (arr : list B) (z cap : Z) :
  (0 <= z)%Z → (0 <= cap < 2 ^ 53)%Z →
  (Z.of_nat (length (slice0 arr (Math_min (parseInt (Integral z)) (of_Z cap))))
   <= Z.min z cap)%Z.
Proof.
  intros Hz Hcap. destruct (Z.lt_ge_cases z (2 ^ 53)) as [Hsafe|Hbig].
  - rewrite parseInt_safe by lia. rewrite Math_min_of_Z.
    apply slice0_length_nonneg. lia.
  - destruct (parseInt_nonneg z Hz) as [E|(z' & E & Hz')]; rewrite E.
    + change (Math_min NaN (of_Z cap)) with NaN. rewrite slice0_NaN. simpl. lia.
    + rewrite Math_min_of_Z.
      etrans; [apply slice0_length_nonneg; lia|]. lia.
Qed.

(** and for a negative integer above [- 2 ^ 53] *)
Lemma negative_slice_length {B : Type} (arr : list B) (z cap : Z) :
  (- 2 ^ 53 < z < 0)%Z → (0 <= cap)%Z →
  Z.of_nat (length (slice0 arr (Math_min (parseInt (Integral z)) (of_Z cap))))
    = Z.max (Z.of_nat (length arr) + z) 0.
Proof.
  intros Hz Hcap. rewrite parseInt_safe by lia. rewrite Math_min_of_Z.
  replace (Z.min z cap) with z by lia. apply slice0_length_neg. lia.
Qed.

(** The text of [-1e21] is in exponent notation, and [parseInt] reads
    -1 *)
Lemma parseInt_exponent_notation : parseInt (Integral (- 10 ^ 21)) = of_Z (-1).
Proof. vm_compute. reflexivity. Qed.

(** ** Similarity *)

Section SimilarityFacts.

Variable tokenize : string → list string.

Lemma intersection_set (X Y : gset string) :
  list_to_set (filter (λ x, x ∈ Y) (elements X)) = X ∩ Y.
Proof.
  apply set_eq. intros x.
  rewrite elem_of_list_to_set, list_elem_of_filter, elem_of_elements,
    elem_of_intersection.
  tauto.
Qed.

Lemma union_set (X Y : gset string) :
  list_to_set (elements X ++ elements Y) = X ∪ Y.
Proof.
  rewrite list_to_set_app_L, !list_to_set_elements_L. done.
Qed.

(** The score is the quotient of the sizes of the intersection and of
    the union of the two token sets. *)
Lemma calculateSimilarity_jaccard (text1 text2 : string) :
  Search.calculateSimilarity tokenize text1 text2 =
    let set1 : gset string := list_to_set (Search.filtered_tokens tokenize text1) in
    let set2 : gset string := list_to_set (Search.filtered_tokens tokenize text2) in
    num_div (of_nat (size (set1 ∩ set2))) (of_nat (size (set1 ∪ set2))).
Proof.
  unfold Search.calculateSimilarity. cbv zeta.
  by rewrite intersection_set, union_set.
Qed.

End SimilarityFacts.

(** C1 (as the code has it).  When both texts leave no token after
    filtering, the union is empty and [calculateSimilarity] returns the
    quotient 0/0, which is NaN: there is no guard that turns it into 0. *)
Theorem calculateSimilarity_empty_is_NaN
    (tokenize : string → list string) (text1 text2 : string) :
  Search.filtered_tokens tokenize text1 = [] →
  Search.filtered_tokens tokenize text2 = [] →
  Search.calculateSimilarity tokenize text1 text2 = NaN.
Proof.
  intros H1 H2. rewrite calculateSimilarity_jaccard. cbv zeta.
  rewrite H1, H2. reflexivity.
Qed.

Lemma calculateSimilarity_empty_is_NaN_witness :
  Search.calculateSimilarity Search.tokenize "" "the of" = NaN.
Proof.
  apply (calculateSimilarity_empty_is_NaN Search.tokenize "" "the of");
    vm_compute; reflexivity.
Defined.

(** C1, refuted as stated: the two empty texts have empty token sets and
    their similarity is not the number 0. *)
Lemma calculateSimilarity_empty_not_zero :
  Search.filtered_tokens Search.tokenize "" = [] ∧
  ¬ ∃ q, Search.calculateSimilarity Search.tokenize "" "" = Fin q.
Proof.
  split; [vm_compute; reflexivity|].
  intros [q Hq]. vm_compute in Hq. discriminate.
Qed.

(** C7.  [calculateSimilarity] is symmetric in its two texts: both calls
    return the same number (which is NaN on both sides when neither text
    leaves a token). *)
Theorem calculateSimilarity_symmetric
    (tokenize : string → list string) (text1 text2 : string) :
  Search.calculateSimilarity tokenize text1 text2 =
  Search.calculateSimilarity tokenize text2 text1.
Proof.
  rewrite !calculateSimilarity_jaccard. cbv zeta.
  set (X := list_to_set (Search.filtered_tokens tokenize text1) : gset string).
  set (Y := list_to_set (Search.filtered_tokens tokenize text2) : gset string).
  by rewrite (comm_L (∩) X Y), (comm_L (∪) X Y).
Qed.

(** Under [===] the two calls compare equal as soon as one of the texts
    leaves a token; when neither does, both are NaN. *)
Lemma calculateSimilarity_strictly_equal
    (tokenize : string → list string) (text1 text2 : string) :
  Search.filtered_tokens tokenize text1 ≠ [] ∨
  Search.filtered_tokens tokenize text2 ≠ [] →
  num_strict_eq (Search.calculateSimilarity tokenize text1 text2)
                (Search.calculateSimilarity tokenize text2 text1) = true.
Proof.
  intros Hne. rewrite !calculateSimilarity_jaccard. cbv zeta.
  set (X := list_to_set (Search.filtered_tokens tokenize text1) : gset string).
  set (Y := list_to_set (Search.filtered_tokens tokenize text2) : gset string).
  rewrite (comm_L (∩) Y X), (comm_L (∪) Y X), num_div_lengths.
  destruct (size (X ∪ Y)) as [|d] eqn:Ed.
  - exfalso. apply size_empty_iff in Ed.
    assert (HX : X ≡ ∅) by (intros x; specialize (Ed x); set_unfold; tauto).
    assert (HY : Y ≡ ∅) by (intros x; specialize (Ed x); set_unfold; tauto).
    subst X Y.
    destruct Hne as [Hne|Hne]; apply Hne.
    + destruct (Search.filtered_tokens tokenize text1) as [|t l]; [done|].
      exfalso. specialize (HX t). set_unfold. tauto.
    + destruct (Search.filtered_tokens tokenize text2) as [|t l]; [done|].
      exfalso. specialize (HY t). set_unfold. tauto.
  - simpl. apply Qeq_bool_iff. reflexivity.
Qed.

Example calculateSimilarity_NaN_not_strictly_equal :
  num_strict_eq (Search.calculateSimilarity Search.tokenize "" "")
                (Search.calculateSimilarity Search.tokenize "" "") = false.
Proof. vm_compute. reflexivity. Qed.

(** ** Search *)

Section SearchFacts.

Variable tokenize : string → list string.

(** What [router.post('/')] answers with when it answers with results *)
Lemma post_ask_Json u query k db read write q results total db' log :
  Search.post_ask tokenize u query k db read write
    = (Search.Json q results total, db', log) →
  query ≠ "" ∧ read = DbOk ∧ q = query ∧ total = length results ∧
  results = Search.rank tokenize query
              (Math_min (parseInt (or_default 3 k)) (of_Z 10))
              (Search.visible_resumes u db).
Proof.
  unfold Search.post_ask. case_bool_decide; [discriminate|].
  destruct read; [|discriminate].
  destruct write; intros [= <- <- <- <- <-]; done.
Qed.

Lemma rank_elem query kNum rows r :
  r ∈ Search.rank tokenize query kNum rows →
  above_floor (Search.similarity_score r) ∧
  ∃ row, row ∈ rows ∧ r = Search.score_resume tokenize query row.
Proof.
  unfold Search.rank. intros Hr.
  apply slice0_subseteq in Hr. rewrite sort_perm in Hr.
  apply list_elem_of_filter in Hr as [Hgt Hr].
  split; [by apply Is_true_true|].
  rewrite map_fmap in Hr. apply list_elem_of_fmap in Hr as (row & -> & Hrow).
  by exists row.
Qed.

(** The results above the floor are as many as the candidates whose
    similarity is above the floor. *)
Lemma floor_count query rows :
  length (filter (λ result, num_gt (Search.similarity_score result) (Fin (1 # 100)))
            (map (Search.score_resume tokenize query) rows)) =
  length (filter (λ row, above_floor
                           (Search.calculateSimilarity tokenize (content row) query))
            rows).
Proof.
  rewrite length_filter_map. f_equal.
  apply list_filter_iff. intros row. simpl. unfold above_floor.
  by rewrite Is_true_true.
Qed.

Lemma rank_length_le query kNum rows :
  length (Search.rank tokenize query kNum rows) <=
  length (filter (λ row, above_floor
                           (Search.calculateSimilarity tokenize (content row) query))
            rows).
Proof.
  unfold Search.rank.
  etrans; [apply slice0_length_le|]. by rewrite sort_length, floor_count.
Qed.

Lemma similarity_sizes (text1 text2 : string) :
  ∃ n d, n <= d ∧
    Search.calculateSimilarity tokenize text1 text2 = num_div (of_nat n) (of_nat d).
Proof.
  rewrite calculateSimilarity_jaccard. cbv zeta.
  eexists _, _. split; [|reflexivity].
  apply subseteq_size.
  etrans; [apply intersection_subseteq_l | apply union_subseteq_l].
Qed.

End SearchFacts.

(** A quotient of lengths [n <= d] that exceeds a finite bound is a
    finite number of the unit interval. *)
Lemma bounded_ratio_in_unit (n d : nat) (b : Q) :
  n <= d → num_gt (num_div (of_nat n) (of_nat d)) (Fin b) = true →
  in_unit_interval (num_div (of_nat n) (of_nat d)).
Proof.
  intros Hle. rewrite num_div_lengths.
  destruct d as [|d].
  - destruct n; [discriminate|lia].
  - intros _. eexists. split; [reflexivity|]. apply ratio_in_unit; lia.
Qed.

(** C4 (as the code has it).  The results of a search are at most as many
    as the candidates above the 0.01 floor, each of them is above the
    floor, and when the requested [k] is a non-negative integer they are
    at most [k]. *)
Theorem search_results_bounded
    (tokenize : string → list string) (u : user) (query : string)
    (k : body_number) (db : Search.database) (read write : db_outcome)
    (q : string) (results : list Search.search_result) (total : nat)
    (db' : Search.database) (log : list string) :
  Search.post_ask tokenize u query k db read write
    = (Search.Json q results total, db', log) →
  (∀ z, k = Integral z → (0 <= z)%Z → (Z.of_nat (length results) <= z)%Z) ∧
  length results <=
    length (filter (λ row, above_floor
                             (Search.calculateSimilarity tokenize (content row) query))
              (Search.visible_resumes u db)) ∧
  Forall (λ r, above_floor (Search.similarity_score r)) results.
Proof.
  intros H. apply post_ask_Json in H as (_ & _ & _ & _ & ->).
  split; [|split].
  - intros z -> Hz. cbn [or_default]. unfold Search.rank.
    etrans; [apply capped_slice_length; [done|lia]|]. lia.
  - apply rank_length_le.
  - apply Forall_forall. intros r Hr. by apply rank_elem in Hr as [? _].
Qed.

Lemma search_results_bounded_witness :
  ∃ results,
    (Z.of_nat (length results) <= 1)%Z ∧
    Forall (λ r, above_floor (Search.similarity_score r)) results ∧
    length results = 1.
Proof.
  eexists. split; [|split].
  - refine (proj1 (search_results_bounded Search.tokenize Sample.recruiter "python"
                     (Integral 1) (Sample.search_db 2) DbOk DbOk _ _ _ _ _ _)
              1%Z eq_refl _); [vm_compute; reflexivity | lia].
  - refine (proj2 (proj2 (search_results_bounded Search.tokenize Sample.recruiter
                     "python" (Integral 1) (Sample.search_db 2) DbOk DbOk _ _ _ _ _ _))).
    vm_compute. reflexivity.
  - reflexivity.
Defined.

(** C4, refuted as stated: with [k = -1] and two resumes above the floor
    the search returns one result, which is more than [k]. *)
Lemma search_negative_k_exceeds_k :
  ∃ results db' log,
    Search.post_ask Search.tokenize Sample.recruiter "python" (Integral (-1))
      (Sample.search_db 2) DbOk DbOk
      = (Search.Json "python" results 1, db', log) ∧
    length results = 1 ∧
    ¬ (Z.of_nat (length results) <= -1)%Z.
Proof.
  eexists _, _, _. split; [vm_compute; reflexivity|].
  split; [reflexivity|]. simpl. lia.
Qed.

(** C10, on the failing input: with [k = -1] and twelve resumes above the
    floor, [Math.min(-1, 10)] is -1 and [slice(0, -1)] drops the last
    result only, so eleven results are returned. *)
Theorem search_negative_k_returns_eleven :
  ∃ results db' log,
    Search.post_ask Search.tokenize Sample.recruiter "python" (Integral (-1))
      (Sample.search_db 12) DbOk DbOk
      = (Search.Json "python" results 11, db', log) ∧
    length results = 11.
Proof.
  eexists _, _, _. split; [vm_compute; reflexivity|]. reflexivity.
Qed.

(** In general a negative [k], above [- 2 ^ 53], drops the last [-k] of
    the results above the floor and returns all the others. *)
Lemma search_negative_k_length
    (tokenize : string → list string) (u : user) (query : string) (z : Z)
    (db : Search.database) (read write : db_outcome)
    (q : string) (results : list Search.search_result) (total : nat)
    (db' : Search.database) (log : list string) :
  Search.post_ask tokenize u query (Integral z) db read write
    = (Search.Json q results total, db', log) →
  (- 2 ^ 53 < z < 0)%Z →
  Z.of_nat (length results) =
    Z.max (Z.of_nat (length (filter
             (λ row, above_floor
                       (Search.calculateSimilarity tokenize (content row) query))
             (Search.visible_resumes u db))) + z) 0.
Proof.
  intros H Hz. apply post_ask_Json in H as (_ & _ & _ & _ & ->).
  cbn [or_default]. unfold Search.rank.
  rewrite negative_slice_length by lia.
  by rewrite sort_length, floor_count.
Qed.

(** The cap of ten holds for every other [k]: absent, not numeric, or a
    non-negative integer such as 100. *)
Lemma search_cap_when_k_not_negative
    (tokenize : string → list string) (u : user) (query : string)
    (k : body_number) (db : Search.database) (read write : db_outcome)
    (q : string) (results : list Search.search_result) (total : nat)
    (db' : Search.database) (log : list string) :
  Search.post_ask tokenize u query k db read write
    = (Search.Json q results total, db', log) →
  (∀ z, k = Integral z → (0 <= z)%Z) →
  length results <= 10.
Proof.
  intros H Hk. apply post_ask_Json in H as (_ & _ & _ & _ & ->).
  unfold Search.rank. destruct k as [|z|]; cbn [or_default].
  - match goal with |- length (slice0 ?l _) <= _ =>
      pose proof (capped_slice_length l 3 10) end. lia.
  - specialize (Hk z eq_refl).
    match goal with |- length (slice0 ?l _) <= _ =>
      pose proof (capped_slice_length l z 10) end. lia.
  - change (Math_min (parseInt NotNumeric) (of_Z 10)) with NaN.
    rewrite slice0_NaN. simpl. lia.
Qed.

(** ** Snippets *)

Section TrimFacts.

Lemma trimStart_clean s : starts_clean (trimStart s).
Proof.
  induction s as [|c s IH]; simpl; [done|].
  destruct (is_space c) eqn:E; [done|]. simpl. done.
Qed.

Lemma trimStart_id s : starts_clean s → trimStart s = s.
Proof. destruct s as [|c s]; simpl; [done|]. by intros ->. Qed.

Lemma trimEnd_clean s : starts_clean s → starts_clean (trimEnd s).
Proof.
  destruct s as [|c s]; simpl; [done|]. intros Hc.
  destruct (trimEnd s); simpl; by rewrite ?Hc.
Qed.

Lemma trimEnd_idem s : trimEnd (trimEnd s) = trimEnd s.
Proof.
  induction s as [|c s IH]; simpl; [done|].
  destruct (trimEnd s) as [|d t] eqn:E.
  - destruct (is_space c) eqn:Ec; simpl; [done|]. by rewrite Ec.
  - simpl in *. by rewrite IH.
Qed.

(** Trimming a trimmed string changes nothing. *)
Lemma trim_idem s : trim (trim s) = trim s.
Proof.
  unfold trim.
  rewrite (trimStart_id (trimEnd (trimStart s))).
  - apply trimEnd_idem.
  - apply trimEnd_clean, trimStart_clean.
Qed.

End TrimFacts.

Lemma extractSnippets_elem (text query : string) (k : number) (snippet : string) :
  snippet ∈ Search.extractSnippets text query k →
  ∃ sentence, snippet = trim sentence ∧ 10 < String.length (trim sentence).
Proof.
  unfold Search.extractSnippets. intros H.
  apply list_elem_of_filter in H as [_ H].
  rewrite map_fmap in H. apply list_elem_of_fmap in H as ([t score] & -> & H).
  apply slice0_subseteq in H. rewrite sort_perm in H.
  rewrite map_fmap in H. apply list_elem_of_fmap in H as (sentence & [= -> ->] & H).
  apply list_elem_of_filter in H as [Hlen _].
  by exists sentence.
Qed.

(** C9.  [extractSnippets] returns at most [k] snippets for a requested
    count [k], and each of them has at least 10 characters after
    trimming (it is a trimmed sentence of more than 10 characters). *)
Theorem extractSnippets_bounded (text query : string) (k : nat) :
  length (Search.extractSnippets text query (of_nat k)) <= k ∧
  Forall (λ snippet, 10 <= String.length (trim snippet))
    (Search.extractSnippets text query (of_nat k)).
Proof.
  split.
  - unfold Search.extractSnippets.
    etrans; [apply length_filter|]. rewrite length_map.
    apply slice0_length_of_nat.
  - apply Forall_forall. intros snippet H.
    apply extractSnippets_elem in H as (sentence & -> & Hlen).
    rewrite trim_idem. lia.
Qed.

(** ** Job matching *)

Section SplitFacts.

Lemma toLowerCase_app (a b : string) :
  toLowerCase (a +:+ b) = toLowerCase a +:+ toLowerCase b.
Proof. induction a as [|c a IH]; simpl; [done|]. by rewrite IH. Qed.

Lemma split_cons_app (sep : ascii) (a b : string) :
  split_cons sep (a +:+ String sep b) =
    ((split_cons sep a).1, ((split_cons sep a).2 ++ split sep b)%list).
Proof.
  induction a as [|c a IH]; simpl.
  - unfold split. destruct (split_cons sep b) as [w ws].
    by rewrite Ascii.eqb_refl.
  - rewrite IH. destruct (split_cons sep a) as [w ws]. simpl.
    by destruct (Ascii.eqb c sep).
Qed.

(** Splitting a text that has a separator in the middle gives the
    pieces of the left part followed by the pieces of the right part. *)
Lemma split_app (sep : ascii) (a b : string) :
  split sep (a +:+ String sep b) = (split sep a ++ split sep b)%list.
Proof.
  unfold split at 1 2. rewrite split_cons_app.
  by destruct (split_cons sep a) as [w ws].
Qed.

Lemma keywords_app (a b : string) :
  Jobs.keywords (a +:+ " " +:+ b) = (Jobs.keywords a ++ Jobs.keywords b)%list.
Proof.
  unfold Jobs.keywords.
  change (a +:+ " " +:+ b) with (a +:+ String " " b).
  by rewrite split_app, filter_app.
Qed.

End SplitFacts.

Section RoundedScores.

Local Open Scope Q_scope.

Lemma round_one : Binary64.round 1 = Fin 1.
Proof. vm_compute. reflexivity. Qed.

Lemma round_hundred : Binary64.round (inject_Z 100) = Fin (inject_Z 100).
Proof. vm_compute. reflexivity. Qed.

Lemma two_decimals_unfold (s : Q) :
  two_decimals (Fin s) =
    match Binary64.round (s * inject_Z 100) with
    | Fin x => Binary64.round (inject_Z (Qfloor (x + (1 # 2))) / inject_Z 100)
    | other => other
    end.
Proof.
  unfold two_decimals, of_Z. cbn [num_mul binary64].
  by destruct (Binary64.round (s * inject_Z 100)).
Qed.

(** The steps of [Math.round(s * 100) / 100] for a ratio [s] of the unit
    interval: the product [x], the integer [Math.round(x)] and the
    quotient [c], each within its bounds *)
Lemma two_decimals_spec (s : Q) :
  0 <= s <= 1 →
  ∃ x c, Binary64.round (s * inject_Z 100) = Fin x ∧ 0 <= x <= inject_Z 100 ∧
         (0 <= Qfloor (x + (1 # 2)) <= 100)%Z ∧
         Binary64.round (inject_Z (Qfloor (x + (1 # 2))) / inject_Z 100) = Fin c ∧
         0 <= c <= 1 ∧
         two_decimals (Fin s) = Fin c.
Proof.
  intros [H0 H1].
  change (inject_Z 100) with 100 in *.
  destruct (round_mono (s * 100) 100 100) as (x & Ex & Hx0 & Hx1);
    [lra|lra|apply round_hundred|].
  assert (HK : (0 <= Qfloor (x + (1 # 2)) <= 100)%Z).
  { split.
    - rewrite <- (Qfloor_Z 0). apply Qfloor_resp_le. change (inject_Z 0) with 0. lra.
    - change 100%Z with (Qfloor (201 # 2)). apply Qfloor_resp_le. lra. }
  set (K := Qfloor (x + (1 # 2))) in *.
  assert (HKq : 0 <= inject_Z K / 100 ∧ inject_Z K / 100 <= 1).
  { destruct HK as [HK0 HK1]. rewrite Zle_Qle in HK0, HK1.
    change (inject_Z 0) with 0 in HK0. change (inject_Z 100) with 100 in HK1.
    split; [apply Qle_shift_div_l|apply Qle_shift_div_r]; lra. }
  destruct (round_mono (inject_Z K / 100) 1 1) as (c & Ec & Hc0 & Hc1);
    [tauto|tauto|apply round_one|].
  exists x, c. rewrite two_decimals_unfold.
  change (inject_Z 100) with 100. rewrite Ex. fold K. by rewrite Ec.
Qed.

(** [Math.round(s * 100) / 100] keeps the order of the ratios *)
Lemma two_decimals_mono (s1 s2 c2 : Q) :
  0 <= s1 → s1 <= s2 → s2 <= 1 → two_decimals (Fin s2) = Fin c2 →
  ∃ c1, two_decimals (Fin s1) = Fin c1 ∧ 0 <= c1 ∧ c1 <= c2.
Proof.
  intros H0 Hle H1 E2.
  destruct (two_decimals_spec s2 ltac:(lra)) as (x2 & c2' & Ex2 & Hx2 & HK2 & Ec2 & Hc2 & E2').
  assert (c2' = c2) by congruence. subst c2'.
  destruct (two_decimals_spec s1 ltac:(lra)) as (x1 & c1 & Ex1 & Hx1 & HK1 & Ec1 & Hc1 & E1).
  exists c1. split; [done|]. split; [tauto|].
  change (inject_Z 100) with 100 in *.
  destruct (round_mono (s1 * 100) (s2 * 100) x2 ltac:(lra) ltac:(lra) Ex2)
    as (x1' & Ex1' & _ & Hx).
  assert (x1' = x1) by congruence. subst x1'.
  assert (HK : (Qfloor (x1 + (1 # 2)) <= Qfloor (x2 + (1 # 2)))%Z)
    by (apply Qfloor_resp_le; lra).
  set (K1 := Qfloor (x1 + (1 # 2))) in *. set (K2 := Qfloor (x2 + (1 # 2))) in *.
  assert (HKq : 0 <= inject_Z K1 / 100 ∧ inject_Z K1 / 100 <= inject_Z K2 / 100).
  { destruct HK1 as [HK10 _]. rewrite Zle_Qle in HK10, HK.
    change (inject_Z 0) with 0 in HK10.
    split; [apply Qle_shift_div_l; lra|].
    apply Qle_shift_div_r; [lra|].
    assert (inject_Z K2 / 100 * 100 == inject_Z K2) by (field; lra). lra. }
  destruct (round_mono (inject_Z K1 / 100) (inject_Z K2 / 100) c2) as (c1' & Ec1' & _ & Hc);
    [tauto|tauto|done|].
  by assert (c1' = c1) as -> by congruence.
Qed.

End RoundedScores.

Section MatchFacts.

Variables (job : job_row) (resume : resume_row).

Let m : nat := length (Jobs.matchingKeywords job resume).
Let n : nat := length (Jobs.jobKeywords job).

Lemma matching_le : m <= n.
Proof. apply length_filter. Qed.

Lemma matchScore_value :
  Jobs.matchScore job resume =
    match n with
    | 0 => NaN
    | S _ => Binary64.round (inject_Z (Z.of_nat m) / inject_Z (Z.of_nat n))
    end.
Proof.
  unfold Jobs.matchScore. fold m n. rewrite num_div_lengths.
  pose proof matching_le. destruct n, m; try done. lia.
Qed.

(** The ratio of a job that has keywords is a double of the unit
    interval, at most [2 ^ -53] away from [m / n] *)
Lemma matchScore_unit :
  n ≠ 0 →
  ∃ s, Jobs.matchScore job resume = Fin s ∧ (0 <= s <= 1)%Q ∧
       (s - 2 ^ (-53) <= inject_Z (Z.of_nat m) / inject_Z (Z.of_nat n))%Q ∧
       (inject_Z (Z.of_nat m) / inject_Z (Z.of_nat n) <= s + 2 ^ (-53))%Q.
Proof.
  intros Hn. rewrite matchScore_value. pose proof matching_le as Hle.
  destruct n as [|n'] eqn:En; [done|].
  set (M := Z.of_nat m). set (N := Z.of_nat (S n')).
  assert (HM : (0 <= inject_Z M)%Q) by (rewrite <- (Zle_Qle 0); lia).
  assert (HN : (0 < inject_Z N)%Q) by (rewrite <- (Zlt_Qlt 0); lia).
  assert (HMN : (inject_Z M <= inject_Z N)%Q) by (rewrite <- Zle_Qle; lia).
  assert (Hr0 : (0 <= inject_Z M / inject_Z N)%Q) by (apply Qle_shift_div_l; lra).
  assert (Hr1 : (inject_Z M / inject_Z N <= 1)%Q) by (apply Qle_shift_div_r; lra).
  destruct (round_mono _ 1 1 Hr0 Hr1 round_one) as (s & Es & Hs0 & Hs1).
  destruct (round_error (inject_Z M / inject_Z N) 0 Hr0) as (s' & Es' & He1 & He2).
  { change (2 ^ (0 + 1))%Q with 2%Q. lra. }
  { lia. }
  assert (s' = s) by congruence. subst s'.
  exists s. split; [done|]. split; [done|]. done.
Qed.

Lemma match_score_two_decimals :
  Jobs.match_score (Jobs.match_resume job resume)
    = two_decimals (Jobs.matchScore job resume).
Proof. reflexivity. Qed.

End MatchFacts.

Lemma post_match_Json u job top_n db read_job read_resumes writes
    i t matches total db' log :
  Jobs.post_match u job top_n db read_job read_resumes writes
    = (Jobs.Json i t matches total, db', log) →
  ∃ j, j ∈ Jobs.jobs db ∧ i = job ∧ t = title j ∧ total = length matches ∧
    matches = Jobs.rank j (Math_min (parseInt (or_default 5 top_n)) (of_Z 20))
                (Jobs.resumes db).
Proof.
  unfold Jobs.post_match.
  destruct (negb _); [discriminate|].
  destruct read_job; [|discriminate].
  destruct (List.find _ _) as [j|] eqn:Hfind; [|discriminate].
  destruct read_resumes; [|discriminate].
  destruct (Jobs.store_matches _ _ _ _) as [rows err].
  intros [= <- <- <- <- <- <-]. exists j.
  apply find_some in Hfind as [Hin _]. apply list_elem_of_In in Hin. done.
Qed.

Lemma match_rank_elem job topN rows r :
  r ∈ Jobs.rank job topN rows →
  num_gt (Jobs.match_score r) (of_Z 0) = true ∧
  ∃ resume, resume ∈ rows ∧ r = Jobs.match_resume job resume.
Proof.
  unfold Jobs.rank. intros Hr.
  apply slice0_subseteq in Hr. rewrite sort_perm in Hr.
  apply list_elem_of_filter in Hr as [Hgt Hr].
  split; [by apply Is_true_true|].
  rewrite map_fmap in Hr. apply list_elem_of_fmap in Hr as (resume & -> & Hin).
  by exists resume.
Qed.

Section RoundedRatio.

Local Open Scope Q_scope.

(** [Math.round] of a product [x] that is at most [d] away from
    [100 * m / n], for a [d] below [1 / (2 * n)]: the exact rounding, or
    one less when [100 * m / n] is a tie *)
Lemma rounded_percent (m n : Z) (x d : Q) :
  (0 < n)%Z →
  x - d <= 100 * (inject_Z m / inject_Z n) →
  100 * (inject_Z m / inject_Z n) <= x + d →
  0 <= d → d * (2 * inject_Z n) < 1 →
  if percent_tie m n
  then Qfloor (x + (1 # 2)) = percent_half_up m n ∨
       Qfloor (x + (1 # 2)) = (percent_half_up m n - 1)%Z
  else Qfloor (x + (1 # 2)) = percent_half_up m n.
Proof.
  intros Hn Hlo Hhi Hd Hsmall. unfold percent_tie, percent_half_up.
  pose proof (Z.div_mod (200 * m + n) (2 * n) ltac:(lia)) as Hdm.
  pose proof (Z.mod_pos_bound (200 * m + n) (2 * n) ltac:(lia)) as [Hr0 Hr1].
  set (R := ((200 * m + n) / (2 * n))%Z) in *.
  set (r := ((200 * m + n) mod (2 * n))%Z) in *.
  pose proof (floor_bounds (x + (1 # 2))) as [Hf1 Hf2].
  set (K := Qfloor (x + (1 # 2))) in *.
  assert (HN : 0 < inject_Z n) by (rewrite <- (Zlt_Qlt 0); lia).
  assert (Hq : inject_Z r == 200 * inject_Z m + inject_Z n - 2 * inject_Z n * inject_Z R).
  { assert (E : r = (200 * m + n - 2 * n * R)%Z) by lia. rewrite E.
    unfold Zminus. rewrite !inject_Z_plus, inject_Z_opp, !inject_Z_mult.
    change (inject_Z 200) with 200. change (inject_Z 2) with 2. ring. }
  set (w := inject_Z r / (2 * inject_Z n)).
  assert (Hw : w * (2 * inject_Z n) == inject_Z r) by (subst w; field; lra).
  assert (Hsum : 100 * (inject_Z m / inject_Z n) + (1 # 2) == inject_Z R + w).
  { subst w. rewrite Hq. field. lra. }
  pose proof Hr0 as Hr0z. pose proof Hr1 as Hr1z.
  rewrite Zle_Qle in Hr0. rewrite Zlt_Qlt, inject_Z_mult in Hr1.
  change (inject_Z 0) with 0 in Hr0. change (inject_Z 2) with 2 in Hr1.
  set (v := 1 / (2 * inject_Z n)).
  assert (Hv : v * (2 * inject_Z n) == 1) by (subst v; field; lra).
  assert (Hdv : d < v).
  { apply Qnot_le_lt. intros Hle.
    assert (v * (2 * inject_Z n) <= d * (2 * inject_Z n))
      by (apply Qmult_le_compat_r; lra). lra. }
  assert (Hv2 : v <= 1 # 2).
  { apply Qnot_lt_le. intros Hlt.
    assert (1 <= inject_Z n) by (rewrite <- (Zle_Qle 1); lia).
    assert ((1 # 2) * (2 * inject_Z n) < v * (2 * inject_Z n))
      by (apply Qmult_lt_compat_r; lra). lra. }
  assert (Hw0 : 0 <= w).
  { apply Qnot_lt_le. intros Hlt.
    assert (w * (2 * inject_Z n) < 0 * (2 * inject_Z n))
      by (apply Qmult_lt_compat_r; lra). lra. }
  destruct (Z.eqb_spec r 0) as [Hz|Hnz].
  - assert (Hw1 : w == 0).
    { subst w. rewrite Hz. change (inject_Z 0) with 0. field. lra. }
    assert (H1 : inject_Z K < inject_Z (R + 1)) by (rewrite inject_Z_plus; change (inject_Z 1) with 1; lra).
    assert (H2 : inject_Z (R - 2) < inject_Z K).
    { unfold Zminus. rewrite inject_Z_plus. change (inject_Z (- (2))) with (-2). lra. }
    rewrite <- Zlt_Qlt in H1, H2. lia.
  - assert (Hwv : v <= w).
    { apply Qnot_lt_le. intros Hlt.
      assert (1 <= inject_Z r) by (rewrite <- (Zle_Qle 1); lia).
      assert (w * (2 * inject_Z n) < v * (2 * inject_Z n))
        by (apply Qmult_lt_compat_r; lra). lra. }
    assert (Hw1 : w <= 1 - v).
    { apply Qnot_lt_le. intros Hlt.
      assert (Hr : inject_Z r <= 2 * inject_Z n - 1).
      { assert (E : (r <= 2 * n - 1)%Z) by lia.
        rewrite Zle_Qle in E. unfold Zminus in E.
        rewrite inject_Z_plus, inject_Z_mult in E.
        change (inject_Z 2) with 2 in E. change (inject_Z (- (1))) with (-1) in E. lra. }
      assert ((1 - v) * (2 * inject_Z n) < w * (2 * inject_Z n))
        by (apply Qmult_lt_compat_r; lra). lra. }
    assert (H1 : inject_Z K < inject_Z (R + 1)) by (rewrite inject_Z_plus; change (inject_Z 1) with 1; lra).
    assert (H2 : inject_Z (R - 1) < inject_Z K).
    { unfold Zminus. rewrite inject_Z_plus. change (inject_Z (- (1))) with (-1). lra. }
    rewrite <- Zlt_Qlt in H1, H2. lia.
Qed.

End RoundedRatio.

(** C2 (as the code has it).  The returned [match_score] is
    [Math.round(matchScore * 100) / 100] in binary64: NaN for a job
    without keywords, and otherwise the double nearest to [K / 100] for an
    integer [K] from 0 to 100.  For a job of fewer than 2^32 keywords, as
    many as an array can hold, [K] is [100 * m / n] rounded to the nearest
    integer; only when [100 * m / n] lies exactly halfway between two
    integers can [K] be the lower one instead of the upper one.  The job
    keywords are the pieces longer than 3 characters of the lower-cased
    title, description and requirements cut at each space, in order,
    every occurrence kept. *)
Theorem match_score_is_rounded_ratio (job : job_row) (resume : resume_row) :
  let m := Z.of_nat (length (Jobs.matchingKeywords job resume)) in
  let n := Z.of_nat (length (Jobs.jobKeywords job)) in
  (n = 0%Z → Jobs.match_score (Jobs.match_resume job resume) = NaN) ∧
  ((0 < n)%Z →
   ∃ K : Z,
     Jobs.match_score (Jobs.match_resume job resume)
       = binary64 (num_div (of_Z K) (of_Z 100)) ∧
     (0 <= K <= 100)%Z ∧
     ((n < 2 ^ 32)%Z →
      if percent_tie m n
      then K = percent_half_up m n ∨ K = (percent_half_up m n - 1)%Z
      else K = percent_half_up m n)) ∧
  Jobs.jobKeywords job =
    (Jobs.keywords (toLowerCase (title job))
     ++ Jobs.keywords (toLowerCase (description job))
     ++ Jobs.keywords (toLowerCase (requirements job)))%list ∧
  Forall (λ w, 3 < String.length w) (Jobs.jobKeywords job).
Proof.
  cbv zeta. split_and!.
  - intros Hn. rewrite match_score_two_decimals, matchScore_value.
    destruct (length (Jobs.jobKeywords job)); [done|lia].
  - intros Hn.
    destruct (matchScore_unit job resume ltac:(lia)) as (s & Es & Hs & He1 & He2).
    destruct (two_decimals_spec s Hs) as (x & c & Ex & Hx & HK & Ec & Hc & E).
    exists (Qfloor (x + (1 # 2))). split_and!; try tauto.
    + rewrite match_score_two_decimals, Es, E. by rewrite <- Ec.
    + intros Hsmall.
      set (M := Z.of_nat (length (Jobs.matchingKeywords job resume))) in *.
      set (N := Z.of_nat (length (Jobs.jobKeywords job))) in *.
      destruct (round_error (s * inject_Z 100) 6) as (x' & Ex' & Hx1 & Hx2).
      { change (inject_Z 100) with 100%Q. lra. }
      { change (2 ^ (6 + 1))%Q with 128%Q. change (inject_Z 100) with 100%Q. lra. }
      { lia. }
      assert (x' = x) by congruence. subst x'.
      change (2 ^ (6 - 53))%Q with (1 # 140737488355328)%Q in Hx1, Hx2.
      change (2 ^ (-53))%Q with (1 # 9007199254740992)%Q in He1, He2.
      change (inject_Z 100) with 100%Q in Hx1, Hx2.
      assert (HN : (0 < inject_Z N < 4294967296)%Q).
      { split; [rewrite <- (Zlt_Qlt 0); lia|].
        change 4294967296%Q with (inject_Z (2 ^ 32)). by rewrite <- Zlt_Qlt. }
      apply (rounded_percent M N x (164 # 9007199254740992)); try done; lra.
  - unfold Jobs.jobKeywords, Jobs.jobText.
    rewrite !toLowerCase_app. cbn [toLowerCase].
    change (lower_char " ") with " "%char.
    change (String " " EmptyString) with " ".
    by rewrite !keywords_app.
  - apply Forall_forall. intros w Hw.
    by apply list_elem_of_filter in Hw as [? _].
Qed.

(** C2, refuted as stated: one keyword of three matches, and the returned
    score is the double 0.33, not the double 1/3. *)
Lemma match_score_not_exact_ratio :
  length (Jobs.matchingKeywords Sample.job3 (Sample.resume 1 "Python")) = 1 ∧
  length (Jobs.jobKeywords Sample.job3) = 3 ∧
  Jobs.match_score (Jobs.match_resume Sample.job3 (Sample.resume 1 "Python"))
    = literal (33 # 100) ∧
  literal (33 # 100) ≠ binary64 (num_div (of_Z 1) (of_Z 3)).
Proof.
  split; [vm_compute; reflexivity|]. split; [vm_compute; reflexivity|].
  split; [vm_compute; reflexivity|]. vm_compute. discriminate.
Qed.

(** A tie that goes down: 23 of the 40 keywords match, [100 * 23 / 40] is
    57.5, but the product of the doubles is 57.49999999999999 and the
    score is 0.57. *)
Lemma match_score_tie_goes_down :
  let job := Sample.job_of 23 17 in
  let resume := Sample.resume 1 "Experienced Python developer" in
  length (Jobs.matchingKeywords job resume) = 23 ∧
  length (Jobs.jobKeywords job) = 40 ∧
  percent_tie 23 40 = true ∧ percent_half_up 23 40 = 58%Z ∧
  Jobs.match_score (Jobs.match_resume job resume) = literal (57 # 100).
Proof. cbv zeta. split_and!; vm_compute; reflexivity. Qed.

(** A tie that goes up: 1 of 8 keywords gives 12.5 and the score 0.13. *)
Lemma match_score_tie_goes_up :
  let job := Sample.job_of 1 7 in
  let resume := Sample.resume 1 "Experienced Python developer" in
  length (Jobs.matchingKeywords job resume) = 1 ∧
  length (Jobs.jobKeywords job) = 8 ∧
  percent_tie 1 8 = true ∧ percent_half_up 1 8 = 13%Z ∧
  Jobs.match_score (Jobs.match_resume job resume) = literal (13 # 100).
Proof. cbv zeta. split_and!; vm_compute; reflexivity. Qed.

(** The literals [0.3] and [0.1] of the source *)
Lemma literal_strong :
  literal (3 # 10) = Fin (5404319552844595 # 18014398509481984).
Proof. vm_compute. reflexivity. Qed.

Lemma literal_moderate :
  literal (1 # 10) = Fin (3602879701896397 # 36028797018963968).
Proof. vm_compute. reflexivity. Qed.

Section TierFacts.

Variables (job : job_row) (resume : resume_row).

Let r := Jobs.match_resume job resume.
Let ratio := Jobs.matchScore job resume.

Lemma recommendation_cases :
  (Jobs.recommendation r = Jobs.strong ↔ num_gt ratio (literal (3 # 10)) = true) ∧
  (Jobs.recommendation r = Jobs.moderate ↔
     num_gt ratio (literal (1 # 10)) = true ∧ num_gt ratio (literal (3 # 10)) = false) ∧
  (Jobs.recommendation r = Jobs.weak ↔ num_gt ratio (literal (1 # 10)) = false).
Proof.
  subst r ratio. unfold Jobs.match_resume. cbn [Jobs.recommendation].
  destruct (num_gt (Jobs.matchScore job resume) (literal (3 # 10))) eqn:E3;
    destruct (num_gt (Jobs.matchScore job resume) (literal (1 # 10))) eqn:E1;
    repeat split; try done; try (intros [? ?]; done).
  (* the ratio cannot exceed 0.3 without exceeding 0.1 *)
  all: rewrite literal_strong in E3; rewrite literal_moderate in E1;
    apply num_gt_Fin_inv in E3 as [E3|(a & E3 & Ha)]; rewrite E3 in E1;
    [discriminate|]; apply num_gt_Fin_false in E1; lra.
Qed.

(** The rounded score exceeds a bound that [Math.round(x * 100) / 100]
    leaves in place only when the ratio itself does. *)
Lemma rounded_above (b : Q) :
  (0 <= b <= 1)%Q → two_decimals (Fin b) = Fin b →
  num_gt (Jobs.match_score r) (Fin b) = true →
  num_gt ratio (Fin b) = true.
Proof.
  intros Hb Hfix. subst r ratio. rewrite match_score_two_decimals.
  destruct (Nat.eq_dec (length (Jobs.jobKeywords job)) 0) as [Hn|Hn].
  - rewrite matchScore_value, Hn. done.
  - destruct (matchScore_unit job resume Hn) as (s & -> & Hs & _).
    intros Hgt. apply num_gt_Fin. apply Qnot_le_lt. intros Hle.
    destruct (two_decimals_mono s b b) as (c & Ec & _ & Hc); [tauto|done|tauto|done|].
    rewrite Ec in Hgt. apply num_gt_Fin in Hgt. lra.
Qed.

End TierFacts.

Section ThresholdFacts.

Variables (job : job_row) (resume : resume_row).

Let m : Z := Z.of_nat (length (Jobs.matchingKeywords job resume)).
Let n : Z := Z.of_nat (length (Jobs.jobKeywords job)).

(** Below [2 ^ 32] keywords the comparison of the double ratio with the
    double of [t / 10] decides as the comparison of the exact values *)
Lemma ratio_above_tenths (t : Z) (l : Q) :
  literal (t # 10) = Fin l →
  (l - 2 ^ (-53) <= t # 10)%Q → ((t # 10) <= l + 2 ^ (-53))%Q →
  (n < 2 ^ 32)%Z →
  num_gt (Jobs.matchScore job resume) (Fin l) = true ↔ (t * n < 10 * m)%Z.
Proof.
  intros Hl Hlo Hhi Hn.
  destruct (Nat.eq_dec (length (Jobs.jobKeywords job)) 0) as [Hn0|Hn0].
  { pose proof (matching_le job resume) as Hle.
    rewrite matchScore_value, Hn0. subst m n. rewrite Hn0 in *.
    split; [done|lia]. }
  destruct (matchScore_unit job resume Hn0) as (s & Es & Hs & Hs1 & Hs2).
  fold m n in Hs1, Hs2.
  assert (Ev : Jobs.matchScore job resume
                = Binary64.round (inject_Z m / inject_Z n)).
  { rewrite matchScore_value. subst m n.
    destruct (length (Jobs.jobKeywords job)); done. }
  assert (HN : (0 < inject_Z n)%Q) by (rewrite <- (Zlt_Qlt 0); subst n; lia).
  assert (HN32 : (inject_Z n < inject_Z (2 ^ 32))%Q) by (rewrite <- Zlt_Qlt; lia).
  assert (HM : (0 <= inject_Z m)%Q) by (rewrite <- (Zle_Qle 0); subst m; lia).
  change (2 ^ (-53))%Q with (1 # 9007199254740992)%Q in *.
  rewrite Es, num_gt_Fin. split.
  - intros Hgt. apply Z.nle_gt. intros Hle.
    assert (Hq : (inject_Z m / inject_Z n <= t # 10)%Q).
    { apply Qle_shift_div_r; [done|].
      unfold Qle, Qmult, inject_Z. cbn [Qnum Qden]. lia. }
    assert (H0 : (0 <= inject_Z m / inject_Z n)%Q) by (apply Qle_shift_div_l; lra).
    destruct (round_mono _ _ l H0 Hq Hl) as (s' & Es' & _ & Hle').
    rewrite Ev in Es. assert (s' = s) by congruence. subst s'. lra.
  - intros Hlt.
    assert (Hq : ((t # 10) + 1 / (10 * inject_Z n) <= inject_Z m / inject_Z n)%Q).
    { apply Qle_shift_div_l; [done|].
      assert (E : (((t # 10) + 1 / (10 * inject_Z n)) * inject_Z n
                     == inject_Z (t * n + 1) / 10)%Q).
      { rewrite inject_Z_plus, inject_Z_mult, (Qmake_Qdiv t 10).
        change (inject_Z (Z.pos 10)) with 10%Q. change (inject_Z 1) with 1%Q.
        field. lra. }
      rewrite E. apply Qle_shift_div_r; [done|].
      change 10%Q with (inject_Z 10).
      rewrite <- inject_Z_mult, <- Zle_Qle. lia. }
    assert (Hg : ((1 # 42949672960) < 1 / (10 * inject_Z n))%Q).
    { apply Qlt_shift_div_l; [lra|].
      change (inject_Z (2 ^ 32)) with (4294967296 # 1)%Q in HN32. lra. }
    lra.
Qed.

End ThresholdFacts.

(** C5 (as the code has it).  Every returned match has a [match_score]
    above 0, and its recommendation is decided by the ratio of matched to
    job keywords before rounding: strong exactly when that ratio exceeds
    0.3, moderate exactly when it exceeds 0.1 but not 0.3, weak otherwise.
    The ratio and the two bounds are doubles; for a job of fewer than
    [2 ^ 32] keywords the ratio exceeds 0.3 exactly when 10 times the
    matched keywords exceed 3 times the job keywords, and 0.1 exactly
    when 10 times the matched keywords exceed the job keywords.  The
    returned [match_score] is [Math.round(ratio * 100) / 100]; a score
    above 0.3 is always strong and a score above 0.1 never weak. *)
Theorem recommendation_follows_ratio
    (u : user) (job : Z) (top_n : body_number) (db : Jobs.database)
    (read_job read_resumes : db_outcome) (writes : nat → db_outcome)
    (i : Z) (t : string) (matches : list Jobs.match_result) (total : nat)
    (db' : Jobs.database) (log : list string) (r : Jobs.match_result) :
  Jobs.post_match u job top_n db read_job read_resumes writes
    = (Jobs.Json i t matches total, db', log) →
  r ∈ matches →
  num_gt (Jobs.match_score r) (of_Z 0) = true ∧
  ∃ j resume,
    j ∈ Jobs.jobs db ∧ resume ∈ Jobs.resumes db ∧ r = Jobs.match_resume j resume ∧
    let ratio := Jobs.matchScore j resume in
    (Jobs.recommendation r = Jobs.strong ↔ num_gt ratio (literal (3 # 10)) = true) ∧
    (Jobs.recommendation r = Jobs.moderate ↔
       num_gt ratio (literal (1 # 10)) = true ∧
       num_gt ratio (literal (3 # 10)) = false) ∧
    (Jobs.recommendation r = Jobs.weak ↔ num_gt ratio (literal (1 # 10)) = false) ∧
    (num_gt (Jobs.match_score r) (literal (3 # 10)) = true →
       Jobs.recommendation r = Jobs.strong) ∧
    (num_gt (Jobs.match_score r) (literal (1 # 10)) = true →
       Jobs.recommendation r ≠ Jobs.weak) ∧
    let m := Z.of_nat (length (Jobs.matchingKeywords j resume)) in
    let n := Z.of_nat (length (Jobs.jobKeywords j)) in
    ((n < 2 ^ 32)%Z →
       (num_gt ratio (literal (3 # 10)) = true ↔ (3 * n < 10 * m)%Z) ∧
       (num_gt ratio (literal (1 # 10)) = true ↔ (1 * n < 10 * m)%Z)).
Proof.
  intros H Hr. apply post_match_Json in H as (j & Hj & _ & _ & _ & ->).
  apply match_rank_elem in Hr as (Hpos & resume & Hres & ->).
  split; [done|]. exists j, resume.
  destruct (recommendation_cases j resume) as (Hs & Hm & Hw).
  cbv zeta. split_and!; try done.
  - intros Hgt. apply Hs. rewrite literal_strong in *.
    apply rounded_above; [split; by compute|by vm_compute|done].
  - intros Hgt Hweak. apply Hw in Hweak. rewrite literal_moderate in *.
    apply rounded_above in Hgt; [congruence|split; by compute|by vm_compute].
  - intros Hn. split.
    + rewrite literal_strong.
      apply (ratio_above_tenths j resume 3 _ literal_strong); [by compute..|done].
    + rewrite literal_moderate.
      apply (ratio_above_tenths j resume 1 _ literal_moderate); [by compute..|done].
Qed.

Lemma recommendation_follows_ratio_witness :
  ∃ r, num_gt (Jobs.match_score r) (of_Z 0) = true ∧
       Jobs.recommendation r = Jobs.strong.
Proof.
  eexists. split.
  - refine (proj1 (recommendation_follows_ratio Sample.recruiter 1 Absent
                     (Sample.jobs_db Sample.job33 1) DbOk DbOk (λ _, DbOk)
                     _ _ [_] _ _ _ _ _ _)).
    + vm_compute. reflexivity.
    + apply list_elem_of_here.
  - reflexivity.
Defined.

(** C5, refuted as stated: ten of the 33 job keywords match, the ratio
    10/33 exceeds 0.3 and the recommendation is strong, but the returned
    [match_score] is 0.3, which does not exceed 0.3. *)
Lemma strong_with_score_not_above_threshold :
  ∃ r db' log,
    Jobs.post_match Sample.recruiter 1 Absent (Sample.jobs_db Sample.job33 1)
      DbOk DbOk (λ _, DbOk)
      = (Jobs.Json 1 "python" [r] 1, db', log) ∧
    Jobs.recommendation r = Jobs.strong ∧
    num_gt (Jobs.match_score r) (literal (3 # 10)) = false.
Proof.
  eexists _, _, _. split; [vm_compute; reflexivity|].
  split; reflexivity.
Qed.

(** ** Scores *)

Lemma match_score_in_unit (job : job_row) (resume : resume_row) :
  num_gt (Jobs.match_score (Jobs.match_resume job resume)) (of_Z 0) = true →
  in_unit_interval (Jobs.match_score (Jobs.match_resume job resume)).
Proof.
  rewrite match_score_two_decimals.
  destruct (Nat.eq_dec (length (Jobs.jobKeywords job)) 0) as [Hn|Hn].
  - rewrite matchScore_value, Hn. done.
  - destruct (matchScore_unit job resume Hn) as (s & -> & Hs & _). intros _.
    destruct (two_decimals_spec s Hs) as (x & c & _ & _ & _ & _ & Hc & ->).
    by exists c.
Qed.

(** C3.  Every result a search returns has a [similarity_score] in
    [0,1], and every result a job match returns has a [match_score] in
    [0,1]: a NaN score, which texts without keywords produce, never
    passes the filter of either handler. *)
Theorem returned_scores_in_unit_interval :
  (∀ (tokenize : string → list string) (u : user) (query : string)
     (k : body_number) (db : Search.database) (read write : db_outcome)
     (q : string) (results : list Search.search_result) (total : nat)
     (db' : Search.database) (log : list string) (r : Search.search_result),
     Search.post_ask tokenize u query k db read write
       = (Search.Json q results total, db', log) →
     r ∈ results → in_unit_interval (Search.similarity_score r)) ∧
  (∀ (u : user) (job : Z) (top_n : body_number) (db : Jobs.database)
     (read_job read_resumes : db_outcome) (writes : nat → db_outcome)
     (i : Z) (t : string) (matches : list Jobs.match_result) (total : nat)
     (db' : Jobs.database) (log : list string) (r : Jobs.match_result),
     Jobs.post_match u job top_n db read_job read_resumes writes
       = (Jobs.Json i t matches total, db', log) →
     r ∈ matches → in_unit_interval (Jobs.match_score r)).
Proof.
  split.
  - intros * H Hr. apply post_ask_Json in H as (_ & _ & _ & _ & ->).
    apply rank_elem in Hr as (Hgt & row & _ & ->).
    unfold above_floor in Hgt. cbn [Search.score_resume Search.similarity_score] in *.
    destruct (similarity_sizes tokenize (content row) query) as (n & d & Hle & E).
    rewrite E in *. by apply bounded_ratio_in_unit in Hgt.
  - intros * H Hr. apply post_match_Json in H as (j & _ & _ & _ & _ & ->).
    apply match_rank_elem in Hr as (Hgt & resume & _ & ->).
    by apply match_score_in_unit.
Qed.

Lemma returned_scores_in_unit_interval_witness :
  (∃ r : Search.search_result, in_unit_interval (Search.similarity_score r)) ∧
  (∃ r : Jobs.match_result, in_unit_interval (Jobs.match_score r)).
Proof.
  split; eexists.
  - refine (proj1 returned_scores_in_unit_interval Search.tokenize Sample.recruiter
              "python" Absent (Sample.search_db 1) DbOk DbOk _ [_] _ _ _ _ _ _).
    + vm_compute. reflexivity.
    + apply list_elem_of_here.
  - refine (proj2 returned_scores_in_unit_interval Sample.recruiter 1%Z Absent
              (Sample.jobs_db Sample.job3 1) DbOk DbOk (λ _, DbOk)
              _ _ [_] _ _ _ _ _ _).
    + vm_compute. reflexivity.
    + apply list_elem_of_here.
Defined.

(** ** Failures of the audit writes *)

Lemma store_matches_error job matches start writes i e :
  start <= i < start + length matches →
  writes i = DbError e →
  ∃ e', (Jobs.store_matches job matches start writes).2 = Some e'.
Proof.
  revert start. induction matches as [|m rest IH]; intros start Hi Hw; simpl in *.
  - lia.
  - destruct (Jobs.store_matches job rest (S start) writes) as [rows err] eqn:E.
    destruct (decide (i = start)) as [->|Hne].
    + rewrite Hw. simpl. eauto.
    + destruct (IH (S start)) as [e' He']; [lia|done|].
      rewrite E in He'. simpl in He'. subst err.
      destruct (writes start); simpl; eauto.
Qed.

(** C8.  Once the resumes are read, the response carries the ranked
    results whatever becomes of the write that follows.  A failed insert
    into [search_queries] leaves the search response unchanged and adds
    one line to the log; a failed insert into [job_matches] leaves the
    match response unchanged and adds one line to the log. *)
Theorem audit_write_failure_not_fatal :
  (∀ (tokenize : string → list string) (u : user) (query : string)
     (k : body_number) (db : Search.database) (write : db_outcome),
     query ≠ "" →
     let results :=
       Search.rank tokenize query (Math_min (parseInt (or_default 3 k)) (of_Z 10))
         (Search.visible_resumes u db) in
     (Search.post_ask tokenize u query k db DbOk write).1.1
       = Search.Json query results (length results) ∧
     ∀ e, write = DbError e →
          Search.post_ask tokenize u query k db DbOk write
            = (Search.Json query results (length results), db,
               ["Failed to cache query: " +:+ e])) ∧
  (∀ (u : user) (job : Z) (top_n : body_number) (db : Jobs.database)
     (writes : nat → db_outcome) (j : job_row),
     role u = "recruiter" ∨ role u = "admin" →
     List.find (λ j, (job_id j =? job)%Z) (Jobs.jobs db) = Some j →
     let matches :=
       Jobs.rank j (Math_min (parseInt (or_default 5 top_n)) (of_Z 20))
         (Jobs.resumes db) in
     (Jobs.post_match u job top_n db DbOk DbOk writes).1.1
       = Jobs.Json job (title j) matches (length matches) ∧
     ∀ i e, i < length matches → writes i = DbError e →
            ∃ e', (Jobs.post_match u job top_n db DbOk DbOk writes).2
                    = ["Failed to store matches: " +:+ e']).
Proof.
  split.
  - intros tokenize u query k db write Hq results.
    unfold Search.post_ask. rewrite bool_decide_eq_false_2 by done.
    fold results. split.
    + by destruct write.
    + by intros e ->.
  - intros u job top_n db writes j Hrole Hfind matches.
    unfold Jobs.post_match.
    assert (Hr : negb (bool_decide (role u = "recruiter")
                       || bool_decide (role u = "admin")) = false).
    { apply negb_false_iff, orb_true_iff.
      destruct Hrole; [left|right]; by apply bool_decide_eq_true. }
    rewrite Hr, Hfind. fold matches.
    destruct (Jobs.store_matches job matches 0 writes) as [rows err] eqn:E.
    split; [done|].
    intros i e Hi Hw.
    destruct (store_matches_error job matches 0 writes i e) as [e' He']; [lia|done|].
    rewrite E in He'. simpl in He'. subst err. by exists e'.
Qed.

Lemma audit_write_failure_not_fatal_witness :
  (let results :=
     Search.rank Search.tokenize "python" (Math_min (parseInt (Integral 3)) (of_Z 10))
       (Search.visible_resumes Sample.recruiter (Sample.search_db 1)) in
   Search.post_ask Search.tokenize Sample.recruiter "python" Absent
     (Sample.search_db 1) DbOk (DbError "SQLITE_FULL")
     = (Search.Json "python" results (length results), Sample.search_db 1,
        ["Failed to cache query: SQLITE_FULL"])) ∧
  (let matches :=
     Jobs.rank Sample.job3 (Math_min (parseInt (Integral 5)) (of_Z 20))
       (Jobs.resumes (Sample.jobs_db Sample.job3 1)) in
   (Jobs.post_match Sample.recruiter 1 Absent (Sample.jobs_db Sample.job3 1)
      DbOk DbOk (λ _, DbError "SQLITE_FULL")).1.1
     = Jobs.Json 1 "Python" matches (length matches)).
Proof.
  split.
  - refine (proj2 (proj1 audit_write_failure_not_fatal Search.tokenize
              Sample.recruiter "python" Absent (Sample.search_db 1)
              (DbError "SQLITE_FULL") _) "SQLITE_FULL" eq_refl).
    discriminate.
  - refine (proj1 (proj2 audit_write_failure_not_fatal Sample.recruiter 1%Z Absent
              (Sample.jobs_db Sample.job3 1) (λ _, DbError "SQLITE_FULL")
              Sample.job3 _ _)).
    + by left.
    + reflexivity.
Defined.

(** ** Regular expressions *)

Section MatcherFacts.

Import RegExp.
Local Open Scope list_scope.

Implicit Types (re : regexp) (prev : option ascii) (s m rest : list ascii).

Lemma last_of_nil prev : last_of prev [] = prev.
Proof. reflexivity. Qed.

Lemma last_of_cons prev c s : last_of prev (c :: s) = last_of (Some c) s.
Proof.
  unfold last_of. destruct s as [|d s]; [done|].
  change (last (c :: d :: s)) with (last (d :: s)).
  destruct (last (d :: s)) eqn:E; [done|]. by apply last_None in E.
Qed.

Lemma last_of_app prev s1 s2 : last_of prev (s1 ++ s2) = last_of (last_of prev s1) s2.
Proof.
  revert prev. induction s1 as [|c s1 IH]; intros prev; simpl; [done|].
  by rewrite !last_of_cons, IH.
Qed.

Lemma run_le cls s : run cls s <= length s.
Proof. induction s as [|c s IH]; simpl; [done|]. destruct (cls c); simpl; lia. Qed.

Lemma run_take cls s k : k <= run cls s → Forall (λ c, cls c = true) (take k s).
Proof.
  revert k. induction s as [|c s IH]; intros k Hk; simpl in *.
  - rewrite take_nil. constructor.
  - destruct k as [|k]; [constructor|]. simpl.
    destruct (cls c) eqn:E; [|lia]. constructor; [done|]. apply IH. lia.
Qed.

Lemma run_prefix cls u s :
  Forall (λ c, cls c = true) u → length u <= run cls (u ++ s).
Proof.
  induction 1 as [|c u Hc _ IH]; simpl; [lia|]. rewrite Hc. lia.
Qed.

Lemma capped_le hi n : capped hi n <= n.
Proof. destruct hi; simpl; lia. Qed.

Lemma capped_within hi n k : k <= capped hi n → within hi k.
Proof. destruct hi; simpl; [lia|done]. Qed.

Lemma within_capped hi n k : within hi k → k <= n → k <= capped hi n.
Proof. destruct hi; simpl; lia. Qed.

Lemma try_down_Some f lo count r :
  try_down f lo count = Some r →
  ∃ k, lo <= k <= lo + count ∧ f k = Some r.
Proof.
  induction count as [|count IH]; simpl.
  - destruct (f (lo + 0)) eqn:E; [|done]. intros [= <-]. exists (lo + 0). split; [lia|done].
  - destruct (f (lo + S count)) eqn:E.
    + intros [= <-]. exists (lo + S count). split; [lia|done].
    + intros H. destruct (IH H) as (k & Hk & Hf). exists k. split; [lia|done].
Qed.

Lemma try_down_None f lo count k :
  try_down f lo count = None → lo <= k <= lo + count → f k = None.
Proof.
  induction count as [|count IH]; simpl.
  - destruct (f (lo + 0)) eqn:E; [done|]. intros _ Hk.
    by replace k with (lo + 0) by lia.
  - destruct (f (lo + S count)) eqn:E; [done|]. intros H Hk.
    destruct (decide (k = lo + S count)) as [->|Hne]; [done|].
    apply IH; [done|lia].
Qed.

(** The matcher is sound: what it consumes is a match. *)
Lemma match_items_sound re prev s n :
  match_items re prev s = Some n →
  n <= length s ∧ Matches re prev (take n s) (drop n s).
Proof.
  revert prev s n. induction re as [|it re IH]; intros prev s n; simpl.
  - intros [= <-]. split; [lia|]. by rewrite take_0.
  - destruct it as [|c|cls lo hi].
    + destruct (at_boundary prev (head s)) eqn:E; [|done]. intros H.
      apply IH in H as [Hn HM]. split; [done|]. by rewrite take_drop.
    + destruct s as [|d s]; [done|].
      destruct (Ascii.eqb_spec c d) as [->|]; [|done].
      destruct (match_items re (Some d) s) as [n'|] eqn:E; [|done].
      intros [= <-]. apply IH in E as [Hn HM]. simpl. split; [lia|]. eauto.
    + destruct (Nat.ltb_spec (capped hi (run cls s)) lo) as [|Hlo]; [done|].
      intros H. apply try_down_Some in H as (k & Hk & H).
      destruct (match_items re (last_of prev (take k s)) (drop k s)) as [n'|] eqn:E;
        [|done].
      injection H as <-. apply IH in E as [Hn HM].
      assert (Hcap : k <= capped hi (run cls s)) by lia.
      pose proof (capped_le hi (run cls s)). pose proof (run_le cls s).
      rewrite length_drop in Hn. split; [lia|].
      exists (take k s), (take n' (drop k s)).
      rewrite length_take_le by lia.
      split_and!; [| apply run_take; lia | lia | by eapply capped_within | ].
      * by rewrite take_take_drop.
      * by rewrite drop_drop in HM.
Qed.

(** The matcher is complete: where a match exists, backtracking finds
    one. *)
Lemma match_items_complete re prev m rest :
  Matches re prev m rest → ∃ n, match_items re prev (m ++ rest) = Some n.
Proof.
  revert prev m. induction re as [|it re IH]; intros prev m; simpl.
  - eauto.
  - destruct it as [|c|cls lo hi].
    + intros [-> HM]. by apply IH.
    + intros (m' & -> & HM). simpl. rewrite Ascii.eqb_refl.
      destruct (IH _ _ HM) as [n ->]. simpl. eauto.
    + intros (u & m' & -> & Hu & Hlo & Hhi & HM).
      rewrite <- app_assoc.
      set (s := u ++ m' ++ rest).
      assert (Hrun : length u <= capped hi (run cls s)).
      { apply within_capped; [done|]. by apply run_prefix. }
      destruct (Nat.ltb_spec (capped hi (run cls s)) lo) as [|Hle]; [lia|].
      match goal with |- ∃ n, try_down ?f _ _ = _ =>
        destruct (try_down f lo (capped hi (run cls s) - lo)) as [r|] eqn:E end;
        [eauto|].
      eapply (try_down_None _ _ _ (length u)) in E; [|lia].
      cbv beta in E. subst s. rewrite take_app_length, drop_app_length in E.
      destruct (IH _ _ HM) as [n Hn]. rewrite Hn in E. done.
Qed.

End MatcherFacts.

Section FramingFacts.

Import RegExp.
Local Open Scope list_scope.

Implicit Types (re core : regexp) (prev : option ascii) (s m rest : list ascii).

(** Without assertions, a match does not depend on what surrounds it. *)
Lemma Matches_boundary_free re prev prev' m rest rest' :
  boundary_free re → Matches re prev m rest → Matches re prev' m rest'.
Proof.
  intros Hfree. revert prev prev' m.
  induction Hfree as [|it re Hit _ IH]; intros prev prev' m; simpl; [done|].
  destruct it as [|c|cls lo hi]; [done| |].
  - intros (m' & -> & HM). eauto.
  - intros (u & m' & -> & Hu & Hlo & Hhi & HM).
    exists u, m'. split_and!; try done. by eapply IH.
Qed.

Lemma Matches_snoc_boundary core prev m rest :
  boundary_free core →
  Matches (core ++ [WordBoundary]) prev m rest ↔
  Matches core prev m rest ∧ at_boundary (last_of prev m) (head rest) = true.
Proof.
  intros Hfree. revert prev m.
  induction Hfree as [|it core Hit _ IH]; intros prev m; simpl.
  - split.
    + intros [Hb ->]. by rewrite last_of_nil.
    + intros [-> Hb]. by rewrite last_of_nil in Hb.
  - destruct it as [|c|cls lo hi]; [done| |].
    + split.
      * intros (m' & -> & HM). apply IH in HM as [HM Hb].
        rewrite last_of_cons. eauto.
      * intros [(m' & -> & HM) Hb]. rewrite last_of_cons in Hb.
        exists m'. split; [done|]. by apply IH.
    + split.
      * intros (u & m' & -> & Hu & Hlo & Hhi & HM). apply IH in HM as [HM Hb].
        rewrite last_of_app. split; [|done]. exists u, m'. done.
      * intros [(u & m' & -> & Hu & Hlo & Hhi & HM) Hb]. rewrite last_of_app in Hb.
        exists u, m'. split_and!; try done. by apply IH.
Qed.

(** A pattern [\b core \b] matches [m] exactly when [core] matches it
    and there is a word boundary on each side of [m]. *)
Lemma Matches_framed core prev m rest :
  boundary_free core →
  Matches (WordBoundary :: core ++ [WordBoundary]) prev m rest ↔
  at_boundary prev (head (m ++ rest)) = true ∧
  Matches core None m [] ∧
  at_boundary (last_of prev m) (head rest) = true.
Proof.
  intros Hfree. cbn [Matches app]. rewrite Matches_snoc_boundary by done.
  split.
  - intros (Hb & HM & He). split_and!; try done.
    by eapply Matches_boundary_free.
  - intros (Hb & HM & He). split_and!; try done.
    by eapply Matches_boundary_free.
Qed.

Lemma Matches_alphabet re prev m rest :
  Matches re prev m rest → Forall (λ c, alphabet re c = true) m.
Proof.
  revert prev m. induction re as [|it re IH]; intros prev m; simpl.
  - intros ->. constructor.
  - assert (Hweak : ∀ l, Forall (λ c, alphabet re c = true) l →
                         Forall (λ c, accepts it c || alphabet re c = true) l).
    { intros l Hl. eapply Forall_impl; [exact Hl|].
      intros c Hc. simpl in *. rewrite Hc. apply orb_true_r. }
    destruct it as [|c|cls lo hi].
    + intros [_ HM]. apply Hweak. by eapply IH.
    + intros (m' & -> & HM). constructor.
      * simpl. by rewrite Ascii.eqb_refl.
      * apply Hweak. by eapply IH.
    + intros (u & m' & -> & Hu & _ & _ & HM). apply Forall_app. split.
      * eapply Forall_impl; [exact Hu|]. intros c Hc. simpl. by rewrite Hc.
      * apply Hweak. by eapply IH.
Qed.

End FramingFacts.

Section NoMatchFacts.

Import RegExp.
Local Open Scope list_scope.

Variable Q : regexp.

Implicit Types (prev : option ascii) (s x y : list ascii).

Lemma NoMatch_nil prev : match_items Q prev [] = None → NoMatch Q prev [].
Proof.
  intros H a b E. symmetry in E. apply app_eq_nil in E as [-> ->]. done.
Qed.

Lemma NoMatch_cons prev c s :
  match_items Q prev (c :: s) = None → NoMatch Q (Some c) s →
  NoMatch Q prev (c :: s).
Proof.
  intros H1 H2 a b E. destruct a as [|d a]; simpl in E.
  - by subst b.
  - injection E as <- ->. rewrite last_of_cons. by apply H2.
Qed.

Lemma NoMatch_app prev x y :
  (∀ a b, x = a ++ b → b ≠ [] → match_items Q (last_of prev a) (b ++ y) = None) →
  NoMatch Q (last_of prev x) y →
  NoMatch Q prev (x ++ y).
Proof.
  intros H1 H2 a b E.
  apply List.app_eq_app in E as [l [[-> ->]|[-> ->]]].
  - destruct l as [|c l].
    + rewrite app_nil_r in H2. simpl. by apply (H2 []).
    + by apply H1.
  - rewrite last_of_app. by apply H2.
Qed.

(** [test] is false exactly when there is no match. *)
Lemma test_from_false prev s : test_from Q prev s = false ↔ NoMatch Q prev s.
Proof.
  revert prev. induction s as [|c s IH]; intros prev; simpl.
  - destruct (match_items Q prev []) eqn:E.
    + split; [done|]. intros H. specialize (H [] [] eq_refl).
      rewrite last_of_nil in H. congruence.
    + split; [|done]. intros _. by apply NoMatch_nil.
  - destruct (match_items Q prev (c :: s)) eqn:E.
    + split; [done|]. intros H. specialize (H [] (c :: s) eq_refl).
      rewrite last_of_nil in H. congruence.
    + rewrite IH. split.
      * by apply NoMatch_cons.
      * intros H a b ->. specialize (H (c :: a) b eq_refl).
        by rewrite last_of_cons in H.
Qed.

End NoMatchFacts.

Lemma prefix_before {A} (m rest x y : list A) (b : A) :
  (m ++ rest = x ++ b :: y)%list → b ∉ m → ∃ z, x = (m ++ z)%list.
Proof.
  revert x. induction m as [|c m IH]; intros x E Hb; simpl in *.
  - by exists x.
  - destruct x as [|d x]; simpl in E.
    + injection E as -> _. exfalso. apply Hb. apply list_elem_of_here.
    + injection E as -> E. destruct (IH x E) as [z ->].
      * intros Hin. apply Hb. by apply list_elem_of_further.
      * by exists z.
Qed.

(** Replacing the matches of a pattern [P] by [R] and then looking for a
    pattern [Q] in the result.  Both patterns are framed by word
    boundaries; [R] begins and ends with characters that [Q] cannot
    consume, and a match of [Q] needs a character that [R] lacks. *)
Section ScanFacts.

Import RegExp.
Local Open Scope list_scope.

Variables (P Q : regexp) (R : list ascii).
Variable Qbody : list ascii → Prop.
Variables (r_first r_last : ascii) (r_tail r_init : list ascii).

Hypothesis R_first : R = r_first :: r_tail.
Hypothesis R_last : R = r_init ++ [r_last].

Hypothesis P_match : ∀ prev s n,
  match_items P prev s = Some n →
  (0 < n) ∧ (n <= length s) ∧
  at_boundary prev (head s) = true ∧
  at_boundary (last_of prev (take n s)) (head (drop n s)) = true.

Hypothesis Q_sound : ∀ prev s n,
  match_items Q prev s = Some n →
  Qbody (take n s) ∧
  at_boundary prev (head s) = true ∧
  at_boundary (last_of prev (take n s)) (head (drop n s)) = true.

Hypothesis Q_complete : ∀ prev m rest,
  Qbody m →
  at_boundary prev (head (m ++ rest)) = true →
  at_boundary (last_of prev m) (head rest) = true →
  match_items Q prev (m ++ rest) ≠ None.

Hypothesis Qbody_chars : ∀ m,
  Qbody m →
  m ≠ [] ∧ (r_first ∉ m) ∧ (r_last ∉ m) ∧ ¬ Forall (λ c, c ∈ R) m.

Implicit Types (prev : option ascii) (s m rest : list ascii).

Lemma P_no_empty_match prev : match_items P prev [] = None.
Proof.
  destruct (match_items P prev []) as [n|] eqn:E; [|done].
  apply P_match in E as (? & ? & _). simpl in *. lia.
Qed.

Lemma replace_from_nil fuel prev : replace_from fuel P R prev [] = [].
Proof. destruct fuel; simpl; by rewrite P_no_empty_match. Qed.

Lemma last_of_nonempty prev prev' m : m ≠ [] → last_of prev m = last_of prev' m.
Proof. destruct m as [|c m]; [done|]. intros _. by rewrite !last_of_cons. Qed.

Lemma head_app_nonempty m rest rest' : m ≠ [] → head (m ++ rest) = head (m ++ rest').
Proof. by destruct m. Qed.

(** The text copied in front of the first replacement is a prefix of the
    input, and the rest of the output is the replacement of the rest. *)
Lemma prefix_copy m : ∀ fuel prev s rest,
  r_first ∉ m → length s <= fuel →
  replace_from fuel P R prev s = m ++ rest →
  ∃ s', s = m ++ s' ∧
        rest = replace_from (fuel - length m) P R (last_of prev m) s'.
Proof.
  induction m as [|c m IH]; intros fuel prev s rest Hm Hfuel E.
  - exists s. simpl. by rewrite Nat.sub_0_r.
  - assert (Hc : c ≠ r_first).
    { intros ->. apply Hm, list_elem_of_here. }
    assert (Hm' : r_first ∉ m).
    { intros Hin. by apply Hm, list_elem_of_further. }
    destruct s as [|d s]; [by rewrite replace_from_nil in E|].
    destruct fuel as [|fuel]; [simpl in Hfuel; lia|].
    simpl in E, Hfuel.
    destruct (match_items P prev (d :: s)) as [[|n]|].
    + rewrite R_first in E. simpl in E. congruence.
    + rewrite R_first in E. simpl in E. congruence.
    + injection E as -> E.
      destruct (IH fuel (Some c) s rest Hm' ltac:(lia) E) as (s' & -> & Hrest).
      exists s'. split; [done|]. by rewrite last_of_cons.
Qed.

(** The output begins like the input, unless the input begins with a
    match, which begins at a word boundary. *)
Lemma head_replace_from fuel prev s :
  length s <= fuel →
  head (replace_from fuel P R prev s) = head s ∨ at_boundary prev (head s) = true.
Proof.
  intros Hfuel. destruct s as [|c s]; [left; by rewrite replace_from_nil|].
  destruct fuel as [|fuel]; [simpl in Hfuel; lia|]. simpl.
  destruct (match_items P prev (c :: s)) as [n|] eqn:E; [|by left].
  right. by apply P_match in E as (_ & _ & ? & _).
Qed.

Lemma Q_no_empty_match prev : match_items Q prev [] = None.
Proof.
  destruct (match_items Q prev []) as [n|] eqn:E; [|done].
  apply Q_sound in E as (Hb & _). rewrite take_nil in Hb.
  by apply Qbody_chars in Hb as [? _].
Qed.

(** No match of [Q] begins inside a replacement. *)
Lemma no_match_in_replacement prev a b y :
  R = a ++ b → b ≠ [] → match_items Q prev (b ++ y) = None.
Proof.
  intros ER Hb.
  destruct (match_items Q prev (b ++ y)) as [k|] eqn:E; [exfalso|done].
  apply Q_sound in E as (Hbody & _).
  apply Qbody_chars in Hbody as (_ & _ & Hlast & Hreq).
  destruct (exists_last Hb) as (b' & e & ->).
  assert (e = r_last ∧ a ++ b' = r_init) as [-> Hinit].
  { rewrite R_last, app_assoc in ER. by apply app_inj_tail in ER as [-> ->]. }
  destruct (prefix_before (take k ((b' ++ [r_last]) ++ y))
              (drop k ((b' ++ [r_last]) ++ y)) b' y r_last) as [z Hz]; [|done|].
  { by rewrite take_drop, <- app_assoc. }
  apply Hreq. apply Forall_forall. intros c Hc.
  rewrite R_last, <- Hinit, Hz.
  rewrite !elem_of_app. auto.
Qed.

(** A match of [Q] at the head of the output is a match of [Q] at the
    head of the input. *)
Lemma match_transfer fuel s prev_in prev_out k :
  length s <= fuel →
  prev_out = prev_in ∨ at_boundary prev_in (head s) = true →
  match_items Q prev_out (replace_from fuel P R prev_in s) = Some k →
  match_items Q prev_in s ≠ None.
Proof.
  intros Hfuel Hcompat E.
  apply Q_sound in E as (Hbody & Hstart & Hend).
  remember (replace_from fuel P R prev_in s) as out eqn:Eout.
  remember (take k out) as m eqn:Em.
  destruct (Qbody_chars m Hbody) as (Hne & Hfirst & _ & _).
  destruct (prefix_copy m fuel prev_in s (drop k out) Hfirst Hfuel) as (s' & Es & Hrest).
  { subst m out. by rewrite take_drop. }
  subst s. apply Q_complete; [done| |].
  - destruct Hcompat as [->|?]; [|done].
    assert (Hout : out = m ++ drop k out).
    { rewrite Em. symmetry. apply take_drop. }
    rewrite Hout in Hstart.
    by rewrite (head_app_nonempty m s' (drop k out)).
  - rewrite (last_of_nonempty prev_in prev_out) by done.
    rewrite length_app in Hfuel.
    destruct (head_replace_from (fuel - length m) (last_of prev_in m) s' ltac:(lia))
      as [Hhead|Hb].
    + by rewrite <- Hhead, <- Hrest.
    + by rewrite (last_of_nonempty prev_out prev_in).
Qed.

(** The invariant of the scan: if [Q] matches nowhere in the input where
    [P] does not, then [Q] matches nowhere in the output. *)
Lemma scan_NoMatch fuel : ∀ s prev_in prev_out,
  length s <= fuel →
  prev_out = prev_in ∨ at_boundary prev_in (head s) = true →
  (∀ a b, s = a ++ b →
          match_items P (last_of prev_in a) b = None →
          match_items Q (last_of prev_in a) b = None) →
  NoMatch Q prev_out (replace_from fuel P R prev_in s).
Proof.
  induction fuel as [|fuel IH]; intros s prev_in prev_out Hfuel Hcompat Hin.
  { destruct s; [|simpl in Hfuel; lia]. rewrite replace_from_nil.
    apply NoMatch_nil, Q_no_empty_match. }
  destruct s as [|c s].
  { rewrite replace_from_nil. apply NoMatch_nil, Q_no_empty_match. }
  pose proof (match_transfer (S fuel) (c :: s) prev_in prev_out) as Htransfer.
  simpl in Hfuel, Htransfer |- *.
  destruct (match_items P prev_in (c :: s)) as [[|n]|] eqn:EP.
  - apply P_match in EP as (? & _). lia.
  - apply P_match in EP as (_ & Hn & _ & Hend). simpl in Hn, Hend.
    rewrite last_of_cons in Hend.
    apply NoMatch_app.
    + intros a b. apply no_match_in_replacement.
    + apply IH.
      * rewrite length_drop. lia.
      * by right.
      * intros a b E. specialize (Hin (c :: take n s ++ a) b).
        rewrite last_of_cons, last_of_app in Hin. apply Hin.
        simpl. by rewrite <- app_assoc, <- E, take_drop.
  - apply NoMatch_cons.
    + destruct (match_items Q prev_out (c :: replace_from fuel P R (Some c) s))
        as [k|] eqn:EQ; [exfalso|done].
      eapply Htransfer; [lia|done|done|].
      by apply (Hin [] (c :: s)).
    + apply IH; [lia|by left|].
      intros a b ->. specialize (Hin (c :: a) b eq_refl).
      by rewrite last_of_cons in Hin.
Qed.

End ScanFacts.

Section FramedPatterns.

Import RegExp.
Local Open Scope list_scope.

Variable core : regexp.
Hypothesis core_free : boundary_free core.

Let pattern : regexp := WordBoundary :: core ++ [WordBoundary].

Lemma framed_sound prev s n :
  match_items pattern prev s = Some n →
  (n <= length s) ∧
  Matches core None (take n s) [] ∧
  at_boundary prev (head s) = true ∧
  at_boundary (last_of prev (take n s)) (head (drop n s)) = true.
Proof.
  intros H. apply match_items_sound in H as [Hn HM].
  apply Matches_framed in HM as (Hb & HM & He); [|done].
  rewrite take_drop in Hb. done.
Qed.

Lemma framed_complete prev m rest :
  Matches core None m [] →
  at_boundary prev (head (m ++ rest)) = true →
  at_boundary (last_of prev m) (head rest) = true →
  match_items pattern prev (m ++ rest) ≠ None.
Proof.
  intros HM Hb He.
  destruct (match_items_complete pattern prev m rest) as [n Hn]; [|congruence].
  by apply Matches_framed.
Qed.

(** A pattern whose core cannot match the empty text consumes at least
    one character. *)
Lemma framed_match prev s n :
  ¬ Matches core None [] [] →
  match_items pattern prev s = Some n →
  (0 < n) ∧ (n <= length s) ∧
  at_boundary prev (head s) = true ∧
  at_boundary (last_of prev (take n s)) (head (drop n s)) = true.
Proof.
  intros Hne H. apply framed_sound in H as (Hn & HM & Hb & He).
  split_and!; try done.
  destruct n; [|lia]. by rewrite take_0 in HM.
Qed.

Lemma core_avoids m (c : ascii) :
  alphabet core c = false → Matches core None m [] → c ∉ m.
Proof.
  intros Hc HM Hin. apply Matches_alphabet in HM.
  rewrite Forall_forall in HM. apply HM in Hin. congruence.
Qed.

End FramedPatterns.

Section Redaction.

Import RegExp.
Local Open Scope list_scope.

Lemma email_pattern_framed :
  Resumes.email_pattern = WordBoundary :: email_core ++ [WordBoundary].
Proof. reflexivity. Qed.

Lemma phone_pattern_framed :
  Resumes.phone_pattern = WordBoundary :: phone_core ++ [WordBoundary].
Proof. reflexivity. Qed.

Lemma email_core_free : boundary_free email_core.
Proof. repeat constructor; discriminate. Qed.

Lemma phone_core_free : boundary_free phone_core.
Proof. repeat constructor; discriminate. Qed.

(** An address contains the character [@]. *)
Lemma email_has_at m : Matches email_core None m [] → "@"%char ∈ m.
Proof.
  simpl. intros (u & m1 & -> & _ & _ & _ & m2 & -> & _).
  rewrite elem_of_app. right. apply list_elem_of_here.
Qed.

(** A phone number contains a digit. *)
Lemma phone_has_digit m :
  Matches phone_core None m [] → ∃ c, c ∈ m ∧ is_digit c = true.
Proof.
  simpl. intros (u & m1 & -> & Hu & Hlen & _).
  destruct u as [|c u]; [simpl in Hlen; lia|].
  exists c. split; [apply list_elem_of_here|]. by inversion Hu.
Qed.

Lemma email_nonempty : ¬ Matches email_core None [] [].
Proof. intros H. apply email_has_at in H. by apply elem_of_nil in H. Qed.

Lemma phone_nonempty : ¬ Matches phone_core None [] [].
Proof.
  intros H. apply phone_has_digit in H as (c & Hc & _). by apply elem_of_nil in Hc.
Qed.

Lemma email_chars (by_ : list ascii) m :
  bool_decide ("@"%char ∈ by_) = false →
  Matches email_core None m [] →
  m ≠ [] ∧ ("["%char ∉ m) ∧ ("]"%char ∉ m) ∧ ¬ Forall (λ c, c ∈ by_) m.
Proof.
  intros Hby HM. pose proof (email_has_at m HM) as Hat. split_and!.
  - intros ->. by apply elem_of_nil in Hat.
  - by apply (core_avoids email_core).
  - by apply (core_avoids email_core).
  - intros Hall. rewrite Forall_forall in Hall. apply Hall in Hat.
    by apply bool_decide_eq_false in Hby.
Qed.

Lemma phone_chars m :
  Matches phone_core None m [] →
  m ≠ [] ∧ ("["%char ∉ m) ∧ ("]"%char ∉ m) ∧ ¬ Forall (λ c, c ∈ phone_by) m.
Proof.
  intros HM. destruct (phone_has_digit m HM) as (c & Hc & Hd). split_and!.
  - intros ->. by apply elem_of_nil in Hc.
  - by apply (core_avoids phone_core).
  - by apply (core_avoids phone_core).
  - intros Hall. rewrite Forall_forall in Hall. apply Hall in Hc.
    assert (HR : Forall (λ c, is_digit c = false) phone_by).
    { unfold phone_by. simpl. repeat constructor. }
    rewrite Forall_forall in HR. apply HR in Hc. congruence.
Qed.

(** After the addresses are replaced, no address is left. *)
Lemma email_pass_clean s :
  NoMatch Resumes.email_pattern None
    (replace_from (length s) Resumes.email_pattern email_by None s).
Proof.
  apply (scan_NoMatch Resumes.email_pattern Resumes.email_pattern email_by
           (λ m, Matches email_core None m []) "[" "]" (tail email_by)
           (removelast email_by)); try done.
  - intros prev t n. apply (framed_match email_core email_core_free), email_nonempty.
  - intros prev t n H.
    by apply (framed_sound email_core email_core_free) in H as (_ & ? & ? & ?).
  - apply (framed_complete email_core email_core_free).
  - intros m. by apply email_chars.
  - by left.
Qed.

(** After the phone numbers are replaced, no phone number is left, and
    no address appears. *)
Lemma phone_pass_clean s :
  NoMatch Resumes.email_pattern None s →
  NoMatch Resumes.email_pattern None
    (replace_from (length s) Resumes.phone_pattern phone_by None s) ∧
  NoMatch Resumes.phone_pattern None
    (replace_from (length s) Resumes.phone_pattern phone_by None s).
Proof.
  intros Hs. split.
  - apply (scan_NoMatch Resumes.phone_pattern Resumes.email_pattern phone_by
             (λ m, Matches email_core None m []) "[" "]" (tail phone_by)
             (removelast phone_by)); try done.
    + intros prev t n. apply (framed_match phone_core phone_core_free), phone_nonempty.
    + intros prev t n H.
      by apply (framed_sound email_core email_core_free) in H as (_ & ? & ? & ?).
    + apply (framed_complete email_core email_core_free).
    + intros m. by apply email_chars.
    + by left.
    + intros a b E _. by apply Hs.
  - apply (scan_NoMatch Resumes.phone_pattern Resumes.phone_pattern phone_by
             (λ m, Matches phone_core None m []) "[" "]" (tail phone_by)
             (removelast phone_by)); try done.
    + intros prev t n. apply (framed_match phone_core phone_core_free), phone_nonempty.
    + intros prev t n H.
      by apply (framed_sound phone_core phone_core_free) in H as (_ & ? & ? & ?).
    + apply (framed_complete phone_core phone_core_free).
    + apply phone_chars.
    + by left.
Qed.

(** The redacted text has no match of either pattern. *)
Lemma redact_clean (text : string) :
  test Resumes.email_pattern (Resumes.redact text) = false ∧
  test Resumes.phone_pattern (Resumes.redact text) = false.
Proof.
  unfold test, Resumes.redact, replace.
  rewrite !list_ascii_of_string_of_list_ascii, !test_from_false.
  apply phone_pass_clean, email_pass_clean.
Qed.

End Redaction.

(** A number inside a longer run of digits is not a match of the phone
    pattern, and stays. *)
Example redact_keeps_embedded_digits :
  RegExp.test Resumes.phone_pattern "15551234567" = false ∧
  Resumes.redact "15551234567" = "15551234567".
Proof. split; reflexivity. Qed.

Example redact_scenario :
  Resumes.redact "Contact me at jane@example.com or 555-123-4567"
  = "Contact me at [EMAIL REDACTED] or [PHONE REDACTED]".
Proof. reflexivity. Qed.




Lemma get_resume_keeps_database
    (u : user) (resume : Z) (db : Resumes.database) (read : db_outcome) :
  (Resumes.get_resume u resume db read).1.2 = db.
Proof.
  unfold Resumes.get_resume. destruct read; [|done].
  by destruct (Resumes.find_resume u resume db).
Qed.

(** * Further properties *)

(** ** Redaction *)

Section ReplaceFacts.

Import RegExp.
Local Open Scope list_scope.

(** Where the pattern matches nowhere, [replace] returns the text as it
    is. *)
Lemma replace_from_NoMatch (P : regexp) (by_ : list ascii) fuel :
  ∀ prev s, length s <= fuel → NoMatch P prev s →
            replace_from fuel P by_ prev s = s.
Proof.
  induction fuel as [|fuel IH]; intros prev s Hfuel Hno.
  - destruct s; [|simpl in Hfuel; lia]. simpl.
    pose proof (Hno [] [] eq_refl) as H0. rewrite last_of_nil in H0. by rewrite H0.
  - destruct s as [|c s]; simpl.
    + pose proof (Hno [] [] eq_refl) as H0. rewrite last_of_nil in H0. by rewrite H0.
    + pose proof (Hno [] (c :: s) eq_refl) as H0. rewrite last_of_nil in H0.
      rewrite H0. f_equal. apply IH.
      * simpl in Hfuel. lia.
      * intros a b ->. specialize (Hno (c :: a) b eq_refl).
        by rewrite last_of_cons in Hno.
Qed.

Lemma replace_no_match (P : regexp) (by_ text : string) :
  test P text = false → replace P by_ text = text.
Proof.
  unfold test, replace. intros H. apply test_from_false in H.
  rewrite replace_from_NoMatch by done.
  apply string_of_list_ascii_of_string.
Qed.

End ReplaceFacts.

(** X1.  Redaction changes a text exactly when the email pattern or the
    phone pattern matches somewhere in it: a text without such a match is
    returned character for character. *)
Theorem redact_unchanged_iff_no_match (text : string) :
  Resumes.redact text = text ↔
  RegExp.test Resumes.email_pattern text = false ∧
  RegExp.test Resumes.phone_pattern text = false.
Proof.
  split.
  - intros H. rewrite <- H. apply redact_clean.
  - intros [He Hp]. unfold Resumes.redact.
    rewrite (replace_no_match _ _ _ He). by apply replace_no_match.
Qed.

(** X2.  Redacting a redacted text changes nothing. *)
Theorem redact_idempotent (text : string) :
  Resumes.redact (Resumes.redact text) = Resumes.redact text.
Proof.
  destruct (redact_clean text) as [He Hp].
  unfold Resumes.redact at 1.
  rewrite (replace_no_match _ _ _ He). by apply replace_no_match.
Qed.

(** X3.  A caller of role user who reads a resume receives one of their
    own: the body carries the id that was asked for and the row belongs to
    the caller. *)
Theorem get_resume_own_only
    (u : user) (resume : Z) (db : Resumes.database) (read : db_outcome)
    (body : Resumes.resume_body) (db' : Resumes.database) (log : list string) :
  role u = "user" →
  Resumes.get_resume u resume db read = (Resumes.Json body, db', log) →
  Resumes.rb_id body = resume ∧
  ∃ row, row ∈ Resumes.resumes db ∧ id row = resume ∧ user_id row = userId u ∧
         Resumes.rb_filename body = original_name row.
Proof.
  intros Hrole. unfold Resumes.get_resume. destruct read; [|discriminate].
  destruct (Resumes.find_resume u resume db) as [row|] eqn:Hfind; [|discriminate].
  intros [= <- <- <-]. unfold Resumes.find_resume in Hfind.
  apply find_some in Hfind as [Hin Hcond].
  rewrite (bool_decide_eq_true_2 _ Hrole) in Hcond. simpl in Hcond.
  apply andb_true_iff in Hcond as [Hid Hown].
  apply Z.eqb_eq in Hid, Hown. simpl. split; [done|].
  exists row. split_and!; try done. by apply list_elem_of_In.
Qed.

Lemma get_resume_own_only_witness :
  ∃ body, Resumes.rb_id body = 1%Z.
Proof.
  eexists.
  refine (proj1 (get_resume_own_only Sample.candidate 1 Sample.resumes_db DbOk
                   _ _ _ eq_refl _)).
  vm_compute. reflexivity.
Defined.

(** ** Order of the results *)

Section SortFacts.

Context {A : Type} (key : A → number).

Let cmp (a b : A) : number := num_sub (key b) (key a).
Let finite (a : A) : Prop := ∃ q, key a = Fin q.
Let ordered (a b : A) : Prop := num_gt (key b) (key a) = false.

Lemma cmp_positive (x y : A) (qx qy : Q) :
  key x = Fin qx → key y = Fin qy →
  num_gt (cmp x y) (of_Z 0) = true ↔ (qx < qy)%Q.
Proof.
  intros Hx Hy. subst cmp. simpl. rewrite Hx, Hy.
  change (of_Z 0) with (Fin (inject_Z 0)). cbn [num_sub].
  rewrite num_gt_Fin. change (inject_Z 0) with 0%Q. split; intros; lra.
Qed.

Lemma sort_insert_sorted (x : A) (l : list A) :
  finite x → Forall finite l →
  StronglySorted ordered l → StronglySorted ordered (sort_insert cmp x l).
Proof.
  intros [qx Hx] Hfin Hsorted.
  induction Hsorted as [|y rest Hrest IH Hy]; simpl.
  - repeat constructor.
  - apply Forall_cons in Hfin as [[qy Hqy] Hfin].
    destruct (num_gt (cmp x y) (of_Z 0)) eqn:E.
    + apply (cmp_positive x y qx qy Hx Hqy) in E.
      constructor; [by apply IH|].
      rewrite sort_insert_perm. constructor; [|done].
      subst ordered. simpl. rewrite Hx, Hqy. apply num_gt_Fin_false. lra.
    + assert (Hle : (qy <= qx)%Q).
      { destruct (Qlt_le_dec qx qy) as [Hlt|]; [|done].
        apply (cmp_positive x y qx qy Hx Hqy) in Hlt. congruence. }
      constructor; [by constructor|]. constructor.
      * subst ordered. simpl. rewrite Hx, Hqy. by apply num_gt_Fin_false.
      * rewrite Forall_forall in Hy, Hfin |- *. intros z Hz.
        destruct (Hfin z Hz) as [qz Hqz]. specialize (Hy z Hz).
        subst ordered. simpl in *. rewrite Hqy, Hqz in Hy. rewrite Hx, Hqz.
        apply num_gt_Fin_false in Hy. apply num_gt_Fin_false. lra.
Qed.

(** Sorting finite keys with the comparator [(a, b) => key(b) - key(a)]
    gives an array in which no later element has a greater key. *)
Lemma sort_sorted (l : list A) :
  Forall finite l → StronglySorted ordered (sort cmp l).
Proof.
  unfold sort. induction 1 as [|x l Hx Hl IH]; simpl; [constructor|].
  apply sort_insert_sorted; [done| |done].
  fold (sort cmp l). by rewrite sort_perm.
Qed.

Lemma sorted_lookup (l : list A) (i j : nat) (a b : A) :
  StronglySorted ordered l → i < j → l !! i = Some a → l !! j = Some b →
  ordered a b.
Proof.
  intros Hsorted. revert i j.
  induction Hsorted as [|y rest Hrest IH Hy]; intros i j Hij Hi Hj; [done|].
  destruct j as [|j]; [lia|]. simpl in Hj. destruct i as [|i]; simpl in Hi.
  - injection Hi as ->. rewrite Forall_forall in Hy. apply Hy.
    by eapply list_elem_of_lookup_2.
  - apply (IH i j); [lia|done|done].
Qed.

Lemma slice0_sorted_lookup (l : list A) (e : number) (i j : nat) (a b : A) :
  StronglySorted ordered l → i < j →
  slice0 l e !! i = Some a → slice0 l e !! j = Some b → ordered a b.
Proof.
  unfold slice0. intros Hsorted Hij Hi Hj.
  apply lookup_take_Some in Hi as [Hi _]. apply lookup_take_Some in Hj as [Hj _].
  by eapply sorted_lookup.
Qed.

End SortFacts.

Lemma ranked_similarity_finite
    (tokenize : string → list string) (query : string) (rows : list resume_row) :
  Forall (λ r, ∃ q, Search.similarity_score r = Fin q)
    (filter (λ result, num_gt (Search.similarity_score result) (Fin (1 # 100)))
       (map (Search.score_resume tokenize query) rows)).
Proof.
  apply Forall_forall. intros r Hr.
  apply list_elem_of_filter in Hr as [Hgt Hr]. apply Is_true_true in Hgt.
  rewrite map_fmap in Hr. apply list_elem_of_fmap in Hr as (row & -> & _).
  cbn [Search.score_resume Search.similarity_score] in *.
  destruct (similarity_sizes tokenize (content row) query) as (n & d & Hle & E).
  rewrite E in *.
  destruct (bounded_ratio_in_unit n d _ Hle Hgt) as (q & Hq & _). eauto.
Qed.

(** X4.  The results of a search are in descending order of
    [similarity_score]: no result has a greater score than a result
    before it. *)
Theorem search_results_descending
    (tokenize : string → list string) (u : user) (query : string)
    (k : body_number) (db : Search.database) (read write : db_outcome)
    (q : string) (results : list Search.search_result) (total : nat)
    (db' : Search.database) (log : list string)
    (i j : nat) (a b : Search.search_result) :
  Search.post_ask tokenize u query k db read write
    = (Search.Json q results total, db', log) →
  i < j → results !! i = Some a → results !! j = Some b →
  num_gt (Search.similarity_score b) (Search.similarity_score a) = false.
Proof.
  intros H Hij Hi Hj. apply post_ask_Json in H as (_ & _ & _ & _ & ->).
  unfold Search.rank in Hi, Hj.
  eapply (slice0_sorted_lookup Search.similarity_score); [|done|done|done].
  apply sort_sorted, ranked_similarity_finite.
Qed.

Lemma search_results_descending_witness :
  ∃ a b : Search.search_result,
    Search.resume_id a = 2%Z ∧ Search.resume_id b = 1%Z ∧
    num_gt (Search.similarity_score b) (Search.similarity_score a) = false.
Proof.
  eexists _, _. split; [|split].
  3: { eapply (search_results_descending Search.tokenize Sample.recruiter
                 "python developer" Absent Cases.search_db DbOk DbOk
                 _ _ _ _ _ 0 1).
       - vm_compute. reflexivity.
       - lia.
       - reflexivity.
       - reflexivity. }
  all: reflexivity.
Defined.

(** X5.  A caller of role user only finds their own resumes: every
    result of their search is the score of a resume they uploaded. *)
Theorem search_results_own_only
    (tokenize : string → list string) (u : user) (query : string)
    (k : body_number) (db : Search.database) (read write : db_outcome)
    (q : string) (results : list Search.search_result) (total : nat)
    (db' : Search.database) (log : list string) (r : Search.search_result) :
  role u = "user" →
  Search.post_ask tokenize u query k db read write
    = (Search.Json q results total, db', log) →
  r ∈ results →
  ∃ row, row ∈ Search.resumes db ∧ user_id row = userId u ∧
         Search.resume_id r = id row ∧ Search.filename r = original_name row.
Proof.
  intros Hrole H Hr. apply post_ask_Json in H as (_ & _ & _ & _ & ->).
  apply rank_elem in Hr as (_ & row & Hrow & ->).
  unfold Search.visible_resumes in Hrow.
  rewrite (bool_decide_eq_true_2 _ Hrole) in Hrow.
  apply list_elem_of_filter in Hrow as [Hown Hin].
  by exists row.
Qed.

Lemma search_results_own_only_witness :
  ∃ row, row ∈ [Cases.alice_cv; Cases.bob_cv] ∧ user_id row = 2%Z ∧ id row = 1%Z.
Proof.
  edestruct (search_results_own_only Search.tokenize Sample.candidate "python" Absent
               Cases.search_db DbOk DbOk) as (row & Hin & Hown & Hid & _).
  - reflexivity.
  - vm_compute. reflexivity.
  - apply list_elem_of_here.
  - exists row. split_and!; [exact Hin|exact Hown|].
    rewrite <- Hid. reflexivity.
Defined.

(** ** More on similarity *)

Lemma ratio_positive (n d : nat) :
  0 < d → (0 < inject_Z (Z.of_nat n) / inject_Z (Z.of_nat d))%Q ↔ 0 < n.
Proof.
  intros Hd. destruct d as [|d]; [lia|].
  unfold Qlt, Qdiv, Qmult, Qinv, inject_Z. simpl. lia.
Qed.

(** X6.  The similarity of two texts is positive exactly when they share
    a token that survives the filter. *)
Theorem calculateSimilarity_positive_iff_shared_token
    (tokenize : string → list string) (text1 text2 : string) :
  num_gt (Search.calculateSimilarity tokenize text1 text2) (of_Z 0) = true ↔
  ∃ token, token ∈ Search.filtered_tokens tokenize text1 ∧
           token ∈ Search.filtered_tokens tokenize text2.
Proof.
  rewrite calculateSimilarity_jaccard. cbv zeta.
  set (X := list_to_set (Search.filtered_tokens tokenize text1) : gset string).
  set (Y := list_to_set (Search.filtered_tokens tokenize text2) : gset string).
  assert (Hmem : (∃ token, token ∈ Search.filtered_tokens tokenize text1 ∧
                           token ∈ Search.filtered_tokens tokenize text2)
                 ↔ 0 < size (X ∩ Y)).
  { split.
    - intros (t & H1 & H2).
      destruct (size (X ∩ Y)) eqn:E; [|lia]. exfalso.
      apply size_empty_iff in E. apply (not_elem_of_empty (C:=gset string) t).
      apply E, elem_of_intersection. subst X Y. by rewrite !elem_of_list_to_set.
    - intros H. apply size_pos_elem_of in H as [t Ht]. exists t.
      apply elem_of_intersection in Ht. subst X Y.
      by rewrite !elem_of_list_to_set in Ht. }
  rewrite Hmem.
  assert (Hsub : size (X ∩ Y) <= size (X ∪ Y)).
  { apply subseteq_size.
    etrans; [apply intersection_subseteq_l | apply union_subseteq_l]. }
  rewrite num_div_lengths.
  destruct (size (X ∪ Y)) as [|d] eqn:Ed.
  - destruct (size (X ∩ Y)); [|lia]. split; [discriminate|lia].
  - change (of_Z 0) with (Fin 0). rewrite num_gt_Fin.
    apply ratio_positive. lia.
Qed.

(** X7.  A text that keeps at least one token has similarity 1 with
    itself. *)
Theorem calculateSimilarity_self
    (tokenize : string → list string) (text : string) :
  Search.filtered_tokens tokenize text ≠ [] →
  ∃ q, Search.calculateSimilarity tokenize text text = Fin q ∧ (q == 1)%Q.
Proof.
  intros Hne. rewrite calculateSimilarity_jaccard. cbv zeta.
  set (X := list_to_set (Search.filtered_tokens tokenize text) : gset string).
  replace (X ∩ X) with X by (apply set_eq; intros x; rewrite elem_of_intersection; tauto).
  replace (X ∪ X) with X by (apply set_eq; intros x; rewrite elem_of_union; tauto).
  rewrite num_div_lengths.
  destruct (size X) as [|d] eqn:Ed.
  - exfalso. apply size_empty_iff in Ed.
    destruct (Search.filtered_tokens tokenize text) as [|t l]; [done|].
    apply (not_elem_of_empty (C:=gset string) t).
    apply Ed. subst X. rewrite elem_of_list_to_set. apply list_elem_of_here.
  - eexists. split; [reflexivity|].
    unfold Qeq, Qdiv, Qmult, Qinv, inject_Z. simpl. lia.
Qed.

Lemma calculateSimilarity_self_witness :
  ∃ q, Search.calculateSimilarity Search.tokenize "Python developer" "Python developer"
         = Fin q ∧ (q == 1)%Q.
Proof.
  apply (calculateSimilarity_self Search.tokenize "Python developer").
  vm_compute. discriminate.
Defined.

(** X8.  In a search response the relevance tier agrees with the returned
    score: high exactly above 0.1, medium exactly above 0.05 up to 0.1,
    and low for the scores above the floor 0.01 up to 0.05. *)
Theorem search_relevance_matches_score
    (tokenize : string → list string) (u : user) (query : string)
    (k : body_number) (db : Search.database) (read write : db_outcome)
    (q : string) (results : list Search.search_result) (total : nat)
    (db' : Search.database) (log : list string) (r : Search.search_result) :
  Search.post_ask tokenize u query k db read write
    = (Search.Json q results total, db', log) →
  r ∈ results →
  ∃ s, Search.similarity_score r = Fin s ∧
    (Search.relevance r = Search.high ↔ (1 # 10 < s)%Q) ∧
    (Search.relevance r = Search.medium ↔ (5 # 100 < s <= 1 # 10)%Q) ∧
    (Search.relevance r = Search.low ↔ (1 # 100 < s <= 5 # 100)%Q).
Proof.
  intros H Hr. apply post_ask_Json in H as (_ & _ & _ & _ & ->).
  apply rank_elem in Hr as (Hgt & row & _ & ->).
  unfold above_floor in Hgt. cbn [Search.score_resume Search.similarity_score
                                  Search.relevance] in *.
  apply num_gt_Fin_inv in Hgt as [Hinf|(s & Hs & Hfloor)].
  { destruct (similarity_sizes tokenize (content row) query) as (n & d & Hle & E).
    rewrite E, num_div_lengths in Hinf. destruct d, n; try discriminate. lia. }
  exists s. split; [done|]. rewrite Hs.
  destruct (num_gt (Fin s) (Fin (1 # 10))) eqn:E1;
    [apply num_gt_Fin in E1 | apply num_gt_Fin_false in E1];
    (destruct (num_gt (Fin s) (Fin (5 # 100))) eqn:E5;
     [apply num_gt_Fin in E5 | apply num_gt_Fin_false in E5]);
    split_and!; split; intros; try done; try lra.
Qed.

Lemma search_relevance_matches_score_witness :
  ∃ r s, Search.similarity_score r = Fin s ∧ Search.relevance r = Search.high.
Proof.
  edestruct (search_relevance_matches_score Search.tokenize Sample.recruiter "python"
               Absent (Sample.search_db 1) DbOk DbOk) as (s & Hs & _).
  - vm_compute. reflexivity.
  - apply list_elem_of_here.
  - eexists _, s. split; [exact Hs|reflexivity].
Defined.

(** ** More on job matching *)

Lemma ranked_match_score_finite (job : job_row) (rows : list resume_row) :
  Forall (λ m, ∃ q, Jobs.match_score m = Fin q)
    (filter (λ m, num_gt (Jobs.match_score m) (of_Z 0))
       (map (Jobs.match_resume job) rows)).
Proof.
  apply Forall_forall. intros m Hm.
  apply list_elem_of_filter in Hm as [Hgt Hm]. apply Is_true_true in Hgt.
  rewrite map_fmap in Hm. apply list_elem_of_fmap in Hm as (resume & -> & _).
  destruct (match_score_in_unit job resume Hgt) as (q & Hq & _). eauto.
Qed.

(** X9.  The matches of a job are in descending order of the returned
    [match_score]. *)
Theorem match_results_descending
    (u : user) (job : Z) (top_n : body_number) (db : Jobs.database)
    (read_job read_resumes : db_outcome) (writes : nat → db_outcome)
    (t : string) (i0 : Z) (matches : list Jobs.match_result) (total : nat)
    (db' : Jobs.database) (log : list string)
    (i j : nat) (a b : Jobs.match_result) :
  Jobs.post_match u job top_n db read_job read_resumes writes
    = (Jobs.Json i0 t matches total, db', log) →
  i < j → matches !! i = Some a → matches !! j = Some b →
  num_gt (Jobs.match_score b) (Jobs.match_score a) = false.
Proof.
  intros H Hij Hi Hj. apply post_match_Json in H as (jb & _ & _ & _ & _ & ->).
  unfold Jobs.rank in Hi, Hj.
  eapply (slice0_sorted_lookup Jobs.match_score); [|done|done|done].
  apply sort_sorted, ranked_match_score_finite.
Qed.

Lemma match_results_descending_witness :
  ∃ a b : Jobs.match_result,
    Jobs.resume_id a = 1%Z ∧ Jobs.resume_id b = 2%Z ∧
    num_gt (Jobs.match_score b) (Jobs.match_score a) = false.
Proof.
  eexists _, _. split; [|split].
  3: { eapply (match_results_descending Sample.recruiter 7 Absent Cases.jobs_db
                 DbOk DbOk (λ _, DbOk) _ _ _ _ _ _ 0 1).
       - vm_compute. reflexivity.
       - lia.
       - reflexivity.
       - reflexivity. }
  all: reflexivity.
Defined.

Lemma slice0_take {A} (l : list A) (n : nat) : slice0 l (of_nat n) = take n l.
Proof.
  unfold slice0, of_nat. rewrite relative_index_nonneg by lia.
  destruct (decide (n <= length l)).
  - f_equal. lia.
  - rewrite !take_ge by lia. done.
Qed.

(** X10.  The evidence of a match is the first five job keywords found in
    the resume and the missing requirements are the first five that are
    not found: each list has at most five entries, holds job keywords
    only, and no keyword is in both. *)
Theorem match_evidence_and_missing (job : job_row) (resume : resume_row) :
  let m := Jobs.match_resume job resume in
  let found := Jobs.keyword_found (Jobs.resumeKeywords resume) in
  Jobs.evidence m = take 5 (filter (λ w, found w = true) (Jobs.jobKeywords job)) ∧
  Jobs.missing_requirements m
    = take 5 (filter (λ w, found w = false) (Jobs.jobKeywords job)) ∧
  length (Jobs.evidence m) <= 5 ∧
  length (Jobs.missing_requirements m) <= 5 ∧
  (∀ w, w ∈ Jobs.evidence m → w ∈ Jobs.jobKeywords job ∧ found w = true) ∧
  (∀ w, w ∈ Jobs.missing_requirements m → w ∈ Jobs.jobKeywords job ∧ found w = false) ∧
  (∀ w, w ∈ Jobs.evidence m → w ∉ Jobs.missing_requirements m).
Proof.
  cbv zeta.
  assert (E1 : Jobs.evidence (Jobs.match_resume job resume)
               = take 5 (filter (λ w, Jobs.keyword_found (Jobs.resumeKeywords resume) w = true)
                           (Jobs.jobKeywords job))).
  { unfold Jobs.match_resume. cbn [Jobs.evidence].
    change (of_Z 5) with (of_nat 5). rewrite slice0_take.
    unfold Jobs.matchingKeywords. f_equal.
    apply list_filter_iff. intros w. by rewrite Is_true_true. }
  assert (E2 : Jobs.missing_requirements (Jobs.match_resume job resume)
               = take 5 (filter (λ w, Jobs.keyword_found (Jobs.resumeKeywords resume) w = false)
                           (Jobs.jobKeywords job))).
  { unfold Jobs.match_resume. cbn [Jobs.missing_requirements].
    change (of_Z 5) with (of_nat 5). rewrite slice0_take. f_equal.
    apply list_filter_iff. intros w.
    rewrite Is_true_true. apply negb_true_iff. }
  rewrite E1, E2.
  assert (H1 : ∀ w, w ∈ take 5 (filter (λ w, Jobs.keyword_found (Jobs.resumeKeywords resume) w = true)
                                  (Jobs.jobKeywords job)) →
                    w ∈ Jobs.jobKeywords job ∧
                    Jobs.keyword_found (Jobs.resumeKeywords resume) w = true).
  { intros w Hw. apply subseteq_take in Hw.
    apply list_elem_of_filter in Hw. tauto. }
  assert (H2 : ∀ w, w ∈ take 5 (filter (λ w, Jobs.keyword_found (Jobs.resumeKeywords resume) w = false)
                                  (Jobs.jobKeywords job)) →
                    w ∈ Jobs.jobKeywords job ∧
                    Jobs.keyword_found (Jobs.resumeKeywords resume) w = false).
  { intros w Hw. apply subseteq_take in Hw.
    apply list_elem_of_filter in Hw. tauto. }
  split_and!; try done.
  - rewrite length_take. lia.
  - rewrite length_take. lia.
  - intros w Hw Hw'. apply H1 in Hw as [_ Hw]. apply H2 in Hw' as [_ Hw']. congruence.
Qed.

(** X11.  The number of matches returned.  [positive] is the number of
    resumes whose rounded score is above 0.  When [top_n] is absent, not
    numeric or a non-negative integer, at most 20 matches are returned,
    at most [top_n] of them (5 when absent); a negative [top_n] of [-n]
    with [n] below 2^53 returns all the matches but the last [n].  From
    1e21 on [parseInt] reads only the first digit of a number: a [top_n]
    of -1e21 drops the last match alone. *)
Theorem match_count
    (u : user) (job : Z) (top_n : body_number) (db : Jobs.database)
    (read_job read_resumes : db_outcome) (writes : nat → db_outcome)
    (t : string) (i0 : Z) (matches : list Jobs.match_result) (total : nat)
    (db' : Jobs.database) (log : list string) :
  Jobs.post_match u job top_n db read_job read_resumes writes
    = (Jobs.Json i0 t matches total, db', log) →
  total = length matches ∧
  ∃ j, j ∈ Jobs.jobs db ∧ job_id j = job ∧
    let positive :=
      length (filter (λ m, num_gt (Jobs.match_score m) (of_Z 0))
                (map (Jobs.match_resume j) (Jobs.resumes db))) in
    length matches <= positive ∧
    (top_n = Absent → length matches <= 5) ∧
    (top_n = NotNumeric → matches = []) ∧
    (∀ z, top_n = Integral z → (0 <= z)%Z →
          (Z.of_nat (length matches) <= Z.min z 20)%Z) ∧
    (∀ z, top_n = Integral z → (- 2 ^ 53 < z < 0)%Z →
          Z.of_nat (length matches) = Z.max (Z.of_nat positive + z) 0) ∧
    (top_n = Integral (- 10 ^ 21) →
          Z.of_nat (length matches) = Z.max (Z.of_nat positive - 1) 0).
Proof.
  unfold Jobs.post_match.
  destruct (negb _); [discriminate|].
  destruct read_job; [|discriminate].
  destruct (List.find _ _) as [j|] eqn:Hfind; [|discriminate].
  destruct read_resumes; [|discriminate].
  destruct (Jobs.store_matches _ _ _ _) as [rows err].
  intros [= <- <- <- <- <- <-]. split; [done|].
  apply find_some in Hfind as [Hin Hid]. apply Z.eqb_eq in Hid.
  exists j. split; [by apply list_elem_of_In|]. split; [done|].
  cbv zeta. unfold Jobs.rank. split_and!.
  - etrans; [apply slice0_length_le|]. by rewrite sort_length.
  - intros ->. cbn [or_default].
    match goal with |- length (slice0 ?l _) <= _ =>
      pose proof (capped_slice_length l 5 20) end. lia.
  - intros ->. cbn [or_default].
    change (Math_min (parseInt NotNumeric) (of_Z 20)) with NaN.
    by rewrite slice0_NaN.
  - intros z -> Hz. cbn [or_default]. apply capped_slice_length; [done|lia].
  - intros z -> Hz. cbn [or_default].
    rewrite negative_slice_length by lia. by rewrite sort_length.
  - intros ->. cbn [or_default]. rewrite parseInt_exponent_notation, Math_min_of_Z.
    change (Z.min (-1) 20) with (-1)%Z.
    rewrite slice0_length_neg, sort_length by lia. lia.
Qed.

Lemma match_count_witness :
  ∃ matches : list Jobs.match_result, length matches = 1.
Proof.
  eexists.
  edestruct (match_count Sample.recruiter 7 (Integral (-1)) Cases.jobs_db
               DbOk DbOk (λ _, DbOk)) as (Htotal & _).
  - vm_compute. reflexivity.
  - symmetry. exact Htotal.
Defined.

Lemma store_matches_rows job matches start writes :
  ∃ kept, kept `sublist_of` matches ∧
          (Jobs.store_matches job matches start writes).1
            = map (stored_match job) kept.
Proof.
  revert start. induction matches as [|m rest IH]; intros start; simpl.
  - by exists [].
  - destruct (IH (S start)) as (kept & Hsub & Hrows).
    destruct (Jobs.store_matches job rest (S start) writes) as [rows err].
    simpl in Hrows. subst rows. destruct (writes start); simpl.
    + exists (m :: kept). split; [by constructor|done].
    + exists kept. split; [by constructor|done].
Qed.

Lemma store_matches_all_ok job matches start writes :
  (∀ i, start <= i < start + length matches → writes i = DbOk) →
  Jobs.store_matches job matches start writes
    = (map (stored_match job) matches, None).
Proof.
  revert start. induction matches as [|m rest IH]; intros start Hok; simpl; [done|].
  rewrite IH by (intros i Hi; apply Hok; simpl; lia).
  rewrite (Hok start) by (simpl; lia). done.
Qed.

(** X12.  What matching does to the database.  Jobs and resumes are never
    changed; [job_matches] only grows, by rows of the requested job that
    each store one of the returned matches; and when every insert
    succeeds there is exactly one new row per returned match, in order,
    and nothing is logged. *)
Theorem post_match_database
    (u : user) (job : Z) (top_n : body_number) (db : Jobs.database)
    (read_job read_resumes : db_outcome) (writes : nat → db_outcome) :
  let '(response, db', log) :=
    Jobs.post_match u job top_n db read_job read_resumes writes in
  Jobs.jobs db' = Jobs.jobs db ∧
  Jobs.resumes db' = Jobs.resumes db ∧
  ∃ rows,
    Jobs.job_matches db' = (Jobs.job_matches db ++ rows)%list ∧
    ((∀ i t matches total, response ≠ Jobs.Json i t matches total) → rows = []) ∧
    ∀ i t matches total,
      response = Jobs.Json i t matches total →
      (∃ kept, kept `sublist_of` matches ∧ rows = map (stored_match job) kept) ∧
      ((∀ n, n < length matches → writes n = DbOk) →
       rows = map (stored_match job) matches ∧ log = []).
Proof.
  unfold Jobs.post_match.
  destruct (negb _).
  { split_and!; try done. exists []. by rewrite app_nil_r. }
  destruct read_job.
  2: { split_and!; try done. exists []. by rewrite app_nil_r. }
  destruct (List.find _ _) as [j|].
  2: { split_and!; try done. exists []. by rewrite app_nil_r. }
  destruct read_resumes.
  2: { split_and!; try done. exists []. by rewrite app_nil_r. }
  set (matches := Jobs.rank j _ (Jobs.resumes db)).
  destruct (store_matches_rows job matches 0 writes) as (kept & Hsub & Hrows).
  pose proof (store_matches_all_ok job matches 0 writes) as Hall.
  destruct (Jobs.store_matches job matches 0 writes) as [rows err].
  simpl in Hrows. subst rows. simpl. split_and!; try done.
  exists (map (stored_match job) kept). split_and!; [done| |].
  - intros Hne. by destruct (Hne job (title j) matches (length matches)).
  - intros i t ms total [= <- <- <- <-]. split; [by exists kept|].
    intros Hok.
    assert (Hall' : (map (stored_match job) kept, err)
                    = (map (stored_match job) matches, None)).
    { apply Hall. intros n Hn. apply Hok. lia. }
    by injection Hall' as -> ->.
Qed.

(** ** More on snippets *)

Section ExcerptFacts.

Lemma append_cons (x : ascii) (a b : string) : String x a +:+ b = String x (a +:+ b).
Proof. reflexivity. Qed.

Lemma append_assoc (a b c : string) : (a +:+ b) +:+ c = a +:+ b +:+ c.
Proof. induction a as [|x a IH]; [done|]. by rewrite !append_cons, IH. Qed.

Lemma append_empty_r (a : string) : a +:+ "" = a.
Proof. induction a as [|x a IH]; [done|]. by rewrite append_cons, IH. Qed.

Lemma occurs_in_refl (s : string) : occurs_in s s.
Proof. exists "", "". simpl. by rewrite append_empty_r. Qed.

Lemma occurs_in_trans (x y z : string) : occurs_in x y → occurs_in y z → occurs_in x z.
Proof.
  intros (p1 & q1 & ->) (p2 & q2 & ->).
  exists (p2 +:+ p1), (q1 +:+ q2). by rewrite !append_assoc.
Qed.

Lemma occurs_in_cons (x s : string) (c : ascii) :
  occurs_in x s → occurs_in x (String c s).
Proof. intros (p & q & ->). by exists (String c p), q. Qed.

Lemma prefix_append (x post : string) : String.prefix x (x +:+ post) = true.
Proof.
  induction x as [|c x IH]; simpl; [by destruct post|].
  destruct (ascii_dec c c); [done|congruence].
Qed.

Lemma includes_unfold (s x : string) :
  includes s x =
    String.prefix x s ||
    match s with
    | EmptyString => false
    | String _ s' => includes s' x
    end.
Proof. by destruct s. Qed.

Lemma occurs_in_includes (x s : string) : occurs_in x s → includes s x = true.
Proof.
  intros (pre & post & ->). induction pre as [|c pre IH].
  - change ("" +:+ x +:+ post) with (x +:+ post).
    by rewrite includes_unfold, prefix_append.
  - rewrite append_cons, includes_unfold, IH. apply orb_true_r.
Qed.

Lemma trimStart_occurs (s : string) : occurs_in (trimStart s) s.
Proof.
  induction s as [|c s IH]; simpl; [apply occurs_in_refl|].
  destruct (is_space c); [by apply occurs_in_cons|apply occurs_in_refl].
Qed.

Lemma trimEnd_prefix (s : string) : ∃ post, s = trimEnd s +:+ post.
Proof.
  induction s as [|c s [post IH]]; simpl; [by exists ""|].
  destruct (trimEnd s) as [|d t] eqn:E.
  - destruct (is_space c).
    + by exists (String c s).
    + exists s. done.
  - exists post. rewrite append_cons. by f_equal.
Qed.

Lemma trim_occurs (s : string) : occurs_in (trim s) s.
Proof.
  unfold trim. eapply occurs_in_trans; [|apply trimStart_occurs].
  destruct (trimEnd_prefix (trimStart s)) as [post E].
  exists "", post. done.
Qed.

Lemma split_runs_cons_pieces (is_sep : ascii → bool) (s : string) :
  (∃ rest, s = (split_runs_cons is_sep s).1 +:+ rest) ∧
  (∀ x, x ∈ (split_runs_cons is_sep s).2 → occurs_in x s) ∧
  (begins_with is_sep s = true → (split_runs_cons is_sep s).1 = "").
Proof.
  induction s as [|c s (IHp & IHi & IHe)]; simpl.
  - split_and!; [by exists ""| |done]. intros x Hx. by apply elem_of_nil in Hx.
  - destruct (split_runs_cons is_sep s) as [w ws]. simpl in *.
    destruct IHp as [rest Hrest].
    destruct (is_sep c) eqn:Ec.
    + destruct s as [|c' s'].
      * simpl. split_and!; [by exists (String c "")| |done].
        intros x Hx. apply elem_of_cons in Hx as [->|Hx].
        -- apply occurs_in_cons. exists "", rest. done.
        -- by apply occurs_in_cons, IHi.
      * destruct (is_sep c') eqn:Ec'; simpl in *.
        -- rewrite (IHe Ec'). split_and!; [by eexists| |done].
           intros x Hx. by apply occurs_in_cons, IHi.
        -- split_and!; [by eexists| |done].
           intros x Hx. apply elem_of_cons in Hx as [->|Hx].
           ++ apply occurs_in_cons. exists "", rest. done.
           ++ by apply occurs_in_cons, IHi.
    + simpl. split_and!; [|by intros x Hx; apply occurs_in_cons, IHi|done].
      exists rest. rewrite append_cons. by f_equal.
Qed.

(** Every piece of [s.split(/[..]+/)] occurs in [s]. *)
Lemma split_runs_occurs (is_sep : ascii → bool) (s x : string) :
  x ∈ split_runs is_sep s → occurs_in x s.
Proof.
  unfold split_runs.
  destruct (split_runs_cons_pieces is_sep s) as ([rest Hp] & Hi & _).
  destruct (split_runs_cons is_sep s) as [w ws]. simpl in *.
  intros Hx. apply elem_of_cons in Hx as [->|Hx]; [|by apply Hi].
  exists "", rest. done.
Qed.

End ExcerptFacts.

(** X13.  Every snippet is an excerpt of the document: it occurs in the
    text character for character ([text.includes(snippet)] is true). *)
Theorem extractSnippets_are_excerpts (text query : string) (k : number) (snippet : string) :
  snippet ∈ Search.extractSnippets text query k →
  includes text snippet = true.
Proof.
  unfold Search.extractSnippets. intros H.
  apply list_elem_of_filter in H as [_ H].
  rewrite map_fmap in H. apply list_elem_of_fmap in H as ([t score] & -> & H).
  apply slice0_subseteq in H. rewrite sort_perm in H.
  rewrite map_fmap in H. apply list_elem_of_fmap in H as (sentence & [= -> ->] & H).
  apply list_elem_of_filter in H as [_ H].
  apply occurs_in_includes. simpl.
  eapply occurs_in_trans; [apply trim_occurs|]. by eapply split_runs_occurs.
Qed.

Lemma extractSnippets_are_excerpts_witness :
  includes "I am a Python developer. Short. I like Java and the sea!"
           "I like Java and the sea" = true.
Proof.
  apply (extractSnippets_are_excerpts _ "java" (of_Z 2)).
  vm_compute. apply list_elem_of_further, list_elem_of_here.
Defined.

Lemma sort_all_NaN {A} (key : A → number) (l : list A) :
  Forall (λ x, key x = NaN) l →
  sort (λ a b, num_sub (key b) (key a)) l = l.
Proof.
  unfold sort. induction 1 as [|x l Hx Hl IH]; simpl; [done|].
  rewrite IH. destruct l as [|y l]; simpl; [done|].
  apply Forall_cons in Hl as [Hy _]. by rewrite Hx, Hy.
Qed.

Lemma filter_none {A} (P : A → Prop) `{!∀ x, Decision (P x)} (l : list A) :
  Forall (λ x, ¬ P x) l → filter P l = [].
Proof.
  induction 1 as [|x l Hx Hl IH]; [done|]. by rewrite filter_cons_False.
Qed.

Lemma filter_all {A} (P : A → Prop) `{!∀ x, Decision (P x)} (l : list A) :
  Forall P l → filter P l = l.
Proof.
  induction 1 as [|x l Hx Hl IH]; [done|]. rewrite filter_cons_True by done.
  by f_equal.
Qed.

(** X14.  When the query has no word longer than two characters, every
    sentence scores 0/0 = NaN, the sort leaves the sentences in place,
    and the snippets are the first [k] sentences of more than 10
    characters, in the order of the document. *)
Theorem extractSnippets_without_query_words (text query : string) (k : nat) :
  Forall (λ w, String.length w <= 2) (split " " (toLowerCase query)) →
  Search.extractSnippets text query (of_nat k) =
    take k (map trim (filter (λ s, 10 < String.length (trim s))
                        (split_runs Search.is_sentence_end text))).
Proof.
  intros Hq. unfold Search.extractSnippets.
  rewrite (filter_none (λ w, 2 < String.length w)).
  2: { eapply Forall_impl; [exact Hq|]. intros w Hw. simpl in *. lia. }
  set (sentences := filter _ (split_runs Search.is_sentence_end text)).
  cbv zeta.
  assert (Hscored :
    map (λ sentence : string,
           (trim sentence,
            num_div
              (of_nat (length (filter
                 (λ word, Search.word_hits (split " " (toLowerCase sentence)) word) [])))
              (of_nat (length (@nil string)))))
        sentences
    = map (λ sentence, (trim sentence, NaN)) sentences) by reflexivity.
  rewrite Hscored. clear Hscored.
  rewrite (sort_all_NaN snd).
  2: { apply Forall_forall. intros [t score] H.
       rewrite map_fmap in H. by apply list_elem_of_fmap in H as (s & [= -> ->] & _). }
  rewrite slice0_take, !map_fmap, <- fmap_take, <- list_fmap_compose.
  rewrite fmap_take. rewrite filter_all; [done|].
  apply Forall_forall. intros t Ht. apply subseteq_take in Ht.
  apply list_elem_of_fmap in Ht as (s & -> & Hs).
  subst sentences. apply list_elem_of_filter in Hs as [Hs _]. simpl. lia.
Qed.

Lemma extractSnippets_without_query_words_witness :
  Search.extractSnippets "First sentence here. Second sentence here. Third one here."
    "to be" (of_nat 2)
  = ["First sentence here"; "Second sentence here"].
Proof.
  rewrite extractSnippets_without_query_words; [reflexivity|].
  vm_compute. repeat constructor.
Defined.

(** X15.  A sentence that begins with a space, as every sentence after a
    full stop and a space does, counts as a match of every query word:
    its list of words begins with the empty string, which every word
    includes. *)
Theorem sentence_with_leading_space_matches_all (sentence word : string) :
  Search.word_hits (split " " (toLowerCase (String " " sentence))) word = true.
Proof.
  cbn [toLowerCase]. change (lower_char " ") with " "%char.
  unfold split. cbn [split_cons].
  destruct (split_cons " " (toLowerCase sentence)) as [w ws].
  rewrite Ascii.eqb_refl. unfold Search.word_hits. cbn [existsb].
  rewrite (includes_unfold word ""). by destruct word; rewrite orb_true_r.
Qed.

(** ** Uploading *)

(** X16.  The upload filter accepts exactly the file names for which
    [parseFileContent] has a branch: the default branch, 'Unsupported file
    type', is never reached for a file that passed the filter. *)
Theorem fileFilter_iff_parser (extname : string → string) (originalname : string) :
  Upload.fileFilter extname originalname = true ↔
  Upload.parser_of extname originalname ≠ None.
Proof.
  unfold Upload.fileFilter, Upload.parser_of. cbv zeta.
  set (ext := toLowerCase (extname originalname)).
  rewrite bool_decide_eq_true. unfold Upload.allowedTypes.
  rewrite !elem_of_cons, elem_of_nil.
  destruct (String.eqb_spec ext ".pdf") as [|H1]; [split; [done|tauto]|].
  destruct (String.eqb_spec ext ".docx") as [|H2]; [split; [done|tauto]|].
  destruct (String.eqb_spec ext ".doc") as [|H3]; [split; [done|tauto]|].
  destruct (String.eqb_spec ext ".txt") as [|H4]; [split; [done|tauto]|].
  split; [tauto|congruence].
Qed.

Lemma split_cons_length (sep : ascii) (s : string) :
  length (split_cons sep s).2 = count_char sep s.
Proof.
  induction s as [|c s IH]; [done|].
  cbn [split_cons count_char]. destruct (split_cons sep s) as [w ws].
  destruct (Ascii.eqb c sep); simpl in *; lia.
Qed.

(** X17.  The [wordCount] of an upload is the number of space characters
    of the content plus one, whatever lies between the spaces: an empty
    document has [wordCount] 1. *)
Theorem wordCount_counts_spaces (content : string) :
  Upload.wordCount content = S (count_char " " content).
Proof.
  unfold Upload.wordCount, split.
  pose proof (split_cons_length " " content) as H.
  destruct (split_cons " " content) as [w ws]. simpl in *. by rewrite H.
Qed.

Section EmbeddingFacts.
Local Open Scope list_scope.

Lemma occurrences_snoc (t x : string) (l : list string) :
  occurrences t (l ++ [x]) = occurrences t l + (if decide (x = t) then 1 else 0).
Proof.
  unfold occurrences. rewrite filter_app, length_app. f_equal.
  rewrite filter_cons, filter_nil. by destruct (decide (x = t)).
Qed.

Lemma occurrences_zero (t : string) (l : list string) :
  t ∉ l → occurrences t l = 0.
Proof.
  intros H. unfold occurrences.
  induction l as [|x l IH]; [done|].
  rewrite filter_cons. rewrite not_elem_of_cons in H. destruct H as [H1 H2].
  destruct (decide (x = t)); [congruence|]. by apply IH.
Qed.

(** What [termFreq] holds once the tokens [l] are counted *)
Lemma count_tokens_lookup (l : list string) (t : string) :
  foldl Upload.count_token ∅ l !! t =
    if bool_decide (t ∈ l) && negb (String.eqb t "__proto__")
    then Some (if bool_decide (t ∈ Upload.prototype_functions) then Upload.Text
               else Upload.Count (occurrences t l))
    else None.
Proof.
  induction l as [|x l IH] using rev_ind.
  - cbn [foldl]. rewrite lookup_empty.
    rewrite (bool_decide_eq_false_2 (t ∈ [])); [done|]. apply not_elem_of_nil.
  - rewrite foldl_app. cbn [foldl]. rewrite occurrences_snoc.
    set (o := foldl Upload.count_token ∅ l) in *.
    unfold Upload.count_token.
    destruct (decide (x = t)) as [->|Hne].
    + rewrite (bool_decide_eq_true_2 (t ∈ l ++ [t])).
      2: { rewrite elem_of_app, list_elem_of_singleton. by right. }
      destruct (String.eqb_spec t "__proto__") as [Hp|Hp].
      * rewrite IH. rewrite andb_false_r. done.
      * cbn [negb andb]. rewrite IH. 
        destruct (bool_decide (t ∈ l)) eqn:El; cbn [andb negb].
        -- destruct (bool_decide (t ∈ Upload.prototype_functions)); rewrite lookup_insert_eq; [done|].
           do 2 f_equal. lia.
        -- destruct (bool_decide (t ∈ Upload.prototype_functions)); rewrite lookup_insert_eq; [done|].
           apply bool_decide_eq_false in El. rewrite (occurrences_zero _ _ El). done.
    + assert (Hin : bool_decide (t ∈ l ++ [x]) = bool_decide (t ∈ l)).
      { apply bool_decide_ext. rewrite elem_of_app, list_elem_of_singleton.
        split; [intros [?|?]; [done|congruence]|by left]. }
      rewrite Hin, Nat.add_0_r, <- IH.
      destruct (String.eqb x "__proto__"); [done|].
      destruct (o !! x) as [[n|]|]; [| |destruct (bool_decide (x ∈ _))];
        cbv beta iota; by rewrite lookup_insert_ne.
Qed.

End EmbeddingFacts.

(** X18.  The embeddings of a text map each kept token to its number of
    occurrences divided by the number of kept tokens, with two exceptions
    that come from [termFreq] being a plain object: a token named like a
    function of [Object.prototype], such as [constructor], gets NaN, and
    the token [__proto__] gets no entry at all.  Nothing else is a key. *)
Theorem generateEmbeddings_frequency
    (tokenize : string → list string) (text term : string) :
  let tokens := Search.filtered_tokens tokenize text in
  Upload.generateEmbeddings tokenize text !! term =
    if bool_decide (term ∈ tokens) && negb (String.eqb term "__proto__")
    then Some (if bool_decide (term ∈ Upload.prototype_functions) then NaN
               else num_div (of_nat (occurrences term tokens)) (of_nat (length tokens)))
    else None.
Proof.
  cbv zeta. unfold Upload.generateEmbeddings. cbv zeta.
  rewrite lookup_fmap, count_tokens_lookup.
  destruct (bool_decide (term ∈ _) && _); [|done].
  by destruct (bool_decide (term ∈ Upload.prototype_functions)).
Qed.

(** ** Listing and deleting resumes *)

Section StoreFacts.
Local Open Scope list_scope.

Lemma limit_offset_elem {A : Type} (limit offset : Z) (rows : list A) (x : A) :
  x ∈ Sqlite.limit_offset limit offset rows → x ∈ rows.
Proof.
  unfold Sqlite.limit_offset. cbv zeta. intros H.
  destruct (limit <? 0)%Z.
  - by eapply subseteq_drop.
  - by eapply subseteq_drop, subseteq_take.
Qed.

Lemma limit_offset_all {A : Type} (limit : Z) (rows : list A) :
  (Z.of_nat (length rows) <= limit)%Z → Sqlite.limit_offset limit 0 rows = rows.
Proof.
  intros H. unfold Sqlite.limit_offset. cbv zeta. rewrite drop_0.
  destruct (Z.ltb_spec limit 0); [done|]. apply take_ge. lia.
Qed.

Lemma limit_offset_length {A : Type} (limit offset : Z) (rows : list A) :
  (0 <= limit)%Z → (0 <= offset)%Z →
  Z.of_nat (length (Sqlite.limit_offset limit offset rows))
    = Z.max 0 (Z.min limit (Z.of_nat (length rows) - offset)).
Proof.
  intros Hl Ho. unfold Sqlite.limit_offset. cbv zeta.
  destruct (Z.ltb_spec limit 0); [lia|].
  rewrite length_take, length_drop. lia.
Qed.

Lemma joined_elem (db : ResumeStore.database) (rows : list ResumeStore.resume_record)
    (it : ResumeStore.item) :
  it ∈ flat_map (ResumeStore.joined db) rows ↔
  ∃ r, r ∈ rows ∧
       ResumeStore.users db !! ResumeStore.r_user_id r = Some (ResumeStore.item_uploader it) ∧
       ResumeStore.item_id it = ResumeStore.r_id r ∧
       ResumeStore.item_filename it = ResumeStore.r_original_name r.
Proof.
  rewrite list_elem_of_In, in_flat_map. split.
  - intros (r & Hr & Hit). exists r. apply list_elem_of_In in Hr, Hit.
    unfold ResumeStore.joined in Hit.
    destruct (ResumeStore.users db !! ResumeStore.r_user_id r) as [name|];
      [|by apply elem_of_nil in Hit].
    apply list_elem_of_singleton in Hit as ->. done.
  - intros (r & Hr & Hu & Hid & Hname). exists r. rewrite <- !list_elem_of_In.
    split; [done|]. unfold ResumeStore.joined. rewrite Hu.
    apply list_elem_of_singleton. destruct it; simpl in *. by subst.
Qed.

Lemma joined_length (db : ResumeStore.database) (rows : list ResumeStore.resume_record) :
  Forall (λ r, is_Some (ResumeStore.users db !! ResumeStore.r_user_id r)) rows →
  length (flat_map (ResumeStore.joined db) rows) = length rows.
Proof.
  induction 1 as [|r rows [name Hr] _ IH]; [done|].
  cbn [flat_map]. rewrite length_app, IH. unfold ResumeStore.joined. by rewrite Hr.
Qed.

Lemma joined_lists (db : ResumeStore.database) (rows : list ResumeStore.resume_record) :
  Forall (λ r, is_Some (ResumeStore.users db !! ResumeStore.r_user_id r)) rows →
  Forall2 (lists db) (flat_map (ResumeStore.joined db) rows) rows.
Proof.
  induction 1 as [|r rows [name Hr] _ IH]; [constructor|].
  cbn [flat_map]. unfold ResumeStore.joined at 1. rewrite Hr.
  constructor; [|done]. by split_and!.
Qed.

End StoreFacts.

(** X19.  Without a filter, a caller of role user is listed their own
    resumes only. *)
Theorem get_resumes_own_only
    (u : user) (limit offset : option Z) (db : ResumeStore.database)
    (read count : db_outcome) (items : list ResumeStore.item)
    (next : option Z) (total : Z) (log : list string) (it : ResumeStore.item) :
  role u = "user" →
  ResumeStore.get_resumes u limit offset "" db read count
    = (ResumeStore.Listed items next total, log) →
  it ∈ items →
  ∃ r, r ∈ ResumeStore.resumes db ∧ ResumeStore.r_user_id r = userId u ∧
       ResumeStore.item_id it = ResumeStore.r_id r ∧
       ResumeStore.item_filename it = ResumeStore.r_original_name r.
Proof.
  intros Hrole. unfold ResumeStore.get_resumes. cbv zeta.
  destruct read; [|discriminate]. destruct count; [|discriminate].
  intros [= <- _ _ _] Hit.
  apply limit_offset_elem, joined_elem in Hit as (r & Hr & _ & Hid & Hname).
  apply list_elem_of_filter in Hr as [Hw Hr].
  exists r. split_and!; try done.
  unfold ResumeStore.where_clause in Hw. rewrite Hrole in Hw. simpl in Hw. lia.
Qed.

Lemma get_resumes_own_only_witness :
  ∃ it, it ∈ [ {| ResumeStore.item_id := 1; ResumeStore.item_filename := "alice.txt";
                  ResumeStore.item_uploader := "Alice" |} ] ∧
  ∃ r, r ∈ ResumeStore.resumes Cases.store_db ∧
       ResumeStore.r_user_id r = userId Cases.alice ∧
       ResumeStore.item_id it = ResumeStore.r_id r ∧
       ResumeStore.item_filename it = ResumeStore.r_original_name r.
Proof.
  eexists. split; [apply list_elem_of_here|].
  eapply (get_resumes_own_only Cases.alice None None Cases.store_db DbOk DbOk).
  - reflexivity.
  - vm_compute. reflexivity.
  - apply list_elem_of_here.
Defined.

(** X20.  With a filter [q], a resume whose content matches is listed to
    every caller, whoever uploaded it: in the WHERE clause the restriction
    to the caller's own resumes is attached to the file-name test only. *)
Theorem get_resumes_filter_lists_content_matches
    (u : user) (limit : Z) (q : string) (db : ResumeStore.database)
    (r : ResumeStore.resume_record) (name : string) :
  q ≠ "" →
  r ∈ ResumeStore.resumes db →
  ResumeStore.users db !! ResumeStore.r_user_id r = Some name →
  Sqlite.like ("%" +:+ q +:+ "%") (ResumeStore.r_content r) = true →
  (Z.of_nat (length (ResumeStore.resumes db)) <= limit)%Z →
  ∃ items next total,
    ResumeStore.get_resumes u (Some limit) None q db DbOk DbOk
      = (ResumeStore.Listed items next total, []) ∧
    {| ResumeStore.item_id := ResumeStore.r_id r;
       ResumeStore.item_filename := ResumeStore.r_original_name r;
       ResumeStore.item_uploader := name |} ∈ items.
Proof.
  intros Hq Hr Hname Hlike Hlimit.
  unfold ResumeStore.get_resumes. cbv zeta. do 3 eexists. split; [reflexivity|].
  change (default 10%Z (Some limit)) with limit.
  change (default 0%Z None) with 0%Z.
  assert (Hlen : length (flat_map (ResumeStore.joined db)
                   (filter (λ r, ResumeStore.where_clause u q r = true)
                      (ResumeStore.resumes db))) <= length (ResumeStore.resumes db)).
  { etrans; [|apply (length_filter (λ r, ResumeStore.where_clause u q r = true))].
    generalize (filter (λ r, ResumeStore.where_clause u q r = true) (ResumeStore.resumes db)).
    intros l. induction l as [|x l IH]; [done|].
    cbn [flat_map]. rewrite length_app. unfold ResumeStore.joined at 1.
    destruct (ResumeStore.users db !! ResumeStore.r_user_id x); simpl; lia. }
  rewrite limit_offset_all by lia.
  apply joined_elem. exists r. split_and!; try done.
  apply list_elem_of_filter. split; [|done].
  unfold ResumeStore.where_clause. cbv zeta.
  destruct q; [done|]. rewrite Hlike. by destruct (String.eqb (role u) "user").
Qed.

Lemma get_resumes_filter_lists_content_matches_witness :
  ∃ items next total,
    ResumeStore.get_resumes Cases.alice (Some 10%Z) None "python" Cases.store_db DbOk DbOk
      = (ResumeStore.Listed items next total, []) ∧
    {| ResumeStore.item_id := 2; ResumeStore.item_filename := "bob.txt";
       ResumeStore.item_uploader := "Bob" |} ∈ items.
Proof.
  eapply (get_resumes_filter_lists_content_matches Cases.alice 10 "python" Cases.store_db
            {| ResumeStore.r_id := 2; ResumeStore.r_user_id := 3;
               ResumeStore.r_original_name := "bob.txt";
               ResumeStore.r_content := "Experienced Python developer." |} "Bob").
  - discriminate.
  - apply list_elem_of_here.
  - vm_compute. reflexivity.
  - vm_compute. reflexivity.
  - vm_compute. discriminate.
Defined.

(** X21.  Paging.  When every resume has its uploader in [users], a page
    asked for with a limit and an offset that are not negative lists the
    matching rows from [offset] on, in the order of the query (that of
    [resumes db]), up to [limit] of them, each with its own id, file
    name and uploader; [total] counts
    the matching rows; [next_offset] is null exactly on the page that
    reaches the last matching row, and otherwise it is the index of the
    first row that was not listed. *)
Theorem get_resumes_paging
    (u : user) (limit offset : Z) (q : string) (db : ResumeStore.database)
    (read count : db_outcome) (items : list ResumeStore.item)
    (next : option Z) (total : Z) (log : list string) :
  Forall (λ r, is_Some (ResumeStore.users db !! ResumeStore.r_user_id r))
    (ResumeStore.resumes db) →
  (0 <= limit)%Z → (0 <= offset)%Z →
  ResumeStore.get_resumes u (Some limit) (Some offset) q db read count
    = (ResumeStore.Listed items next total, log) →
  let matching :=
    filter (λ r, ResumeStore.where_clause u q r = true) (ResumeStore.resumes db) in
  total = Z.of_nat (length matching) ∧
  Forall2 (lists db) items
    (take (Z.to_nat limit) (drop (Z.to_nat offset) matching)) ∧
  Z.of_nat (length items) = Z.max 0 (Z.min limit (total - offset)) ∧
  match next with
  | None => (total <= offset + Z.of_nat (length items))%Z
  | Some n => n = (offset + Z.of_nat (length items))%Z ∧ (n < total)%Z
  end.
Proof.
  intros Husers Hl Ho. unfold ResumeStore.get_resumes. cbv zeta.
  destruct read; [|discriminate]. destruct count; [|discriminate].
  change (default 10%Z (Some limit)) with limit.
  change (default 0%Z (Some offset)) with offset.
  intros [= <- <- <- _].
  set (rows := filter (λ r, ResumeStore.where_clause u q r = true) (ResumeStore.resumes db)).
  assert (Hrows : Forall (λ r, is_Some (ResumeStore.users db !! ResumeStore.r_user_id r)) rows).
  { apply Forall_forall. intros r Hr.
    apply list_elem_of_filter in Hr as [_ Hr].
    by eapply (proj1 (Forall_forall _ _) Husers). }
  assert (Hlen : length (flat_map (ResumeStore.joined db) rows) = length rows)
    by by apply joined_length.
  rewrite limit_offset_length, Hlen by lia.
  split; [done|]. split.
  - unfold Sqlite.limit_offset. cbv zeta.
    destruct (Z.ltb_spec limit 0); [lia|].
    by apply Forall2_take, Forall2_drop, joined_lists.
  - split; [done|].
    destruct (Z.ltb_spec (offset + limit) (Z.of_nat (length rows))); lia.
Qed.

Lemma get_resumes_paging_witness :
  let matching :=
    filter (λ r, ResumeStore.where_clause Cases.alice "e" r = true)
      (ResumeStore.resumes Cases.store_db) in
  let items := [ {| ResumeStore.item_id := 2; ResumeStore.item_filename := "bob.txt";
                    ResumeStore.item_uploader := "Bob" |} ] in
  2%Z = Z.of_nat (length matching) ∧
  Forall2 (lists Cases.store_db) items (take (Z.to_nat 1) (drop (Z.to_nat 0) matching)) ∧
  Z.of_nat (length items) = Z.max 0 (Z.min 1 (2 - 0)) ∧
  (1%Z = (0 + Z.of_nat (length items))%Z ∧ (1 < 2)%Z).
Proof.
  eapply (get_resumes_paging Cases.alice 1 0 "e" Cases.store_db DbOk DbOk
            [ {| ResumeStore.item_id := 2; ResumeStore.item_filename := "bob.txt";
                 ResumeStore.item_uploader := "Bob" |} ] (Some 1%Z) 2 []).
  - repeat constructor; vm_compute; eauto.
  - lia.
  - lia.
  - vm_compute. reflexivity.
Defined.

Lemma NoDup_map_inj {A B : Type} (f : A → B) (l : list A) (x y : A) :
  NoDup (map f l) → x ∈ l → y ∈ l → f x = f y → x = y.
Proof.
  induction l as [|a l IH]; intros Hnd Hx Hy Hf.
  - by apply elem_of_nil in Hx.
  - cbn [map] in Hnd. apply NoDup_cons in Hnd as [Ha Hnd].
    apply elem_of_cons in Hx as [->|Hx]; apply elem_of_cons in Hy as [->|Hy].
    + done.
    + exfalso. apply Ha. rewrite Hf. rewrite map_fmap. by apply list_elem_of_fmap_2.
    + exfalso. apply Ha. rewrite <- Hf. rewrite map_fmap. by apply list_elem_of_fmap_2.
    + by apply IH.
Qed.

(** X22.  Deleting as a caller of role user.  Whatever the outcome, the
    resumes of other users stay and [users] is untouched; on success the
    resume of the requested id was the caller's own and it is the one row
    that is gone.  Ids are unique, [id] being the primary key. *)
Theorem delete_resume_by_user
    (u : user) (resume : Z) (db : ResumeStore.database)
    (read unlink write : db_outcome) (response : ResumeStore.delete_response)
    (db' : ResumeStore.database) (log : list string) :
  role u = "user" →
  NoDup (map ResumeStore.r_id (ResumeStore.resumes db)) →
  ResumeStore.delete_resume u resume db read unlink write = (response, db', log) →
  ResumeStore.users db' = ResumeStore.users db ∧
  (∀ r, r ∈ ResumeStore.resumes db → ResumeStore.r_user_id r ≠ userId u →
        r ∈ ResumeStore.resumes db') ∧
  (∀ message i, response = ResumeStore.Deleted message i →
     i = resume ∧
     ∃ r, r ∈ ResumeStore.resumes db ∧ ResumeStore.r_id r = resume ∧
          ResumeStore.r_user_id r = userId u ∧
          ∀ r', r' ∈ ResumeStore.resumes db' ↔ r' ∈ ResumeStore.resumes db ∧ r' ≠ r).
Proof.
  intros Hrole Hnd. unfold ResumeStore.delete_resume.
  destruct read; [|by intros [= <- <- _]].
  destruct (ResumeStore.find_resume u resume db) as [row|] eqn:Efind;
    [|by intros [= <- <- _]].
  destruct write; [|by intros [= <- <- _]].
  cbv zeta. intros [= <- <- _]. cbn [ResumeStore.users ResumeStore.resumes].
  unfold ResumeStore.find_resume in Efind. apply find_some in Efind as [Hrow Hcond].
  apply list_elem_of_In in Hrow. rewrite Hrole in Hcond. simpl in Hcond.
  apply andb_true_iff in Hcond as [Hid Hown].
  apply Z.eqb_eq in Hid, Hown.
  split; [done|]. split.
  - intros r Hr Hother. apply list_elem_of_filter. split; [|done].
    intros Heq. apply Hother. rewrite <- Hown.
    f_equal. eapply (NoDup_map_inj ResumeStore.r_id); eauto. congruence.
  - intros message i [= _ <-]. split; [done|].
    exists row. split_and!; try done.
    intros r'. rewrite list_elem_of_filter. split.
    + intros [Hne Hr']. split; [done|]. intros ->. by apply Hne.
    + intros [Hr' Hne]. split; [|done]. intros Heq. apply Hne.
      eapply (NoDup_map_inj ResumeStore.r_id); eauto. congruence.
Qed.

Lemma delete_resume_by_user_witness :
  ∃ db', ResumeStore.users db' = ResumeStore.users Cases.store_db ∧
  (∀ r, r ∈ ResumeStore.resumes Cases.store_db →
        ResumeStore.r_user_id r ≠ userId Cases.alice →
        r ∈ ResumeStore.resumes db') ∧
  (∀ message i, ResumeStore.Deleted "Resume deleted successfully" 1 = ResumeStore.Deleted message i →
     i = 1%Z ∧
     ∃ r, r ∈ ResumeStore.resumes Cases.store_db ∧ ResumeStore.r_id r = 1%Z ∧
          ResumeStore.r_user_id r = userId Cases.alice ∧
          ∀ r', r' ∈ ResumeStore.resumes db' ↔ r' ∈ ResumeStore.resumes Cases.store_db ∧ r' ≠ r).
Proof.
  eexists.
  eapply (delete_resume_by_user Cases.alice 1 Cases.store_db DbOk DbOk DbOk _ _ []).
  - reflexivity.
  - vm_compute. repeat constructor; rewrite ?not_elem_of_cons, ?elem_of_nil; intuition discriminate.
  - vm_compute. reflexivity.
Defined.

(** ** Idempotency keys *)

Section IdempotencyFacts.

Context {app_state json : Type}.

Local Open Scope list_scope.

(** What is stored under a fresh key once the handler has responded *)
Lemma respond_fresh (key : string) (st : nat) (v : json)
    (store_json store_send : db_outcome) (keys : Idempotency.table json) :
  keys !! key = None →
  Idempotency.respond key st v store_json store_send keys =
    match store_json, store_send with
    | DbOk, DbOk =>
        (<[key := {| Idempotency.status := st; Idempotency.data := Idempotency.Value v |}]> keys,
         ["Failed to store idempotency key: " +:+ Idempotency.unique_violation])
    | DbOk, DbError e =>
        (<[key := {| Idempotency.status := st; Idempotency.data := Idempotency.Value v |}]> keys,
         ["Failed to store idempotency key: " +:+ e])
    | DbError e, DbOk =>
        (<[key := {| Idempotency.status := st; Idempotency.data := Idempotency.BodyText v |}]> keys,
         ["Failed to store idempotency key: " +:+ e])
    | DbError e, DbError e' =>
        (keys, ["Failed to store idempotency key: " +:+ e;
                "Failed to store idempotency key: " +:+ e'])
    end.
Proof.
  intros Hfresh. unfold Idempotency.respond, Idempotency.store.
  unfold Idempotency.table in *.
  destruct store_json, store_send; rewrite ?Hfresh; cbv beta iota zeta;
    rewrite ?lookup_insert_eq, ?Hfresh; reflexivity.
Qed.

End IdempotencyFacts.





(** ** Accounts *)

Section AccountFacts.
Local Open Scope list_scope.

Lemma by_email_None (email : string) (db : Accounts.database) :
  Accounts.by_email email db = None → email ∉ map Accounts.a_email db.
Proof.
  unfold Accounts.by_email. intros H Hin.
  rewrite map_fmap in Hin. apply list_elem_of_fmap in Hin as (a & -> & Ha).
  apply list_elem_of_In in Ha.
  pose proof (find_none _ _ H a Ha) as Hf. simpl in Hf.
  by rewrite String.eqb_refl in Hf.
Qed.

Lemma well_formed_snoc (db : Accounts.database) (a : Accounts.account) :
  well_formed_users db →
  Accounts.a_id a ∉ map Accounts.a_id db →
  Accounts.a_email a ∉ map Accounts.a_email db →
  Accounts.a_role a ∈ Accounts.roles →
  well_formed_users (db ++ [a]).
Proof.
  intros (Hid & Hemail & Hrole) Ha He Hr. unfold well_formed_users.
  rewrite !map_app. cbn [map]. split_and!.
  - apply NoDup_app. split_and!; [done| |apply NoDup_singleton].
    intros x Hx Hx'. apply list_elem_of_singleton in Hx' as ->. done.
  - apply NoDup_app. split_and!; [done| |apply NoDup_singleton].
    intros x Hx Hx'. apply list_elem_of_singleton in Hx' as ->. done.
  - apply Forall_app. split; [done|]. by apply Forall_singleton.
Qed.

Lemma missing_false (v : option string) :
  Accounts.missing v = false → ∃ s, v = Some s ∧ s ≠ "".
Proof. destruct v as [[|c s]|]; try discriminate. intros _. by eexists. Qed.

End AccountFacts.

(** X25.  Creating accounts keeps the table [users] as its schema wants
    it.  Whatever [register] and the admin's [POST /users] are sent, and
    whatever the outcomes of the database calls, afterwards ids and emails
    are still unique and every role is one of user, recruiter and admin.
    [lastID] is an id that is not in use. *)
Theorem creating_accounts_keeps_users_well_formed
    (u : user) (email password name role : option string) (db : Accounts.database)
    (read write : db_outcome) (hashedPassword : string) (lastID : Z)
    (token : Accounts.claims → string) :
  well_formed_users db →
  lastID ∉ map Accounts.a_id db →
  well_formed_users
    (Accounts.register email password name role db read write hashedPassword lastID token).2 ∧
  well_formed_users
    (Accounts.create_user u name email password role db read write hashedPassword lastID).1.2.
Proof.
  intros Hwf Hfresh. split.
  - unfold Accounts.register. cbv zeta.
    destruct (_ || _); [done|].
    destruct (bool_decide (default "user" role ∈ Accounts.roles)) eqn:Er; [|done].
    apply bool_decide_eq_true in Er. cbn [negb].
    destruct read; [|done].
    destruct (Accounts.by_email _ db) eqn:Ee; [done|].
    destruct write; [|done]. cbn [snd].
    apply well_formed_snoc; try done. by apply by_email_None.
  - unfold Accounts.create_user. cbv zeta.
    destruct (Accounts.requireAdmin u); [done|].
    destruct (_ || _); [done|].
    destruct (bool_decide (default "user" role ∈ Accounts.roles)) eqn:Er; [|done].
    apply bool_decide_eq_true in Er. cbn [negb].
    destruct read; [|done].
    destruct (Accounts.by_email _ db) eqn:Ee; [done|].
    destruct write; [|done]. cbn [fst snd].
    apply well_formed_snoc; try done. by apply by_email_None.
Qed.

Lemma creating_accounts_keeps_users_well_formed_witness :
  well_formed_users
    (Accounts.register (Some "eve@example.org") (Some "secret") (Some "Eve") (Some "admin")
       [Cases.root] DbOk DbOk "$2a$10$eve" 2 (λ _, "abc.def")).2 ∧
  well_formed_users
    (Accounts.create_user {| userId := 1; role := "admin" |}
       (Some "Eve") (Some "eve@example.org") (Some "secret") (Some "admin")
       [Cases.root] DbOk DbOk "$2a$10$eve" 2).1.2.
Proof.
  apply creating_accounts_keeps_users_well_formed.
  - unfold well_formed_users. split_and!.
    + apply NoDup_singleton.
    + apply NoDup_singleton.
    + apply Forall_singleton. vm_compute. apply list_elem_of_further, list_elem_of_further, list_elem_of_here.
  - simpl. rewrite list_elem_of_singleton. discriminate.
Defined.

Section AccountUpdates.
Local Open Scope list_scope.

Lemma NoDup_map_filter {A B : Type} (f : A → B) (P : A → Prop)
    `{!∀ x, Decision (P x)} (l : list A) :
  NoDup (map f l) → NoDup (map f (filter P l)).
Proof.
  induction l as [|a l IH]; [done|].
  cbn [map]. rewrite NoDup_cons. intros [Ha Hl].
  rewrite filter_cons. destruct (decide (P a)); [|by apply IH].
  cbn [map]. apply NoDup_cons. split; [|by apply IH].
  intros Hin. apply Ha. rewrite map_fmap in *.
  apply list_elem_of_fmap in Hin as (b & -> & Hb).
  apply list_elem_of_filter in Hb as [_ Hb]. by apply list_elem_of_fmap_2.
Qed.

Lemma apply_updates_id (id : Z) (name email role : option string) (a : Accounts.account) :
  Accounts.a_id (Accounts.apply_updates id name email role a) = Accounts.a_id a.
Proof. unfold Accounts.apply_updates. by destruct (_ =? _)%Z. Qed.

Lemma apply_updates_role (id : Z) (name email role : option string) (a : Accounts.account) :
  Accounts.a_role a ∈ Accounts.roles →
  Accounts.a_role (Accounts.apply_updates id name email role a) ∈ Accounts.roles.
Proof.
  intros H. unfold Accounts.apply_updates. destruct (_ =? _)%Z; [|done].
  cbn [Accounts.a_role]. destruct (negb (Accounts.missing role)); [|done].
  cbn [andb]. destruct (bool_decide _) eqn:E; [|done]. by apply bool_decide_eq_true in E.
Qed.

Lemma apply_updates_other (id : Z) (name email role : option string) (l : Accounts.database) :
  id ∉ map Accounts.a_id l →
  map (Accounts.apply_updates id name email role) l = l.
Proof.
  induction l as [|a l IH]; [done|].
  cbn [map]. rewrite not_elem_of_cons. intros [Ha Hl].
  rewrite IH by done. f_equal. unfold Accounts.apply_updates.
  destruct (Z.eqb_spec (Accounts.a_id a) id); [congruence|done].
Qed.

(** Setting the email of the row [id] to an email that no other row has
    keeps the emails unique *)
Lemma apply_updates_emails (id : Z) (name email role : option string) (e : string)
    (db : Accounts.database) :
  email = Some e → e ≠ "" →
  NoDup (map Accounts.a_id db) →
  NoDup (map Accounts.a_email db) →
  (∀ a, a ∈ db → Accounts.a_email a = e → Accounts.a_id a = id) →
  NoDup (map Accounts.a_email (map (Accounts.apply_updates id name email role) db)).
Proof.
  intros -> He. induction db as [|a l IH]; [done|].
  cbn [map]. rewrite !NoDup_cons. intros [Hid Hids] [Hem Hems] Hother.
  assert (Hl : ∀ b, b ∈ l → Accounts.a_email b = e → Accounts.a_id b = id).
  { intros b Hb. apply Hother. by apply list_elem_of_further. }
  split; [|by apply IH].
  destruct (Z.eqb_spec (Accounts.a_id a) id) as [Ha|Ha].
  - subst id. rewrite apply_updates_other by done.
    unfold Accounts.apply_updates. rewrite Z.eqb_refl. cbn [Accounts.a_email].
    destruct e as [|c e]; [done|]. cbn [Accounts.missing default from_option Datatypes.id].
    intros Hin. rewrite map_fmap in Hin. apply list_elem_of_fmap in Hin as (b & Hb & Hbl).
    apply Hid. rewrite <- (Hl b Hbl) by done. rewrite map_fmap. by apply list_elem_of_fmap_2.
  - assert (Hae : Accounts.a_email a ≠ e).
    { intros Heq. apply Ha. apply Hother; [apply list_elem_of_here|done]. }
    replace (Accounts.apply_updates id name (Some e) role a) with a.
    2: { unfold Accounts.apply_updates. by destruct (Z.eqb_spec (Accounts.a_id a) id). }
    intros Hin. rewrite !map_fmap in Hin.
    apply list_elem_of_fmap in Hin as (b' & Hb' & Hin).
    apply list_elem_of_fmap in Hin as (b & -> & Hb).
    unfold Accounts.apply_updates in Hb'.
    destruct (Accounts.a_id b =? id)%Z.
    + cbn [Accounts.a_email] in Hb'. destruct e as [|c e]; [done|].
      cbn [Accounts.missing default from_option Datatypes.id] in Hb'. done.
    + apply Hem. rewrite Hb', map_fmap. by apply list_elem_of_fmap_2.
Qed.

Lemma apply_updates_keeps_email (id : Z) (name email role : option string)
    (db : Accounts.database) :
  Accounts.missing email = true →
  map Accounts.a_email (map (Accounts.apply_updates id name email role) db)
    = map Accounts.a_email db.
Proof.
  intros Hm. rewrite map_map. apply map_ext. intros a.
  unfold Accounts.apply_updates. destruct (_ =? _)%Z; [|done].
  cbn [Accounts.a_email]. by rewrite Hm.
Qed.

End AccountUpdates.

(** X26.  Updating and deleting accounts keep the table [users] as its
    schema wants it: the admin's [PATCH /users/:id] and
    [DELETE /users/:id] leave ids and emails unique and every role one of
    user, recruiter and admin, whatever they are sent. *)
Theorem changing_accounts_keeps_users_well_formed
    (u : user) (id : Z) (name email role : option string) (db : Accounts.database)
    (read read_email write : db_outcome) :
  well_formed_users db →
  well_formed_users
    (Accounts.update_user u id name email role db read read_email write).1.2 ∧
  well_formed_users (Accounts.delete_user u id db read write).1.2.
Proof.
  intros Hwf. split.
  - unfold Accounts.update_user. cbv zeta.
    destruct (Accounts.requireAdmin u); [done|].
    destruct read; [|done].
    destruct (Accounts.by_id id db) as [found|] eqn:Efound; [|done].
    unfold Accounts.by_id in Efound. apply find_some in Efound as [Hfound Hfid].
    apply list_elem_of_In in Hfound. apply Z.eqb_eq in Hfid.
    destruct Hwf as (Hids & Hemails & Hroles).
    assert (Hupdated : ∀ e, email = Some e → e ≠ "" →
              (∀ a, a ∈ db → Accounts.a_email a = e → Accounts.a_id a = id) →
              well_formed_users (map (Accounts.apply_updates id name email role) db)).
    { intros e He Hne Hother. unfold well_formed_users. split_and!.
      - rewrite map_map. erewrite map_ext; [exact Hids|]. apply apply_updates_id.
      - by eapply apply_updates_emails.
      - apply Forall_forall. intros a' Ha'. rewrite map_fmap in Ha'.
        apply list_elem_of_fmap in Ha' as (a & -> & Ha). apply apply_updates_role.
        by apply (proj1 (Forall_forall _ _) Hroles). }
    assert (Hkept : Accounts.missing email = true →
              well_formed_users (map (Accounts.apply_updates id name email role) db)).
    { intros Hm. unfold well_formed_users. split_and!.
      - rewrite map_map. erewrite map_ext; [exact Hids|]. apply apply_updates_id.
      - by rewrite apply_updates_keeps_email.
      - apply Forall_forall. intros a' Ha'. rewrite map_fmap in Ha'.
        apply list_elem_of_fmap in Ha' as (a & -> & Ha). apply apply_updates_role.
        by apply (proj1 (Forall_forall _ _) Hroles). }
    destruct (Accounts.missing email) eqn:Em.
    + cbn [negb andb]. destruct (_ && _); [done|]. destruct write; [|done].
      cbn [fst snd]. by apply Hkept.
    + apply missing_false in Em as (e & -> & Hne). cbn [negb andb default from_option Datatypes.id].
      destruct (String.eqb_spec e (Accounts.a_email found)) as [Hsame|Hdiff]; cbn [negb].
      * destruct (_ && _); [done|]. destruct write; [|done]. cbn [fst snd].
        apply (Hupdated e); try done. intros a Ha Hae. rewrite <- Hfid. f_equal.
        eapply (NoDup_map_inj Accounts.a_email); eauto. congruence.
      * destruct read_email; [|done].
        destruct (List.find _ db) as [other|] eqn:Efind; [done|].
        destruct (_ && _); [done|]. destruct write; [|done]. cbn [fst snd].
        apply (Hupdated e); try done. intros a Ha Hae.
        apply list_elem_of_In in Ha. pose proof (find_none _ _ Efind a Ha) as Hf.
        simpl in Hf. rewrite Hae, String.eqb_refl in Hf. simpl in Hf.
        apply negb_false_iff, Z.eqb_eq in Hf. done.
  - unfold Accounts.delete_user.
    destruct (Accounts.requireAdmin u); [done|].
    destruct (id =? userId u)%Z; [done|].
    destruct read; [|done]. destruct (Accounts.by_id id db) as [found|]; [|done].
    destruct write; [|done]. cbn [fst snd].
    destruct Hwf as (Hids & Hemails & Hroles). unfold well_formed_users. split_and!.
    + by apply NoDup_map_filter.
    + by apply NoDup_map_filter.
    + apply Forall_forall. intros a Ha. apply list_elem_of_filter in Ha as [_ Ha].
      by apply (proj1 (Forall_forall _ _) Hroles).
Qed.

Lemma changing_accounts_keeps_users_well_formed_witness :
  well_formed_users
    (Accounts.update_user {| userId := 2; role := "admin" |} 1
       (Some "Admin") (Some "root@example.org") (Some "owner")
       [Cases.root] DbOk DbOk DbOk).1.2 ∧
  well_formed_users
    (Accounts.delete_user {| userId := 2; role := "admin" |} 1 [Cases.root] DbOk DbOk).1.2.
Proof.
  apply changing_accounts_keeps_users_well_formed.
  unfold well_formed_users. split_and!.
  - apply NoDup_singleton.
  - apply NoDup_singleton.
  - apply Forall_singleton. vm_compute.
    apply list_elem_of_further, list_elem_of_further, list_elem_of_here.
Defined.

Section SessionFacts.
Local Open Scope list_scope.

Lemma find_snoc_fresh {A : Type} (f : A → bool) (l : list A) (x : A) :
  List.find f l = None → f x = true → List.find f (l ++ [x]) = Some x.
Proof.
  induction l as [|a l IH]; cbn [List.find app]; intros Hl Hx.
  - by rewrite Hx.
  - destruct (f a); [done|]. by apply IH.
Qed.

Lemma split_cons_no_sep (sep : ascii) (s : string) :
  count_char sep s = 0 → split_cons sep s = (s, []).
Proof.
  induction s as [|c s IH]; [done|].
  cbn [count_char split_cons]. destruct (Ascii.eqb c sep); [done|].
  intros H. by rewrite IH.
Qed.

Lemma bearer_token (token : string) :
  count_char " " token = 0 → split " " ("Bearer " +:+ token) !! 1 = Some token.
Proof.
  intros H. unfold split. rewrite !append_cons. cbn [split_cons].
  change ("" +:+ token) with token. rewrite (split_cons_no_sep _ _ H). reflexivity.
Qed.

End SessionFacts.

(** X27.  Register, then log in.  After a successful registration, a
    login with the same email and password succeeds when bcrypt accepts
    the password for the hash that was stored, and it answers with the
    same account: the same id, email, name and role. *)
Theorem register_then_login
    (compareSync : string → string → bool)
    (email password name role : option string) (db : Accounts.database)
    (read write : db_outcome) (hashedPassword : string) (lastID : Z)
    (token token' : Accounts.claims → string)
    (status : nat) (who : Accounts.profile) (t : string) (db' : Accounts.database) :
  Accounts.register email password name role db read write hashedPassword lastID token
    = (Accounts.Session status who t, db') →
  compareSync (default "" password) hashedPassword = true →
  Accounts.login compareSync email password db' DbOk token'
    = Accounts.Session 200 who
        (token' {| Accounts.c_userId := Accounts.p_id who;
                   Accounts.c_email := Accounts.p_email who;
                   Accounts.c_role := Accounts.p_role who |}).
Proof.
  unfold Accounts.register, Accounts.login. cbv zeta.
  destruct (Accounts.missing email) eqn:Ee; [discriminate|].
  destruct (Accounts.missing password) eqn:Ep; [discriminate|].
  destruct (Accounts.missing name) eqn:En; [discriminate|].
  cbn [orb]. destruct (negb _); [discriminate|].
  destruct read; [|discriminate].
  destruct (Accounts.by_email _ db) eqn:Efind; [discriminate|].
  destruct write; [|discriminate].
  intros [= <- <- <- <-] Hcompare.
  unfold Accounts.by_email in *.
  rewrite (find_snoc_fresh _ _ _ Efind) by apply String.eqb_refl.
  cbn [Accounts.a_password Accounts.a_id Accounts.a_email Accounts.a_name Accounts.a_role
       Accounts.p_id Accounts.p_email Accounts.p_role].
  by rewrite Hcompare.
Qed.

Lemma register_then_login_witness :
  Accounts.login (λ p h, String.eqb h ("$2a$10$" +:+ p))
    (Some "eve@example.org") (Some "secret")
    [Cases.root;
     {| Accounts.a_id := 2; Accounts.a_email := "eve@example.org";
        Accounts.a_password := "$2a$10$secret"; Accounts.a_name := "Eve";
        Accounts.a_role := "user" |}]
    DbOk (λ _, "abc.def")
  = Accounts.Session 200
      {| Accounts.p_id := 2; Accounts.p_email := "eve@example.org";
         Accounts.p_name := "Eve"; Accounts.p_role := "user" |}
      "abc.def".
Proof.
  eapply (register_then_login _ (Some "eve@example.org") (Some "secret") (Some "Eve") None
            [Cases.root] DbOk DbOk "$2a$10$secret" 2 (λ _, "abc.def") (λ _, "abc.def")).
  - vm_compute. reflexivity.
  - vm_compute. reflexivity.
Defined.

(** X28.  The role asked for at registration is the role the token
    grants.  When the token of a successful registration verifies to the
    claims it was signed for, [authenticateToken] hands the routes a
    caller with the new id and the requested role (user by default), and
    [requireAdmin] lets that caller pass exactly when the role asked for
    was admin. *)
Theorem registered_role_is_granted
    (verify : string → option Accounts.claims)
    (email password name role : option string) (db : Accounts.database)
    (read write : db_outcome) (hashedPassword : string) (lastID : Z)
    (token : Accounts.claims → string)
    (status : nat) (who : Accounts.profile) (t : string) (db' : Accounts.database) :
  Accounts.register email password name role db read write hashedPassword lastID token
    = (Accounts.Session status who t, db') →
  t ≠ "" → count_char " " t = 0 →
  verify t = Some {| Accounts.c_userId := Accounts.p_id who;
                     Accounts.c_email := Accounts.p_email who;
                     Accounts.c_role := Accounts.p_role who |} →
  ∃ c, Accounts.authenticateToken verify (Some ("Bearer " +:+ t)) = inr c ∧
       Accounts.caller c = {| userId := lastID; role := default "user" role |} ∧
       (Accounts.requireAdmin (Accounts.caller c) = None ↔ role = Some "admin").
Proof.
  unfold Accounts.register. cbv zeta.
  destruct (_ || _); [discriminate|].
  destruct (negb _); [discriminate|].
  destruct read; [|discriminate].
  destruct (Accounts.by_email _ db); [discriminate|].
  destruct write; [|discriminate].
  intros [= <- <- <- <-] Hne Hspace Hverify.
  cbn [Accounts.p_id Accounts.p_email Accounts.p_role] in Hverify.
  eexists. split_and!.
  - unfold Accounts.authenticateToken. cbv zeta.
    rewrite append_cons, <- append_cons, (bearer_token _ Hspace).
    destruct (token _) as [|c0 t0] eqn:Et; [done|]. rewrite Hverify. reflexivity.
  - reflexivity.
  - unfold Accounts.requireAdmin, Accounts.caller. simpl.
    destruct role as [r|]; cbn [default from_option Datatypes.id].
    + destruct (String.eqb_spec r "admin") as [->|Hr]; cbn [negb]; split; try done.
      intros [= ->]. done.
    + simpl. split; discriminate.
Qed.

Lemma registered_role_is_granted_witness :
  ∃ c, Accounts.authenticateToken (λ _, Some Cases.eve_claims) (Some ("Bearer " +:+ "abc.def"))
         = inr c ∧
       Accounts.caller c = {| userId := 2; role := default "user" (Some "admin") |} ∧
       (Accounts.requireAdmin (Accounts.caller c) = None ↔ Some "admin" = Some "admin").
Proof.
  eapply (registered_role_is_granted (λ _, Some Cases.eve_claims)
            (Some "eve@example.org") (Some "secret") (Some "Eve") (Some "admin")
            [Cases.root] DbOk DbOk "$2a$10$secret" 2 (λ _, "abc.def")).
  - vm_compute. reflexivity.
  - discriminate.
  - reflexivity.
  - reflexivity.
Defined.

(** ** Applications *)

Section ApplicationFacts.
Local Open Scope list_scope.

Lemma set_status_id (id : Z) (status notes : string) (a : Applications.application) :
  Applications.app_id (Applications.set_status id status notes a) = Applications.app_id a.
Proof. unfold Applications.set_status. by destruct (_ =? _)%Z. Qed.

Lemma set_status_pair (id : Z) (status notes : string) (a : Applications.application) :
  (Applications.app_job_id (Applications.set_status id status notes a),
   Applications.app_user_id (Applications.set_status id status notes a))
  = (Applications.app_job_id a, Applications.app_user_id a).
Proof. unfold Applications.set_status. by destruct (_ =? _)%Z. Qed.

Lemma set_status_other (id : Z) (status notes : string) (a : Applications.application) :
  Applications.app_id a ≠ id → Applications.set_status id status notes a = a.
Proof.
  intros H. unfold Applications.set_status.
  by destruct (Z.eqb_spec (Applications.app_id a) id).
Qed.

Lemma find_application_Some (u : user) (id : Z) (db : Applications.database)
    (a : Applications.application) :
  Applications.find_application u id db = Some a →
  a ∈ Applications.applications db ∧ Applications.app_id a = id ∧
  ∃ j, j ∈ Applications.jobs db ∧ Applications.j_id j = Applications.app_job_id a ∧
       (role u = "recruiter" → Applications.j_created_by j = userId u).
Proof.
  unfold Applications.find_application. intros H.
  apply find_some in H as [Ha Hcond]. apply list_elem_of_In in Ha.
  apply andb_true_iff in Hcond as [Hid Hjob]. apply Z.eqb_eq in Hid.
  apply existsb_exists in Hjob as (j & Hj & Hcond). apply list_elem_of_In in Hj.
  apply andb_true_iff in Hcond as [Hjid Hown]. apply Z.eqb_eq in Hjid.
  split_and!; try done. exists j. split_and!; try done.
  intros Hrole. rewrite Hrole in Hown. simpl in Hown. by apply Z.eqb_eq.
Qed.

End ApplicationFacts.

(** X29.  Applying and updating a status keep the table [applications]
    as the router wants it: ids stay unique, no user gets a second
    application for the same job, and every status is one of pending,
    reviewing, accepted and rejected, whatever the requests hold and
    whatever the database calls return.  [lastID] is an id that is not in
    use. *)
Theorem applications_stay_well_formed
    (u : user) (job_id resume_id : option Z) (cover_letter : option string)
    (id : Z) (status notes : option string) (db : Applications.database)
    (read_resume read_job read_existing write : db_outcome) (lastID : Z) :
  well_formed_applications db →
  lastID ∉ map Applications.app_id (Applications.applications db) →
  well_formed_applications
    (Applications.post_apply u job_id resume_id cover_letter db
       read_resume read_job read_existing write lastID).2 ∧
  well_formed_applications
    (Applications.patch_status u id status notes db read_existing write).1.2.
Proof.
  intros (Hids & Hpairs & Hstatus) Hfresh. split.
  - unfold Applications.post_apply. cbv zeta.
    destruct (_ || _); [done|].
    destruct read_resume; [|done].
    destruct (List.find _ (Applications.resumes db)) as [resume|]; [|done].
    destruct read_job; [|done].
    destruct (List.find _ (Applications.jobs db)) as [job|]; [|done].
    destruct read_existing; [|done].
    destruct (List.find _ (Applications.applications db)) as [existing|] eqn:Efind; [done|].
    destruct write; [|done]. cbn [snd].
    unfold well_formed_applications. cbn [Applications.applications].
    rewrite !map_app. cbn [map]. split_and!.
    + apply NoDup_app. split_and!; [done| |apply NoDup_singleton].
      intros x Hx Hx'. apply list_elem_of_singleton in Hx' as ->. done.
    + apply NoDup_app. split_and!; [done| |apply NoDup_singleton].
      intros x Hx Hx'. apply list_elem_of_singleton in Hx' as ->.
      rewrite map_fmap in Hx. apply list_elem_of_fmap in Hx as (a & Ha & Hin).
      apply list_elem_of_In in Hin. pose proof (find_none _ _ Efind a Hin) as Hf.
      simpl in Hf. cbn [Applications.app_job_id Applications.app_user_id] in Ha.
      injection Ha as Hj Hu. rewrite <- Hj, <- Hu, !Z.eqb_refl in Hf. discriminate.
    + apply Forall_app. split; [done|]. apply Forall_singleton.
      cbn [Applications.app_status]. apply list_elem_of_here.
  - unfold Applications.patch_status.
    destruct (negb _); [done|]. destruct status as [status|]; [|done].
    destruct (bool_decide (status ∈ Applications.statuses)) eqn:Es; [|done].
    apply bool_decide_eq_true in Es. cbn [negb].
    destruct read_existing; [|done].
    destruct (Applications.find_application u id db) as [found|]; [|done].
    destruct write; [|done]. cbv zeta. cbn [fst snd].
    unfold well_formed_applications. cbn [Applications.applications]. split_and!.
    + rewrite map_map. erewrite map_ext; [exact Hids|]. apply set_status_id.
    + rewrite map_map. erewrite map_ext; [exact Hpairs|]. apply set_status_pair.
    + apply Forall_forall. intros a' Ha'. rewrite map_fmap in Ha'.
      apply list_elem_of_fmap in Ha' as (a & -> & Ha).
      unfold Applications.set_status. destruct (_ =? _)%Z; [done|].
      by apply (proj1 (Forall_forall _ _) Hstatus).
Qed.

Lemma applications_stay_well_formed_witness :
  well_formed_applications
    (Applications.post_apply {| userId := 2; role := "user" |} (Some 7%Z) (Some 1%Z) None
       Cases.hiring_db DbOk DbOk DbOk DbOk 2).2 ∧
  well_formed_applications
    (Applications.patch_status {| userId := 2; role := "user" |} 1 (Some "accepted") None
       Cases.hiring_db DbOk DbOk).1.2.
Proof.
  apply applications_stay_well_formed.
  - unfold well_formed_applications. cbn [Cases.hiring_db Applications.applications map].
    split_and!.
    + apply NoDup_singleton.
    + apply NoDup_singleton.
    + apply Forall_singleton. apply list_elem_of_here.
  - simpl. rewrite list_elem_of_singleton. discriminate.
Defined.

(** X30.  A recruiter updates the status of applications for their own
    jobs only.  Whatever a caller of role recruiter sends, jobs and
    resumes are untouched and every application for a job the caller did
    not create stays as it is; on success the application of the
    requested id is one for a job of the caller, and it now carries the
    new status and notes. *)
Theorem recruiter_updates_own_jobs_only
    (u : user) (id : Z) (status notes : option string) (db : Applications.database)
    (read write : db_outcome) (response : Applications.response)
    (db' : Applications.database) (log : list string) :
  role u = "recruiter" →
  NoDup (map Applications.app_id (Applications.applications db)) →
  Applications.patch_status u id status notes db read write = (response, db', log) →
  Applications.resumes db' = Applications.resumes db ∧
  Applications.jobs db' = Applications.jobs db ∧
  (∀ a, a ∈ Applications.applications db → ¬ for_job_of db u a →
        a ∈ Applications.applications db') ∧
  (∀ i s n, response = Applications.Updated i s n →
     i = id ∧ status = Some s ∧
     ∃ a, a ∈ Applications.applications db ∧ Applications.app_id a = id ∧
          for_job_of db u a ∧
          Applications.set_status id s n a ∈ Applications.applications db' ∧
          Applications.app_status (Applications.set_status id s n a) = s).
Proof.
  intros Hrole Hnd. unfold Applications.patch_status.
  destruct (negb _); [by intros [= <- <- _]|].
  destruct status as [status|]; [|by intros [= <- <- _]].
  destruct (negb _); [by intros [= <- <- _]|].
  destruct read; [|by intros [= <- <- _]].
  destruct (Applications.find_application u id db) as [found|] eqn:Efind;
    [|by intros [= <- <- _]].
  destruct write; [|by intros [= <- <- _]].
  cbv zeta. intros [= <- <- _]. cbn [Applications.resumes Applications.jobs Applications.applications].
  apply find_application_Some in Efind as (Hfound & Hid & j & Hj & Hjid & Hown).
  assert (Hmine : for_job_of db u found) by (exists j; auto).
  split_and!; try done.
  - intros a Ha Hnot. rewrite map_fmap.
    rewrite <- (set_status_other id status (default "" notes) a).
    + by apply list_elem_of_fmap_2.
    + intros Hida. apply Hnot.
      replace a with found; [done|].
      eapply (NoDup_map_inj Applications.app_id); eauto. congruence.
  - intros i s n [= <- <- <-]. split_and!; try done.
    exists found. split_and!; try done.
    + rewrite map_fmap. by apply list_elem_of_fmap_2.
    + unfold Applications.set_status. by rewrite Hid, Z.eqb_refl.
Qed.

Lemma recruiter_updates_own_jobs_only_witness :
  ∃ db', Applications.resumes db' = Applications.resumes Cases.hiring_db ∧
  Applications.jobs db' = Applications.jobs Cases.hiring_db ∧
  (∀ a, a ∈ Applications.applications Cases.hiring_db →
        ¬ for_job_of Cases.hiring_db {| userId := 5; role := "recruiter" |} a →
        a ∈ Applications.applications db') ∧
  (∀ i s n, Applications.Updated 1 "accepted" "" = Applications.Updated i s n →
     i = 1%Z ∧ Some "accepted" = Some s ∧
     ∃ a, a ∈ Applications.applications Cases.hiring_db ∧ Applications.app_id a = 1%Z ∧
          for_job_of Cases.hiring_db {| userId := 5; role := "recruiter" |} a ∧
          Applications.set_status 1 s n a ∈ Applications.applications db' ∧
          Applications.app_status (Applications.set_status 1 s n a) = s).
Proof.
  eexists.
  eapply (recruiter_updates_own_jobs_only {| userId := 5; role := "recruiter" |} 1
            (Some "accepted") None Cases.hiring_db DbOk DbOk _ _ []).
  - reflexivity.
  - apply NoDup_singleton.
  - vm_compute. reflexivity.
Defined.
